(** * A keyed tree over a mutable object store

    Verification of [src/Tree.ts] (class [Tree<T>]) and of its second copy
    [src/unnamed/part_000].

    The class builds a graph of mutable objects: every node holds a back
    reference to its parent and an insertion-ordered object mapping child
    keys to child nodes.  [appendChild] mutates a node that other nodes keep
    referring to, so the embedding is over an explicit object store:
    a [heap] is the list of all allocated [Tree] objects and a reference is
    an index into it.  Methods that only read take the heap and the
    receiver; the constructor and [appendChild] thread the heap and return
    the new one.  A result of [None] stands for a thrown [TypeError] (or,
    for the methods that recurse or loop through the store, for an
    exhausted budget [fuel]: the store is a graph, and on a cyclic one the
    methods of the class do not return).

    The development has three parts: the JavaScript data the class works
    on; the class, method by method, first from [src/Tree.ts] (with the
    partial match of [lodash/isMatch], which the searches call) and then
    the methods of [src/unnamed/part_000] in the module [Part000]; and the
    proofs, which rest on one invariant of the stores that construction
    and [appendChild] produce ([tree_inv]). *)

From Stdlib Require Import ZArith String Ascii DecimalString DecimalZ DecimalN DecimalPos.
From stdpp Require Import strings.
From stdpp Require Import base option list.

Open Scope string_scope.
Open Scope list_scope.
Open Scope nat_scope.

(** ** JavaScript values, strings and numbers *)

Module JS.

(** Plain (JSON-like) data: the records given to the constructor and the
    payload of the nodes.  The class never computes with the payload, so
    its numbers are kept to integers; a string is a sequence of characters
    with codes below 256, each one unit of its [length]. *)
#[warnings="-register-all"]
Inductive value :=
| VUndefined
| VNull
| VBool (b : bool)
| VNumber (n : Z)
| VString (s : string)
| VArray (xs : list value)
| VObject (fs : list (string * value)).

(** [if (v)] *)
Definition truthy (v : value) : bool :=
  match v with
  | VUndefined | VNull => false
  | VBool b => b
  | VNumber n => negb (n =? 0)%Z
  | VString s => negb (String.eqb s EmptyString)
  | VArray _ | VObject _ => true
  end.

(** An object is an insertion-ordered list of properties.  (JavaScript moves
    keys that are canonical array indices to the front; the keys of a
    children object all contain a dot, so they are never of that kind.) *)
Fixpoint obj_get {A} (k : string) (o : list (string * A)) : option A :=
  match o with
  | [] => None
  | (k', v) :: o' => if String.eqb k' k then Some v else obj_get k o'
  end.

(** [o[k] = v]: overwrite in place, or add at the end. *)
Fixpoint obj_set {A} (k : string) (v : A) (o : list (string * A))
  : list (string * A) :=
  match o with
  | [] => [(k, v)]
  | (k', v') :: o' =>
      if String.eqb k' k then (k', v) :: o' else (k', v') :: obj_set k v o'
  end.

(** [Object.keys(o)] and [Object.values(o)] *)
Definition keys {A} (o : list (string * A)) : list string := fst <$> o.
Definition values {A} (o : list (string * A)) : list A := snd <$> o.

(** Numbers as [parseInt] produces them: [NaN] or an integer.  The model
    computes with the integers themselves.  A JavaScript number holds
    every integer of magnitude up to 2^53 and prints it in plain decimal,
    so up to there [parseInt], [n++] and [String(n)] are the operations
    below; past 2^53 JavaScript rounds ([2^53 + 1] is [2^53] again), which
    the model does not follow.  A key segment counts the children of one
    node, so the difference takes a node with 2^53 children to show. *)
Inductive number := NaN | Int (z : Z).

(** The numbers on which the model is exact, with room for one
    increment. *)
Definition safe (n : number) : bool :=
  match n with
  | NaN => true
  | Int z => (Z.abs z <? 2 ^ 53)%Z
  end.

Definition is_digit (c : ascii) : bool :=
  (48 <=? nat_of_ascii c)%nat && (nat_of_ascii c <=? 57)%nat.

Definition is_space (c : ascii) : bool :=
  let n := nat_of_ascii c in
  (n =? 32)%nat || ((9 <=? n)%nat && (n <=? 13)%nat).

Fixpoint skip_spaces (s : string) : string :=
  match s with
  | String c r => if is_space c then skip_spaces r else s
  | EmptyString => s
  end.

Fixpoint take_digits (s : string) : string :=
  match s with
  | String c r =>
      if is_digit c then String c (take_digits r) else EmptyString
  | EmptyString => EmptyString
  end.

Definition digits_value (ds : string) : number :=
  match ds with
  | EmptyString => NaN
  | _ => match NilEmpty.uint_of_string ds with
         | Some u => Int (Z.of_uint u)
         | None => NaN
         end
  end.

Definition negate (n : number) : number :=
  match n with
  | NaN => NaN
  | Int z => Int (- z)
  end.

(** [parseInt(s, 10)]: leading (ASCII) white space is skipped, then an
    optional sign and the longest run of decimal digits are read; [NaN]
    when there is no digit. *)
Definition parseInt (s : string) : number :=
  match skip_spaces s with
  | EmptyString => NaN
  | String c r =>
      if Ascii.eqb c "-" then negate (digits_value (take_digits r))
      else if Ascii.eqb c "+" then digits_value (take_digits r)
      else digits_value (take_digits (String c r))
  end.

(** [String(n)] for the numbers above. *)
Definition toString (n : number) : string :=
  match n with
  | NaN => "NaN"
  | Int z => NilEmpty.string_of_int (Z.to_int z)
  end.

(** [n++] *)
Definition incr (n : number) : number :=
  match n with
  | NaN => NaN
  | Int z => Int (z + 1)
  end.

(** A canonical array index: the decimal numeral of a natural number. *)
Definition array_index (k : string) : option nat :=
  match parseInt k with
  | Int z =>
      if (0 <=? z)%Z && String.eqb (toString (Int z)) k then Some (Z.to_nat z)
      else None
  | NaN => None
  end.

(** [v[k]], the property read of [getPath]: an own property of an object,
    [undefined] when it is missing; the [length] and the elements of an
    array; the [length] and the characters of a string.  (What a value
    inherits from the built-in prototypes are functions, which are no
    plain data, and are left out.) *)
Definition prop (v : value) (k : string) : value :=
  match v with
  | VObject fs => default VUndefined (obj_get k fs)
  | VArray xs =>
      if String.eqb k "length" then VNumber (Z.of_nat (length xs))
      else match array_index k with
           | Some i => default VUndefined (xs !! i)
           | None => VUndefined
           end
  | VString s =>
      if String.eqb k "length" then VNumber (Z.of_nat (String.length s))
      else match array_index k with
           | Some i =>
               match String.get i s with
               | Some c => VString (String c EmptyString)
               | None => VUndefined
               end
           | None => VUndefined
           end
  | _ => VUndefined
  end.

(** [v[k]] as a step of a program: on [null] and [undefined] the read
    throws a [TypeError]. *)
Definition read (v : value) (k : string) : option value :=
  match v with
  | VUndefined | VNull => None
  | _ => Some (prop v k)
  end.

(** [s.split(".")] *)
Fixpoint split_dot (s : string) : list string :=
  match s with
  | EmptyString => [EmptyString]
  | String c r =>
      if Ascii.eqb c "." then EmptyString :: split_dot r
      else match split_dot r with
           | w :: ws => String c w :: ws
           | [] => [String c EmptyString]
           end
  end.

(** Whether [s] contains a dot. *)
Fixpoint has_dot (s : string) : bool :=
  match s with
  | EmptyString => false
  | String c r => Ascii.eqb c "." || has_dot r
  end.

(** [a.join(".")] *)
Definition join_dot (a : list string) : string := String.concat "." a.

End JS.
Import JS.

(** ** The object store *)

(** A reference to an object: its index in the store. *)
Abbreviation loc := nat.

(** The fields of [class Tree<T>].  [children] and [parent] are optional
    fields: [None] is a field that was never assigned. *)
Record Tree := mkTree {
  key : string;
  children : option (list (string * loc));
  data : value;
  parent : option loc;
}.

(** The store: every [Tree] object allocated so far. *)
Abbreviation heap := (list Tree).

Definition with_children (cs : option (list (string * loc))) (t : Tree) : Tree :=
  {| key := key t; children := cs; data := data t; parent := parent t |}.

(** [callback] run on every element in order, threading the state; the
    first failure aborts the loop ([Array.prototype.forEach] with a callback
    that may throw). *)
Fixpoint forEach {S A} (f : A → S → option S) (l : list A) (s : S) : option S :=
  match l with
  | [] => Some s
  | x :: l' => s' ← f x s; forEach f l' s'
  end.

(** ** [src/Tree.ts] *)

(** [getNextChildKey()] *)
Definition getNextChildKey (h : heap) (this : loc) : option string :=
  t ← h !! this;
  match children t with
  | None => Some (key t +:+ ".0")
  | Some cs =>
      let childKeys := keys cs in
      match list.last childKeys with
      | None => Some (key t +:+ ".0")
      | Some lastKey =>
          let keyArray := parseInt <$> split_dot lastKey in
          let keyArray := alter incr (length keyArray - 1) keyArray in
          Some (join_dot (toString <$> keyArray))
      end
  end.

(** [this.children![k] = c] *)
Definition children_put (this : loc) (k : string) (c : loc) (h : heap)
  : option heap :=
  t ← h !! this;
  cs ← children t;
  Some (<[this := with_children (Some (obj_set k c cs)) t]> h).

(** [new Tree(props, parent)].  The new object is allocated at the end of
    the store.  The recursion is on [props]: the inner [children_prop] is
    the property read [props.children], written as a local loop so that the
    array it finds is visibly a part of [props]. *)
Fixpoint constructor (props : value) (parent : option loc) (h : heap)
  {struct props} : option (loc * heap) :=
  k ← match parent with
      | Some p => getNextChildKey h p
      | None => Some "0"
      end;
  let this := length h in
  let h := h ++ [mkTree k None props parent] in
  match props with
  | VUndefined | VNull => None
  | VObject fs =>
      (fix children_prop (o : list (string * value)) : option (loc * heap) :=
         match o with
         | [] => Some (this, h)
         | (k', ch) :: o' =>
             if String.eqb k' "children" then
               if truthy ch then
                 match ch with
                 | VArray cs =>
                     h ← forEach
                           (λ child h,
                              '(newChild, h) ← constructor child (Some this) h;
                              c ← h !! newChild;
                              children_put this (key c) newChild h)
                           cs (alter (with_children (Some [])) this h);
                     Some (this, h)
                 | _ => None
                 end
               else Some (this, h)
             else children_prop o'
         end) fs
  | _ => Some (this, h)
  end.

(** [get isRoot()] *)
Definition isRoot (h : heap) (this : loc) : option bool :=
  t ← h !! this;
  Some (match parent t with
        | Some _ => false
        | None => true
        end).

(** [get depth()]: the [while (node.parent)] loop, bounded by [fuel]
    iterations. *)
Fixpoint depth_loop (fuel : nat) (h : heap) (node : loc) (depth : nat)
  : option nat :=
  match fuel with
  | 0 => None
  | S fuel =>
      t ← h !! node;
      match parent t with
      | Some p => depth_loop fuel h p (S depth)
      | None => Some depth
      end
  end.

Definition depth (fuel : nat) (h : heap) (this : loc) : option nat :=
  depth_loop fuel h this 0.

(** [get rootNode()] *)
Fixpoint rootNode (fuel : nat) (h : heap) (node : loc) : option loc :=
  match fuel with
  | 0 => None
  | S fuel =>
      t ← h !! node;
      match parent t with
      | Some p => rootNode fuel h p
      | None => Some node
      end
  end.

(** [get childrenList()] *)
Definition childrenList (h : heap) (this : loc) : option (list loc) :=
  t ← h !! this;
  match children t with
  | None => Some []
  | Some cs => Some (values cs)
  end.

(** [get ancestors()]: the [while (node.parent)] loop, bounded by [fuel]
    iterations. *)
Fixpoint ancestors_loop (fuel : nat) (h : heap) (node : loc) (acc : list loc)
  : option (list loc) :=
  match fuel with
  | 0 => None
  | S fuel =>
      t ← h !! node;
      match parent t with
      | Some p => ancestors_loop fuel h p (acc ++ [p])
      | None => Some acc
      end
  end.

Definition ancestors (fuel : nat) (h : heap) (this : loc) : option (list loc) :=
  ancestors_loop fuel h this [].

(** [get descendants()], with recursion depth bounded by [fuel]. *)
Fixpoint descendants (fuel : nat) (h : heap) (this : loc) : option (list loc) :=
  match fuel with
  | 0 => None
  | S fuel =>
      t ← h !! this;
      match children t with
      | None => Some []
      | Some cs =>
          forEach (λ child acc,
                     ds ← descendants fuel h child;
                     Some ((acc ++ [child]) ++ ds))
                  (values cs) []
      end
  end.

(** [delete o[k]] *)
Fixpoint obj_delete {A} (k : string) (o : list (string * A))
  : list (string * A) :=
  match o with
  | [] => []
  | (k', v) :: o' =>
      if String.eqb k' k then o' else (k', v) :: obj_delete k o'
  end.

(** [get siblings()].  The result is the copy [Object.assign({}, ...)] of
    the parent's children (of nothing when the parent has no children
    object) without the own key; for a root it is the empty array, which
    has no properties either. *)
Definition siblings (h : heap) (this : loc) : option (list (string * loc)) :=
  t ← h !! this;
  match parent t with
  | None => Some []
  | Some p =>
      tp ← h !! p;
      let nodeList := default [] (children tp) in
      Some (obj_delete (key t) nodeList)
  end.

Definition key_is (h : heap) (k : string) (node : loc) : bool :=
  match h !! node with
  | Some t => String.eqb (key t) k
  | None => false
  end.

(** [get(key)] *)
Definition get (fuel : nat) (h : heap) (this : loc) (k : string)
  : option (option loc) :=
  t ← h !! this;
  if String.eqb (key t) k then Some (Some this)
  else ds ← descendants fuel h this; Some (find (key_is h k) ds).

(** [getPath(indexer, includeRoot)] *)
Definition getPath (fuel : nat) (h : heap) (this : loc) (indexer : string)
  (includeRoot : bool) : option (list value) :=
  t ← h !! this;
  anc ← ancestors fuel h this;
  let anc := if includeRoot then anc else removelast anc in
  let anc := rev anc in
  path ← mapM (λ a, ta ← h !! a; read (data ta) indexer) anc;
  own ← read (data t) indexer;
  Some (path ++ [own]).

(** ** The partial match [lodash/isMatch] *)

(** What the match finds on the object side: the payload is plain data,
    but the properties of a [Tree] object also hold other [Tree] objects,
    arrays of them (the results of [childrenList], [ancestors] and
    [descendants]) and objects that map keys to them ([children],
    [siblings]); and every object has its prototype under [__proto__]. *)
Inductive jsobject :=
| OValue (v : value)
| ONode (l : loc)
| ONodes (ls : list loc)
| OChildren (cs : list (string * loc))
| OTreePrototype
| OObjectPrototype.

(** Modelled from the spec: part of [lodash/isMatch], its test that a
    value is an object and no array. *)
Definition isObject (o : jsobject) : bool :=
  match o with
  | OValue (VObject _) | ONode _ | OChildren _
  | OTreePrototype | OObjectPrototype => true
  | _ => false
  end.

(** Modelled from the spec: part of [lodash/isMatch], the elements of a
    value that is an array. *)
Definition elements (o : jsobject) : option (list jsobject) :=
  match o with
  | OValue (VArray xs) => Some (OValue <$> xs)
  | ONodes ls => Some (ONode <$> ls)
  | _ => None
  end.

(** [node[k]] for a [Tree] object, when [k in node] and the property holds
    no function: the fields of the class ([parent] and [children] once
    they were assigned; the class is compiled so that a declared field
    exists from its first assignment), and the accessors of the class,
    which the read runs.  The accessors that walk the tree are given the
    size of the store as budget, which is enough on a tree; on a store
    with a cycle they do not return, and there is no property to match. *)
Definition node_prop (h : heap) (l : loc) (k : string) : option jsobject :=
  t ← h !! l;
  if String.eqb k "key" then Some (OValue (VString (key t)))
  else if String.eqb k "data" then Some (OValue (data t))
  else if String.eqb k "parent" then ONode <$> parent t
  else if String.eqb k "children" then OChildren <$> children t
  else if String.eqb k "isRoot" then
    (λ b, OValue (VBool b)) <$> isRoot h l
  else if String.eqb k "depth" then
    (λ n, OValue (VNumber (Z.of_nat n))) <$> depth (length h) h l
  else if String.eqb k "rootNode" then ONode <$> rootNode (length h) h l
  else if String.eqb k "childrenList" then ONodes <$> childrenList h l
  else if String.eqb k "ancestors" then ONodes <$> ancestors (length h) h l
  else if String.eqb k "descendants" then
    ONodes <$> descendants (length h) h l
  else if String.eqb k "siblings" then
    match parent t with
    | None => Some (ONodes [])
    | Some _ => OChildren <$> siblings h l
    end
  else if String.eqb k "__proto__" then Some OTreePrototype
  else None.

(** Modelled from the spec: part of [lodash/isMatch], its test that a
    field is present, [k in o], and its read [o[k]], for a property that
    holds no function.  (A function equals no plain data, so for the match
    a method is as good as a missing property.)  On the prototype of the
    class the accessors run with the prototype as receiver, which has no
    parent and no children. *)
Definition object_prop (h : heap) (o : jsobject) (k : string)
  : option jsobject :=
  match o with
  | OValue (VObject fs) =>
      match obj_get k fs with
      | Some v => Some (OValue v)
      | None =>
          if String.eqb k "__proto__" then Some OObjectPrototype else None
      end
  | ONode l => node_prop h l k
  | OChildren cs =>
      match obj_get k cs with
      | Some c => Some (ONode c)
      | None =>
          if String.eqb k "__proto__" then Some OObjectPrototype else None
      end
  | OTreePrototype =>
      if String.eqb k "isRoot" then Some (OValue (VBool true))
      else if String.eqb k "depth" then Some (OValue (VNumber 0))
      else if String.eqb k "rootNode" then Some OTreePrototype
      else if String.eqb k "childrenList" then Some (ONodes [])
      else if String.eqb k "ancestors" then Some (ONodes [])
      else if String.eqb k "descendants" then Some (ONodes [])
      else if String.eqb k "siblings" then Some (ONodes [])
      else if String.eqb k "__proto__" then Some OObjectPrototype
      else None
  | OObjectPrototype =>
      if String.eqb k "__proto__" then Some (OValue VNull) else None
  | _ => None
  end.

(** Modelled from the spec: part of [lodash/isMatch], the choice of the
    element an entry of a predicate array is matched with: the first one
    that satisfies [f]; the result is the list without it. *)
Fixpoint take_first {A} (f : A → bool) (l : list A) : option (list A) :=
  match l with
  | [] => None
  | x :: l' => if f x then Some l' else cons x <$> take_first f l'
  end.

(** Modelled from the spec: [lodash/isMatch], the structural partial-match
    utility the class imports, is not part of the repository.  "Object A
    matches partial predicate P" when every own field of P is present in A
    with a deeply equal value; fields of A that P does not name are
    ignored; nested predicate fields are matched recursively.  [baseIsEqual]
    is the comparison of a predicate value [source] with the value [other]
    found in A: a primitive equals itself only; an array matches an array
    in which each of its elements, in turn, finds a matching element not
    used before; an object matches an object (no array) in which each of
    its fields is present ([k in other]) with a matching value. *)
Fixpoint baseIsEqual (h : heap) (other : jsobject) (source : value)
  {struct source} : bool :=
  match source with
  | VUndefined =>
      match other with OValue VUndefined => true | _ => false end
  | VNull =>
      match other with OValue VNull => true | _ => false end
  | VBool b =>
      match other with OValue (VBool b') => Bool.eqb b b' | _ => false end
  | VNumber n =>
      match other with OValue (VNumber n') => (n =? n')%Z | _ => false end
  | VString s =>
      match other with OValue (VString s') => String.eqb s s' | _ => false end
  | VArray xs =>
      match elements other with
      | Some others =>
          (fix equalArrays (xs : list value) (others : list jsobject)
             {struct xs} : bool :=
             match xs with
             | [] => true
             | x :: xs' =>
                 match take_first (λ o, baseIsEqual h o x) others with
                 | Some others' => equalArrays xs' others'
                 | None => false
                 end
             end) xs others
      | None => false
      end
  | VObject fs =>
      isObject other &&
      (fix equalObjects (fs : list (string * value)) : bool :=
         match fs with
         | [] => true
         | (k, v) :: fs' =>
             match object_prop h other k with
             | Some o => baseIsEqual h o v
             | None => false
             end && equalObjects fs'
         end) fs
  end.

(** Modelled from the spec: [isMatch(node, predicate)] with a [Tree] object
    as A.  The fields of P are its own enumerable properties: those of an
    object; the indices of an array or a string, which no [Tree] object
    has; none for any other value, which therefore matches every node. *)
Definition isMatch (h : heap) (node : loc) (source : value) : bool :=
  match source with
  | VObject _ => baseIsEqual h (ONode node) source
  | VArray xs => match xs with [] => true | _ => false end
  | VString s => String.eqb s EmptyString
  | _ => true
  end.

(** ** [src/Tree.ts], continued *)

(** [findAllChildren(predicate)] *)
Definition findAllChildren (h : heap) (this : loc) (predicate : value)
  : option (list loc) :=
  cl ← childrenList h this;
  Some (List.filter (λ node, isMatch h node predicate) cl).

(** [findAllDescendants(predicate)] *)
Definition findAllDescendants (fuel : nat) (h : heap) (this : loc)
  (predicate : value) : option (list loc) :=
  ds ← descendants fuel h this;
  Some (List.filter (λ node, isMatch h node predicate) ds).

(** [findOneDescendant(predicate)]: the inner option is the result, [None]
    for [undefined]. *)
Definition findOneDescendant (fuel : nat) (h : heap) (this : loc)
  (predicate : value) : option (option loc) :=
  result ← findAllDescendants fuel h this predicate;
  Some (match result with
        | r :: _ => Some r
        | [] => None
        end).

(** [hasChildren()] *)
Definition hasChildren (h : heap) (this : loc) : option bool :=
  t ← h !! this;
  Some (bool_decide (is_Some (children t))).

(** [findOneChild(predicate)] *)
Definition findOneChild (h : heap) (this : loc) (predicate : value)
  : option (option loc) :=
  result ← findAllChildren h this predicate;
  Some (match result with
        | r :: _ => Some r
        | [] => None
        end).

(** [appendChild(nodeData)] *)
Definition appendChild (h : heap) (this : loc) (nodeData : value)
  : option (loc * heap) :=
  '(childNode, h) ← constructor nodeData (Some this) h;
  c ← h !! childNode;
  t ← h !! this;
  match children t with
  | Some cs =>
      Some (childNode,
            <[this := with_children (Some (obj_set (key c) childNode cs)) t]> h)
  | None =>
      Some (childNode,
            <[this := with_children (Some [(key c, childNode)]) t]> h)
  end.

(** [traverse(callback)], with recursion depth bounded by [fuel].  The
    callback acts on a state of its own, may throw, and does not change the
    tree. *)
Fixpoint traverse {St} (fuel : nat) (h : heap) (this : loc)
  (callback : loc → St → option St) (s : St) : option St :=
  match fuel with
  | 0 => None
  | S fuel =>
      t ← h !! this;
      s ← callback this s;
      match children t with
      | None => Some s
      | Some cs =>
          forEach (λ child s, traverse fuel h child callback s) (values cs) s
      end
  end.

(** The own enumerable properties [{...v}] copies. *)
Definition spread (v : value) : list (string * value) :=
  match v with
  | VObject fs => fs
  | VArray xs => imap (λ i x, (toString (Int (Z.of_nat i)), x)) xs
  | VString s =>
      imap (λ i c, (toString (Int (Z.of_nat i)), VString (String c EmptyString)))
           (list_ascii_of_string s)
  | _ => []
  end.

(** [serialize()], with recursion depth bounded by [fuel]. *)
Fixpoint serialize (fuel : nat) (h : heap) (this : loc) : option value :=
  match fuel with
  | 0 => None
  | S fuel =>
      t ← h !! this;
      match children t with
      | None => Some (data t)
      | Some cs =>
          ser ← mapM (serialize fuel h) (values cs);
          Some (VObject (obj_set "children" (VArray ser) (spread (data t))))
      end
  end.

(** ** The §8 scenario *)

Definition scenario : value :=
  VObject [("name", VString "r");
           ("children",
            VArray [VObject [("name", VString "a")];
                    VObject [("name", VString "b");
                             ("children",
                              VArray [VObject [("name", VString "c")]])]])].

Definition scenario_heap : heap :=
  match constructor scenario None [] with
  | Some (_, h) => h
  | None => []
  end.

(** The root object of the scenario tree. *)
Definition scenario_root : Tree :=
  mkTree "0" (Some [("0.0", 1); ("0.1", 2)]) scenario None.

(** A record with a [children] field, and the scenario tree after it was
    appended to the node ["0.0"]. *)
Definition record_with_children : value :=
  VObject [("name", VString "b");
           ("children", VArray [VObject [("name", VString "c")]])].

Definition appended_heap : heap :=
  match appendChild scenario_heap 1 record_with_children with
  | Some (_, h) => h
  | None => []
  end.

(** The node ["0.1"] of the scenario tree. *)
Definition scenario_b : Tree :=
  mkTree "0.1" (Some [("0.1.0", 3)]) record_with_children (Some 0).

(** ** [src/unnamed/part_000] *)

(** The second copy of the class.  It has no [getPath] and no [hasChildren],
    and its [get] searches the descendants only. *)
Module Part000.

(** [getNextChildKey()] *)
Definition getNextChildKey (h : heap) (this : loc) : option string :=
  t ← h !! this;
  match children t with
  | None => Some (key t +:+ ".0")
  | Some cs =>
      let childKeys := keys cs in
      match list.last childKeys with
      | None => Some (key t +:+ ".0")
      | Some lastKey =>
          let keyArray := parseInt <$> split_dot lastKey in
          let keyArray := alter incr (length keyArray - 1) keyArray in
          Some (join_dot (toString <$> keyArray))
      end
  end.

(** [new Tree(props, parent)] *)
Fixpoint constructor (props : value) (parent : option loc) (h : heap)
  {struct props} : option (loc * heap) :=
  k ← match parent with
      | Some p => getNextChildKey h p
      | None => Some "0"
      end;
  let this := length h in
  let h := h ++ [mkTree k None props parent] in
  match props with
  | VUndefined | VNull => None
  | VObject fs =>
      (fix children_prop (o : list (string * value)) : option (loc * heap) :=
         match o with
         | [] => Some (this, h)
         | (k', ch) :: o' =>
             if String.eqb k' "children" then
               if truthy ch then
                 match ch with
                 | VArray cs =>
                     h ← forEach
                           (λ child h,
                              '(newChild, h) ← constructor child (Some this) h;
                              c ← h !! newChild;
                              children_put this (key c) newChild h)
                           cs (alter (with_children (Some [])) this h);
                     Some (this, h)
                 | _ => None
                 end
               else Some (this, h)
             else children_prop o'
         end) fs
  | _ => Some (this, h)
  end.

(** [get descendants()] *)
Fixpoint descendants (fuel : nat) (h : heap) (this : loc) : option (list loc) :=
  match fuel with
  | 0 => None
  | S fuel =>
      t ← h !! this;
      match children t with
      | None => Some []
      | Some cs =>
          forEach (λ child acc,
                     ds ← descendants fuel h child;
                     Some ((acc ++ [child]) ++ ds))
                  (values cs) []
      end
  end.

(** [get(key)] *)
Definition get (fuel : nat) (h : heap) (this : loc) (k : string)
  : option (option loc) :=
  ds ← descendants fuel h this; Some (find (key_is h k) ds).

(** [serialize()] *)
Fixpoint serialize (fuel : nat) (h : heap) (this : loc) : option value :=
  match fuel with
  | 0 => None
  | S fuel =>
      t ← h !! this;
      match children t with
      | None => Some (data t)
      | Some cs =>
          ser ← mapM (serialize fuel h) (values cs);
          Some (VObject (obj_set "children" (VArray ser) (spread (data t))))
      end
  end.

End Part000.

(** ** Specification vocabulary *)

(** The well-formed nested records: objects whose [children] property, when
    present, is [undefined] or an array of well-formed records
    ([T & { children?: Array<serializedTree<T>> }]). *)
#[warnings="-register-all"]
Inductive well_formed : value → Prop :=
| wf_leaf fs :
    obj_get "children" fs = None → well_formed (VObject fs)
| wf_undefined fs :
    obj_get "children" fs = Some VUndefined → well_formed (VObject fs)
| wf_children fs cs :
    obj_get "children" fs = Some (VArray cs) →
    Forall well_formed cs →
    well_formed (VObject fs).

(** The same as a check.  The inner [children_prop] is the property read
    [X.children], as in [constructor]. *)
Fixpoint well_formedb (X : value) : bool :=
  match X with
  | VObject fs =>
      (fix children_prop (o : list (string * value)) : bool :=
         match o with
         | [] => true
         | (k, ch) :: o' =>
             if String.eqb k "children" then
               match ch with
               | VUndefined => true
               | VArray cs => forallb well_formedb cs
               | _ => false
               end
             else children_prop o'
         end) fs
  | _ => false
  end.

(** A record without its [children] field. *)
Definition without_children (d : value) : value :=
  match d with
  | VObject fs =>
      VObject (List.filter (λ kv, negb (String.eqb kv.1 "children")) fs)
  | _ => d
  end.

(** The key of the child with index [i] under a node with key [k]. *)
Definition child_key (k : string) (i : nat) : string :=
  k +:+ "." +:+ toString (Int (Z.of_nat i)).

(** A path of indices from the root, as a key. *)
Definition render (p : list nat) : string :=
  join_dot ((λ i, toString (Int (Z.of_nat i))) <$> p).

Definition canonical (k : string) : Prop := ∃ p, p ≠ [] ∧ k = render p.

(** The key a node created under [par] receives. *)
Definition next_key (h : heap) (par : option loc) : option string :=
  match par with
  | Some p => getNextChildKey h p
  | None => Some "0"
  end.

(** The stores that construction and [appendChild] produce: a root built
    in the empty store by [new Tree(X)], then any number of [appendChild]
    calls on nodes of the tree.  (A call that throws adds nothing: the
    nodes it had allocated are referred to by no node of the tree.) *)
Inductive reachable : heap → Prop :=
| reach_new X r h :
    constructor X None [] = Some (r, h) → reachable h
| reach_append h this d n h' :
    reachable h → appendChild h this d = Some (n, h') → reachable h'.

(** The cells [lo .. hi-1] of the store form a tree rooted at [lo]: every
    other cell is registered, under its own key, in the children of its
    parent, an earlier cell of the range; every child entry names a later
    cell of the range whose key is the entry's key, whose parent is the
    node, and whose key is the node's key followed by the entry's index. *)
Record node_ok (h : heap) (lo hi : nat) (l : loc) (t : Tree) : Prop := {
  ok_key : canonical (key t);
  ok_parent :
    lo < l →
    ∃ p tp cs i, parent t = Some p ∧ lo ≤ p < l ∧ h !! p = Some tp ∧
                 children tp = Some cs ∧ cs !! i = Some (key t, l);
  ok_children :
    ∀ cs i k c, children t = Some cs → cs !! i = Some (k, c) →
      l < c < hi ∧ k = child_key (key t) i ∧
      ∃ tc, h !! c = Some tc ∧ key tc = k ∧ parent tc = Some l;
}.

Definition tree_at (h : heap) (lo hi : nat) : Prop :=
  lo < hi ≤ length h ∧
  ∀ l t, lo ≤ l < hi → h !! l = Some t → node_ok h lo hi l t.

(** The chain of nodes from the root down to a node, along parent links. *)
Inductive path_to (h : heap) : loc → list loc → Prop :=
| path_root l t :
    h !! l = Some t → parent t = None → path_to h l [l]
| path_step l t p c :
    h !! l = Some t → parent t = Some p → path_to h p c →
    path_to h l (c ++ [l]).

(** [serialize] returns [v] on node [l], whatever recursion depth it needs. *)
Definition serializes (h : heap) (l : loc) (v : value) : Prop :=
  ∃ fuel, serialize fuel h l = Some v.

(** The body of the constructor's [forEach] callback. *)
Definition add_child (this : loc) (child : value) (h : heap) : option heap :=
  '(newChild, h) ← constructor child (Some this) h;
  c ← h !! newChild;
  children_put this (key c) newChild h.

(** What a successful [new Tree(props, par)] in store [h] establishes, when
    [k] is the key the new node is due: the node is the first new cell, the
    old cells are untouched, the new cells form a tree, and serializing the
    node gives [props] back. *)
Definition built (h : heap) (par : option loc) (k : string) (props : value)
  (l : loc) (h' : heap) : Prop :=
  l = length h ∧
  (∃ ns, h' = h ++ ns) ∧
  tree_at h' l (length h') ∧
  (∃ t, h' !! l = Some t ∧ key t = k ∧ parent t = par ∧ data t = props) ∧
  serializes h' l props.

(** The state of the constructor's loop after the children [done]. *)
Definition building (h0 : heap) (par : option loc) (k : string) (props : value)
  (h : heap) (done : list value) : Prop :=
  (∃ ns, h = h0 ++ ns) ∧
  tree_at h (length h0) (length h) ∧
  ∃ t cs, h !! length h0 = Some t ∧ key t = k ∧ parent t = par ∧
          data t = props ∧ children t = Some cs ∧
          Forall2 (serializes h) (values cs) done.

(** The contract of the constructor on the record [props]: it fails on
    ill-formed records only, and what it builds is [built]. *)
Definition constructs (props : value) : Prop :=
  ∀ par (h : heap) k,
    next_key h par = Some k → canonical k →
    match constructor props par h with
    | Some (l, h') => built h par k props l h'
    | None => ¬ well_formed props
    end.

(** The invariant of reachable stores: the whole store is one tree, rooted
    at cell [0], whose root has key ["0"] and no parent. *)
Definition tree_inv (h : heap) : Prop :=
  tree_at h 0 (length h) ∧
  ∃ t, h !! 0 = Some t ∧ key t = "0" ∧ parent t = None.

(** [d] is a strict descendant of [a]: the parent links from [d] reach [a]. *)
Inductive descends (h : heap) (a : loc) : loc → Prop :=
| descends_child d t :
    h !! d = Some t → parent t = Some a → descends h a d
| descends_step d t p :
    h !! d = Some t → parent t = Some p → descends h a p → descends h a d.

(** [a.data[indexer]] for the node [a]. *)
Definition field_of (h : heap) (indexer : string) (a : loc) : value :=
  match h !! a with
  | Some t => prop (data t) indexer
  | None => VUndefined
  end.

(** What every successful constructor call does to the store, whatever the
    store: it allocates the node as the first new cell, with [props] as its
    data and [par] as its parent, and leaves the old cells alone. *)
Definition allocates (props : value) : Prop :=
  ∀ par (h : heap) l h',
    constructor props par h = Some (l, h') →
    l = length h ∧ length h < length h' ∧
    (∀ x, x < length h → h' !! x = h !! x) ∧
    ∃ t, h' !! l = Some t ∧ data t = props ∧ parent t = par.

(** The records on which the constructor throws, read off its code:
    [null] and [undefined] (the read [props.children] throws), and objects
    whose [children] is truthy and either no array ([forEach] is not a
    function) or an array with an entry on which the constructor throws. *)
Fixpoint throws (props : value) : bool :=
  match props with
  | VUndefined | VNull => true
  | VObject fs =>
      (fix children_prop (o : list (string * value)) : bool :=
         match o with
         | [] => false
         | (k, ch) :: o' =>
             if String.eqb k "children" then
               if truthy ch then
                 match ch with
                 | VArray cs => existsb throws cs
                 | _ => true
                 end
               else false
             else children_prop o'
         end) fs
  | _ => false
  end.

(** The cells a constructor call adds hold records on which the constructor
    does not throw. *)
Definition accepted_data (props : value) : Prop :=
  ∀ par (h : heap) l h',
    constructor props par h = Some (l, h') →
    ∀ x tx, h' !! x = Some tx → length h ≤ x → throws (data tx) = false.

(** The call [node.getNextChildKey()] as a step of a program: the key it
    returns and the store it leaves.  The method assigns to its local
    array [keyArray] only. *)
Definition getNextChildKey_call (h : heap) (this : loc)
  : option (string * heap) :=
  k ← getNextChildKey h this; Some (k, h).

(** Whether a record has a [children] field. *)
Definition has_children_field (d : value) : bool :=
  match d with
  | VObject fs => bool_decide (is_Some (obj_get "children" fs))
  | _ => false
  end.

(** The subtree of the node [l] was built from the record [X]: the data of
    [l] is [X] itself, and its children are, in order, the subtrees built
    from the entries of [X.children]; a node built from a record without
    (truthy) [children] has no children object. *)
#[warnings="-register-all"]
Inductive mirrors (h : heap) : loc → value → Prop :=
| mirrors_leaf l t X :
    h !! l = Some t → data t = X → children t = None →
    truthy (prop X "children") = false →
    mirrors h l X
| mirrors_node l t X m cs :
    h !! l = Some t → data t = X → children t = Some m →
    prop X "children" = VArray cs →
    Forall2 (mirrors h) (values m) cs →
    mirrors h l X.

(** [x] comes before [y] in the order in which a walk of the tree visits
    the nodes, a node first and then the subtrees of its children in the
    order of its children object: [x] is above [y], or the two lie in (or
    are) different children of one node, [x] in the earlier one. *)
Definition before (h : heap) (x y : loc) : Prop :=
  descends h x y ∨
  ∃ p tp cs i j kx cx ky cy,
    h !! p = Some tp ∧ children tp = Some cs ∧
    cs !! i = Some (kx, cx) ∧ cs !! j = Some (ky, cy) ∧ i < j ∧
    (x = cx ∨ descends h cx x) ∧ (y = cy ∨ descends h cy y).

(** The records the constructor is called on when it builds a tree from
    [X], in the order of the calls: [X], then for each entry of
    [X.children] in turn the records of that entry. *)
Fixpoint records (X : value) : list value :=
  X :: match X with
       | VObject fs =>
           (fix children_prop (o : list (string * value)) : list value :=
              match o with
              | [] => []
              | (k, ch) :: o' =>
                  if String.eqb k "children" then
                    if truthy ch then
                      match ch with
                      | VArray cs => flat_map records cs
                      | _ => []
                      end
                    else []
                  else children_prop o'
              end) fs
       | _ => []
       end.

(** What a constructor call adds to the store, whatever the store: the
    data of the new cells are the records of [props], and the data of the
    old cells stay. *)
Definition records_data (props : value) : Prop :=
  ∀ par (h : heap) l h',
    constructor props par h = Some (l, h') →
    data <$> h' = (data <$> h) ++ records props.

(** What a constructor call builds when the new node is due a canonical
    key: a subtree that mirrors [props]. *)
Definition mirrored (props : value) : Prop :=
  ∀ par (h : heap) k l h',
    next_key h par = Some k → canonical k →
    constructor props par h = Some (l, h') → mirrors h' l props.

(** * Proofs *)

(** ** Keys: numbers, segments and dots *)

Lemma uint_string_digits d :
  take_digits (NilEmpty.string_of_uint d) = NilEmpty.string_of_uint d.
Proof. induction d; simpl; [done | by rewrite IHd ..]. Qed.

Lemma uint_string_no_dot d : has_dot (NilEmpty.string_of_uint d) = false.
Proof. induction d; simpl; done. Qed.

Lemma uint_string_value d :
  d ≠ Decimal.Nil →
  digits_value (NilEmpty.string_of_uint d) = Int (Z.of_uint d).
Proof.
  intros Hd. unfold digits_value. rewrite NilEmpty.usu.
  destruct d; simpl; congruence.
Qed.

Lemma uint_string_parse d :
  d ≠ Decimal.Nil →
  parseInt (NilEmpty.string_of_uint d) = Int (Z.of_uint d).
Proof.
  intros Hd. rewrite <- (uint_string_value d Hd).
  rewrite <- (uint_string_digits d) at 2.
  destruct d; try congruence; reflexivity.
Qed.

Lemma parseInt_toString n : parseInt (toString n) = n.
Proof.
  destruct n as [|z]; [reflexivity|].
  pose proof (DecimalZ.of_to z) as Hz.
  unfold toString. destruct z as [|p|p]; simpl in *.
  - reflexivity.
  - rewrite uint_string_parse by apply Unsigned.to_uint_nonnil. by rewrite Hz.
  - unfold parseInt. simpl. rewrite uint_string_digits, uint_string_value
      by apply Unsigned.to_uint_nonnil.
    simpl. by rewrite Hz.
Qed.

Lemma toString_inj a b : toString a = toString b → a = b.
Proof. intros H. rewrite <- (parseInt_toString a), H. apply parseInt_toString. Qed.

Lemma toString_no_dot n : has_dot (toString n) = false.
Proof.
  destruct n as [|[|p|p]]; simpl; try reflexivity; apply uint_string_no_dot.
Qed.

Lemma toString_nonempty n : toString n ≠ EmptyString.
Proof.
  intros H. pose proof (parseInt_toString n) as Hp. rewrite H in Hp.
  destruct n; [discriminate H | discriminate Hp].
Qed.

Lemma split_no_dot s : has_dot s = false → split_dot s = [s].
Proof.
  induction s as [|c r IH]; simpl; [done|].
  destruct (Ascii.eqb c "."); simpl; [done|]. intros H. by rewrite IH.
Qed.

Lemma split_app_dot s r :
  has_dot s = false → split_dot (s +:+ "." +:+ r) = s :: split_dot r.
Proof.
  induction s as [|c s IH]; [done|].
  change (String c s +:+ "." +:+ r) with (String c (s +:+ "." +:+ r)). simpl.
  destruct (Ascii.eqb c "."); simpl; [done|]. intros H. by rewrite IH.
Qed.

Lemma split_join ss :
  ss ≠ [] → Forall (λ s, has_dot s = false) ss → split_dot (join_dot ss) = ss.
Proof.
  intros Hne Hall. induction Hall as [|s ss Hs Hall IH]; [done|].
  destruct ss as [|s' ss'].
  - simpl. by apply split_no_dot.
  - change (join_dot (s :: s' :: ss')) with (s +:+ "." +:+ join_dot (s' :: ss')).
    rewrite split_app_dot by done. by rewrite IH.
Qed.

Lemma append_assoc (a b c : string) : (a +:+ b) +:+ c = a +:+ (b +:+ c).
Proof.
  induction a as [|x a IH]; [done|].
  change (String x ((a +:+ b) +:+ c) = String x (a +:+ (b +:+ c))).
  by f_equal.
Qed.

Lemma join_snoc ss s :
  ss ≠ [] → join_dot (ss ++ [s]) = join_dot ss +:+ "." +:+ s.
Proof.
  induction ss as [|a ss IH]; [done|]. intros _.
  destruct ss as [|b ss].
  - reflexivity.
  - change (join_dot ((a :: b :: ss) ++ [s]))
      with (a +:+ "." +:+ join_dot ((b :: ss) ++ [s])).
    rewrite IH by done.
    change (join_dot (a :: b :: ss)) with (a +:+ "." +:+ join_dot (b :: ss)).
    by rewrite !append_assoc.
Qed.

(** The segments of a key that was joined from numbers are those numbers. *)
Lemma segments_join (ns : list number) :
  ns ≠ [] → parseInt <$> split_dot (join_dot (toString <$> ns)) = ns.
Proof.
  intros Hne. rewrite split_join.
  - rewrite <- list_fmap_compose. rewrite <- (list_fmap_id ns) at 2.
    apply list_fmap_ext. intros _ n _. apply parseInt_toString.
  - by destruct ns.
  - apply list.Forall_forall. intros s [n [-> _]]%list_elem_of_fmap.
    apply toString_no_dot.
Qed.

(** ** Objects *)

Lemma obj_set_fresh {A} k (v : A) o :
  k ∉ keys o → obj_set k v o = o ++ [(k, v)].
Proof.
  induction o as [|[k' v'] o IH]; intros Hk; [done|]. simpl.
  destruct (String.eqb_spec k' k) as [->|Hne].
  - exfalso. apply Hk. unfold keys. simpl. left.
  - f_equal. apply IH. intros Hin. apply Hk. unfold keys. simpl. by right.
Qed.

Lemma obj_set_same {A} k (v : A) o : obj_get k o = Some v → obj_set k v o = o.
Proof.
  induction o as [|[k' v'] o IH]; [done|]. simpl.
  destruct (String.eqb_spec k' k) as [->|Hne].
  - by intros [= ->].
  - intros H. by rewrite IH.
Qed.

Lemma obj_get_lookup {A} k (v : A) o i :
  NoDup (keys o) → o !! i = Some (k, v) → obj_get k o = Some v.
Proof.
  revert i. induction o as [|[k' v'] o IH]; intros i Hnd Hi; [done|].
  unfold keys in Hnd. simpl in Hnd. apply NoDup_cons in Hnd as [Hk' Hnd]. simpl.
  destruct i as [|i]; simpl in Hi.
  - injection Hi as -> ->. by rewrite String.eqb_refl.
  - destruct (String.eqb_spec k' k) as [->|Hne]; [|by eapply IH].
    exfalso. apply Hk'. apply list_elem_of_fmap. exists (k, v). split; [done|].
    by eapply list_elem_of_lookup_2.
Qed.

(** ** Keys *)

Lemma render_snoc p i : p ≠ [] → render (p ++ [i]) = child_key (render p) i.
Proof.
  intros Hp. unfold render, child_key. rewrite fmap_app. simpl.
  apply join_snoc. by destruct p.
Qed.

Lemma canonical_root : canonical "0".
Proof. exists [0]. split; [done | reflexivity]. Qed.

Lemma canonical_child k i : canonical k → canonical (child_key k i).
Proof.
  intros (p & Hp & ->). exists (p ++ [i]). split; [by destruct p|].
  by rewrite render_snoc.
Qed.

Lemma child_key_inj k i j : child_key k i = child_key k j → i = j.
Proof.
  unfold child_key. intros H. apply String.app_inj in H.
  apply String.app_inj in H. apply toString_inj in H. injection H. lia.
Qed.

Lemma render_segments p :
  p ≠ [] → parseInt <$> split_dot (render p) = (λ i, Int (Z.of_nat i)) <$> p.
Proof.
  intros Hp. unfold render. rewrite (list_fmap_compose (λ i, Int (Z.of_nat i)) toString).
  apply segments_join. by destruct p.
Qed.


Lemma alter_last {A} (f : A → A) l x :
  alter f (length (l ++ [x]) - 1) (l ++ [x]) = l ++ [f x].
Proof.
  rewrite length_app. simpl. replace (length l + 1 - 1) with (length l + 0) by lia.
  by rewrite alter_app_r.
Qed.

Lemma next_of_last p n :
  p ≠ [] →
  let keyArray := parseInt <$> split_dot (render (p ++ [n])) in
  join_dot (toString <$> alter incr (length keyArray - 1) keyArray)
  = render (p ++ [S n]).
Proof.
  intros Hp. cbv zeta. rewrite render_segments by by destruct p.
  rewrite fmap_app. cbn [fmap list_fmap]. rewrite alter_last.
  unfold render. rewrite !fmap_app, <- list_fmap_compose. cbn [fmap list_fmap incr].
  by rewrite Nat2Z.inj_succ.
Qed.

(** On a node that satisfies the invariant, the next key is the node's key
    followed by the number of children it has. *)
Lemma getNextChildKey_ok h lo hi l t :
  h !! l = Some t → node_ok h lo hi l t →
  getNextChildKey h l
  = Some (child_key (key t) (length (default [] (children t)))).
Proof.
  intros Hl [Hkey _ Hch]. unfold getNextChildKey. rewrite Hl. simpl.
  destruct (children t) as [cs|] eqn:Hcs; [|done]. simpl.
  destruct cs as [|e cs0 _] using rev_ind; [done|]. destruct e as [k c].
  unfold keys. rewrite fmap_app. simpl. rewrite last_snoc.
  destruct (Hch (cs0 ++ [(k, c)]) (length cs0) k c eq_refl) as (_ & -> & _).
  { by rewrite list_lookup_middle. }
  destruct Hkey as (p & Hp & ->).
  rewrite <- render_snoc by done. rewrite next_of_last by done.
  rewrite length_app. simpl. rewrite Nat.add_1_r. by rewrite render_snoc.
Qed.

(** ** Trees in the store *)

Lemma tree_at_agree (h h' : heap) lo hi :
  tree_at h lo hi → hi ≤ length h' →
  (∀ l, lo ≤ l < hi → h' !! l = h !! l) →
  tree_at h' lo hi.
Proof.
  intros [Hb Hok] Hlen Hag. split; [lia|].
  intros l t Hl Ht. rewrite Hag in Ht by done.
  destruct (Hok l t Hl Ht) as [Hk Hp Hc]. split; [done | |].
  - intros Hlo. destruct (Hp Hlo) as (p & tp & cs & i & ? & ? & ? & ? & ?).
    exists p, tp, cs, i. rewrite Hag by lia. done.
  - intros cs i k c Hcs Hi. destruct (Hc cs i k c Hcs Hi) as (? & ? & tc & ? & ?).
    split; [done|]. split; [done|]. exists tc. rewrite Hag by lia. done.
Qed.

Lemma tree_at_bounds (h : heap) lo hi : tree_at h lo hi → lo < hi ≤ length h.
Proof. by intros [? _]. Qed.

Lemma tree_at_node (h : heap) lo hi l t :
  tree_at h lo hi → lo ≤ l < hi → h !! l = Some t → node_ok h lo hi l t.
Proof. intros [_ H]. apply H. Qed.

(** The keys of a node's children are pairwise distinct. *)
Lemma children_keys_fresh (h : heap) lo hi l t cs :
  node_ok h lo hi l t → children t = Some cs →
  child_key (key t) (length cs) ∉ keys cs.
Proof.
  intros [_ _ Hc] Hcs Hin. unfold keys in Hin.
  apply list_elem_of_fmap in Hin as ([k c] & Hk & Hin). simpl in Hk.
  apply list_elem_of_lookup in Hin as [i Hi].
  destruct (Hc cs i k c Hcs Hi) as (_ & -> & _).
  apply child_key_inj in Hk. apply lookup_lt_Some in Hi. lia.
Qed.

(** Grafting: a tree built at the end of the store, whose root carries the
    next key of a node [p] of an existing tree and [p] as parent, becomes
    part of that tree once it is entered into the children of [p]. *)
Lemma tree_at_graft (h : heap) lo p tp ns tc :
  let cs := default [] (children tp) in
  let h1 := h ++ ns in
  tree_at h lo (length h) →
  lo ≤ p < length h →
  h !! p = Some tp →
  tree_at h1 (length h) (length h1) →
  h1 !! length h = Some tc →
  parent tc = Some p →
  key tc = child_key (key tp) (length cs) →
  tree_at (<[p := with_children (Some (cs ++ [(key tc, length h)])) tp]> h1)
          lo (length h1).
Proof.
  intros cs h1 Hold Hp Htp Hnew Htc Hpar Hkey.
  pose proof (tree_at_bounds _ _ _ Hold) as Hb.
  pose proof (tree_at_bounds _ _ _ Hnew) as Hb1.
  assert (Hh1p : h1 !! p = Some tp) by by apply lookup_app_l_Some.
  set (tp' := with_children (Some (cs ++ [(key tc, length h)])) tp).
  set (h2 := <[p := tp']> h1).
  assert (Hlen2 : length h2 = length h1) by apply length_insert.
  assert (Hh2p : h2 !! p = Some tp') by (apply list_lookup_insert_eq; lia).
  assert (Hh2 : ∀ l, l ≠ p → h2 !! l = h1 !! l).
  { intros l Hl. by apply list_lookup_insert_ne. }
  (* every cell of the new store keeps the key and the parent it had *)
  assert (Hsame : ∀ l t, h1 !! l = Some t →
            ∃ t', h2 !! l = Some t' ∧ key t' = key t ∧ parent t' = parent t).
  { intros l t Hl. destruct (decide (l = p)) as [->|Hne].
    - exists tp'. rewrite Hh1p in Hl. injection Hl as <-. done.
    - exists t. by rewrite Hh2. }
  (* and a child list that has at least the entries it had *)
  assert (Hkids : ∀ l t cs0 i e, h1 !! l = Some t → children t = Some cs0 →
            cs0 !! i = Some e →
            ∃ t' cs', h2 !! l = Some t' ∧ children t' = Some cs' ∧
                      cs' !! i = Some e).
  { intros l t cs0 i e Hl Hcs0 Hi. destruct (decide (l = p)) as [->|Hne].
    - exists tp', (cs ++ [(key tc, length h)]). rewrite Hh1p in Hl.
      injection Hl as <-. split; [done|]. split; [done|].
      apply lookup_app_l_Some. unfold cs. by rewrite Hcs0.
    - exists t, cs0. by rewrite Hh2. }
  split; [lia|]. intros l t Hl Ht.
  destruct (decide (l = p)) as [->|Hlp].
  - (* the node that received the child *)
    rewrite Hh2p in Ht. injection Ht as <-.
    destruct (tree_at_node _ _ _ _ _ Hold Hp Htp) as [Hk Hpa Hch].
    split; [done | |].
    + intros Hlo. destruct (Hpa Hlo) as (q & tq & cq & i & ? & ? & Hq & Hcq & Hi).
      apply (lookup_app_l_Some _ ns) in Hq.
      destruct (Hkids _ _ _ _ _ Hq Hcq Hi) as (tq' & cq' & ? & ? & ?).
      by exists q, tq', cq', i.
    + intros cs0 i k c [= <-] Hi. apply lookup_app_Some in Hi as [Hi|[Hge Hi]].
      * assert (Hcs : children tp = Some cs).
        { unfold cs in *. destruct (children tp); [done|]. by destruct i. }
        destruct (Hch cs i k c Hcs Hi) as (? & ? & tc0 & Hc0 & ? & ?).
        split; [lia|]. split; [done|].
        apply (lookup_app_l_Some _ ns) in Hc0.
        destruct (Hsame _ _ Hc0) as (t' & ? & ? & ?). exists t'.
        split; [done|]. split; congruence.
      * apply list_lookup_singleton_Some in Hi as [Hi [= <- <-]].
        assert (i = length cs) as -> by lia.
        split; [lia|]. split; [done|]. exists tc. by rewrite Hh2 by lia.
  - rewrite Hh2 in Ht by done. destruct (decide (l < length h)) as [Hlt|Hge].
    + (* an old node *)
      unfold h1 in Ht. rewrite lookup_app_l in Ht by done.
      assert (Hlb : lo ≤ l < length h) by lia.
      destruct (tree_at_node _ _ _ _ _ Hold Hlb Ht) as [Hk Hpa Hch].
      split; [done | |].
      * intros Hlo. destruct (Hpa Hlo) as (q & tq & cq & i & ? & ? & Hq & Hcq & Hi).
        apply (lookup_app_l_Some _ ns) in Hq.
        destruct (Hkids _ _ _ _ _ Hq Hcq Hi) as (tq' & cq' & ? & ? & ?).
        by exists q, tq', cq', i.
      * intros cs0 i k c Hcs0 Hi.
        destruct (Hch cs0 i k c Hcs0 Hi) as (? & ? & tc0 & Hc0 & ? & ?).
        split; [lia|]. split; [done|].
        apply (lookup_app_l_Some _ ns) in Hc0.
        destruct (Hsame _ _ Hc0) as (t' & ? & ? & ?). exists t'.
        split; [done|]. split; congruence.
    + (* a node of the grafted tree *)
      assert (Hlb : length h ≤ l < length h1) by lia.
      destruct (tree_at_node _ _ _ _ _ Hnew Hlb Ht) as [Hk Hpa Hch].
      split; [done | |].
      * intros Hlo. destruct (decide (l = length h)) as [->|Hne].
        -- rewrite Htc in Ht. injection Ht as <-.
           exists p, tp', (cs ++ [(key tc, length h)]), (length cs).
           split; [done|]. split; [lia|]. split; [done|]. split; [done|].
           by rewrite list_lookup_middle.
        -- destruct (Hpa ltac:(lia)) as (q & tq & cq & i & ? & ? & Hq & Hcq & Hi).
           exists q, tq, cq, i. rewrite Hh2 by lia. split; [done|]. split; [lia|]. done.
      * intros cs0 i k c Hcs0 Hi.
        destruct (Hch cs0 i k c Hcs0 Hi) as (? & ? & tc0 & Hc0 & ? & ?).
        split; [lia|]. split; [done|]. exists tc0. by rewrite Hh2 by lia.
Qed.

(** ** Serialization *)

Lemma mapM_agree {A B} (f g : A → option B) l :
  (∀ x, x ∈ l → f x = g x) → mapM f l = mapM g l.
Proof.
  induction l as [|x l IH]; intros H; [done|]. simpl.
  rewrite (H x) by left. destruct (g x); [|done]. simpl.
  rewrite IH; [done|]. intros y Hy. apply H. by right.
Qed.

Lemma serialize_mono fuel fuel' (h : heap) l v :
  serialize fuel h l = Some v → fuel ≤ fuel' → serialize fuel' h l = Some v.
Proof.
  revert fuel' l v. induction fuel as [|fuel IH]; intros fuel' l v H Hle; [done|].
  destruct fuel' as [|fuel']; [lia|]. simpl in *.
  destruct (h !! l) as [t|]; [|done]. simpl in *.
  destruct (children t) as [cs|]; [|done].
  destruct (mapM (serialize fuel h) (values cs)) as [ser|] eqn:Hser; [|done].
  simpl in H. injection H as <-.
  apply mapM_Some in Hser.
  assert (Hser' : mapM (serialize fuel' h) (values cs) = Some ser).
  { apply mapM_Some. eapply Forall2_impl; [done|]. intros c x Hc. simpl in Hc.
    apply IH; [done | lia]. }
  by rewrite Hser'.
Qed.

Lemma serializes_fuel (h : heap) cs vs :
  Forall2 (serializes h) cs vs →
  ∃ fuel, Forall2 (λ c v, serialize fuel h c = Some v) cs vs.
Proof.
  induction 1 as [|c v cs vs [f1 Hc] _ [f2 IH]]; [by exists 0|].
  exists (f1 `max` f2). constructor.
  - eapply serialize_mono; [done | lia].
  - eapply Forall2_impl; [done|]. intros c' v' H. simpl in H.
    eapply serialize_mono; [done | lia].
Qed.

Lemma serializes_leaf (h : heap) l t :
  h !! l = Some t → children t = None → serializes h l (data t).
Proof. intros Hl Hc. exists 1. simpl. rewrite Hl. simpl. by rewrite Hc. Qed.

Lemma serializes_node (h : heap) l t cs vs :
  h !! l = Some t → children t = Some cs →
  Forall2 (serializes h) (values cs) vs →
  serializes h l (VObject (obj_set "children" (VArray vs) (spread (data t)))).
Proof.
  intros Hl Hc [fuel Hs]%serializes_fuel. exists (S fuel). simpl.
  rewrite Hl. simpl. rewrite Hc. apply mapM_Some in Hs. by rewrite Hs.
Qed.

(** [serialize] on a node reads the cells of the node's subtree only. *)
Lemma serialize_agree fuel (h h' : heap) lo hi l :
  tree_at h lo hi → lo ≤ l < hi →
  (∀ c, l ≤ c < hi → h' !! c = h !! c) →
  serialize fuel h' l = serialize fuel h l.
Proof.
  intros Htree. revert l. induction fuel as [|fuel IH]; intros l Hl Hag; [done|].
  simpl. rewrite Hag by lia. destruct (h !! l) as [t|] eqn:Ht; [|done]. simpl.
  destruct (children t) as [cs|] eqn:Hcs; [|done].
  rewrite (mapM_agree (serialize fuel h') (serialize fuel h)); [done|].
  intros c Hc. unfold values in Hc.
  apply list_elem_of_fmap in Hc as ([k c'] & -> & Hin). simpl.
  apply list_elem_of_lookup in Hin as [i Hi].
  destruct (tree_at_node _ _ _ _ _ Htree Hl Ht) as [_ _ Hch].
  destruct (Hch cs i k c' Hcs Hi) as (? & _).
  apply IH; [lia|]. intros x Hx. apply Hag. lia.
Qed.

Lemma serializes_agree (h h' : heap) lo hi l v :
  tree_at h lo hi → lo ≤ l < hi →
  (∀ c, l ≤ c < hi → h' !! c = h !! c) →
  serializes h l v → serializes h' l v.
Proof.
  intros Htree Hl Hag [fuel H]. exists fuel.
  by rewrite (serialize_agree fuel h h' lo hi).
Qed.

(** ** The constructor *)

Lemma value_ind' (P : value → Prop) :
  P VUndefined → P VNull → (∀ b, P (VBool b)) → (∀ n, P (VNumber n)) →
  (∀ s, P (VString s)) →
  (∀ xs, Forall P xs → P (VArray xs)) →
  (∀ fs, Forall (λ kv, P kv.2) fs → P (VObject fs)) →
  ∀ v, P v.
Proof.
  intros Hu Hn Hb Hz Hs Ha Ho. fix IH 1.
  intros [| |b|n|s|xs|fs];
    [exact Hu | exact Hn | apply Hb | apply Hz | apply Hs | apply Ha | apply Ho].
  - induction xs as [|x xs IHxs]; constructor; [apply IH | apply IHxs].
  - induction fs as [|[k x] fs IHfs]; constructor; [apply IH | apply IHfs].
Qed.

(** The constructor, with the property read [props.children] spelled with
    [obj_get]. *)
Lemma constructor_unfold props par (h : heap) :
  constructor props par h =
  k ← next_key h par;
  let this := length h in
  let h1 := h ++ [mkTree k None props par] in
  match props with
  | VUndefined | VNull => None
  | VObject fs =>
      match obj_get "children" fs with
      | None => Some (this, h1)
      | Some ch =>
          if truthy ch then
            match ch with
            | VArray cs =>
                h' ← forEach (add_child this) cs
                             (alter (with_children (Some [])) this h1);
                Some (this, h')
            | _ => None
            end
          else Some (this, h1)
      end
  | _ => Some (this, h1)
  end.
Proof.
  destruct props as [| |b|n|s|xs|fs]; try reflexivity.
  unfold constructor; fold constructor. unfold next_key.
  destruct (match par with Some p => getNextChildKey h p | None => Some "0" end)
    as [k|]; [|done]. simpl.
  set (d := VObject fs). clearbody d.
  induction fs as [|[k' ch] fs IH]; [done|]. simpl.
  destruct (String.eqb k' "children"); [|exact IH].
  destruct ch; reflexivity.
Qed.

(** ** Well-formed records *)

Lemma well_formedb_unfold fs :
  well_formedb (VObject fs)
  = match obj_get "children" fs with
    | None | Some VUndefined => true
    | Some (VArray cs) => forallb well_formedb cs
    | Some _ => false
    end.
Proof.
  simpl. induction fs as [|[k ch] fs IH]; [done|]. simpl.
  destruct (String.eqb k "children"); [|exact IH]. by destruct ch.
Qed.

Lemma well_formedb_spec X : well_formedb X = true ↔ well_formed X.
Proof.
  cut ((well_formedb X = true ↔ well_formed X) ∧
       match X with
       | VArray cs => Forall (λ c, well_formedb c = true ↔ well_formed c) cs
       | _ => True
       end).
  { by intros [? _]. }
  induction X as [| |b|n|s|xs IH|fs IH] using value_ind';
    (split; [|try done]); try (split; [done | by inversion 1]).
  { eapply Forall_impl; [exact IH|]. by intros x [? _]. }
  rewrite well_formedb_unfold.
  destruct (obj_get "children" fs) as [ch|] eqn:Hch.
  - assert (Hcs : ∀ cs, ch = VArray cs →
              Forall (λ c, well_formedb c = true ↔ well_formed c) cs).
    { intros cs ->. clear -IH Hch. induction fs as [|[k' v] fs IHfs]; [done|].
      apply Forall_cons in IH as [Hv IH]. simpl in Hch.
      destruct (String.eqb k' "children"); [|by apply IHfs].
      injection Hch as ->. simpl in Hv. by destruct Hv. }
    destruct ch as [| |b|n|s|cs|gs];
      try (split; [done | inversion 1; congruence]).
    + split; [intros _; by apply wf_undefined | done].
    + specialize (Hcs cs eq_refl). split.
      * intros Hb. eapply wf_children; [done|].
        rewrite forallb_forall in Hb. rewrite Forall_forall in Hcs.
        apply Forall_forall. intros c Hc. apply Hcs; [done|].
        by apply Hb, list_elem_of_In.
      * inversion 1 as [| |? cs' Hch' Hwf]; [congruence..|].
        simplify_eq. apply forallb_forall. rewrite Forall_forall in Hwf, Hcs.
        intros c Hc%list_elem_of_In. apply Hcs; [done|]. by apply Hwf.
  - split; [intros _; by apply wf_leaf | done].
Qed.

Lemma Forall2_impl_elem {A B} (R R' : A → B → Prop) l k :
  Forall2 R l k → (∀ x y, x ∈ l → R x y → R' x y) → Forall2 R' l k.
Proof.
  induction 1 as [|x y l k Hxy _ IH]; intros H; constructor.
  - apply H; [left | done].
  - apply IH. intros x' y' Hin. apply H. by right.
Qed.

Lemma tree_at_single (h : heap) t :
  canonical (key t) → default [] (children t) = [] →
  tree_at (h ++ [t]) (length h) (length (h ++ [t])).
Proof.
  intros Hk Hc. unfold tree_at. rewrite !length_app. simpl. split; [lia|].
  intros l t' Hl Ht'. assert (l = length h) as -> by lia.
  rewrite list_lookup_middle in Ht' by done. injection Ht' as <-.
  split; [done | lia |].
  intros cs i k c Hcs Hi. rewrite Hcs in Hc. simpl in Hc. by subst cs.
Qed.

(** One round of the constructor's loop. *)
Lemma add_child_spec h0 par k props child (h : heap) done :
  constructs child →
  building h0 par k props h done →
  match add_child (length h0) child h with
  | Some h' => building h0 par k props h' (done ++ [child])
  | None => ¬ well_formed child
  end.
Proof.
  intros IH ([ns Hns] & Htree & t & cs & Hroot & Hk & Hp & Hd & Hcs & Hser).
  pose proof (tree_at_bounds _ _ _ Htree) as Hb.
  assert (Hthis : length h0 ≤ length h0 < length h) by lia.
  pose proof (tree_at_node _ _ _ _ _ Htree Hthis Hroot) as Hok.
  pose proof (getNextChildKey_ok _ _ _ _ _ Hroot Hok) as Hnext.
  rewrite Hcs in Hnext. simpl in Hnext.
  specialize (IH (Some (length h0)) h _ Hnext
                 (canonical_child _ _ (ok_key _ _ _ _ _ Hok))).
  unfold add_child.
  destruct (constructor child (Some (length h0)) h) as [[l h']|]; [|exact IH].
  destruct IH as (-> & [ns' ->] & Htree' & (tc & Htc & Hkc & Hpc & Hdc) & Hserc).
  simpl. rewrite Htc. simpl. unfold children_put.
  rewrite (lookup_app_l_Some _ ns' _ _ Hroot). simpl. rewrite Hcs. simpl.
  rewrite obj_set_fresh
    by (rewrite Hkc; eapply children_keys_fresh; [exact Hok | done]).
  pose proof (tree_at_graft h (length h0) (length h0) t ns' tc) as Hgraft.
  cbv zeta in Hgraft. rewrite Hcs in Hgraft. simpl in Hgraft.
  specialize (Hgraft Htree Hthis Hroot Htree' Htc Hpc
                     ltac:(by rewrite Hkc)).
  set (t' := with_children (Some (cs ++ [(key tc, length h)])) t) in *.
  assert (Hne : ∀ x, x ≠ length h0 →
            <[length h0 := t']> (h ++ ns') !! x = (h ++ ns') !! x).
  { intros x Hx. by apply list_lookup_insert_ne. }
  split; [|split].
  - subst h. rewrite <- app_assoc. rewrite insert_app_r_alt by lia. eauto.
  - by rewrite length_insert.
  - exists t', (cs ++ [(key tc, length h)]).
    split. { apply list_lookup_insert_eq. rewrite length_app. lia. }
    do 4 (split; [done|]).
    unfold values. rewrite fmap_app. apply Forall2_app.
    + eapply Forall2_impl_elem; [exact Hser|]. intros c v Hc Hv.
      unfold values in Hc. apply list_elem_of_fmap in Hc as ([kc c'] & -> & Hin).
      apply list_elem_of_lookup in Hin as [i Hi].
      destruct (ok_children _ _ _ _ _ Hok cs i kc c' Hcs Hi) as (Hc' & _).
      simpl in *.
      eapply (serializes_agree h _ (length h0) (length h)); [done | lia | | done].
      intros x Hx. rewrite Hne by lia. apply lookup_app_l. lia.
    + constructor; [|constructor]. simpl.
      eapply (serializes_agree (h ++ ns') _ (length h) (length (h ++ ns')));
        [done | | | done].
      * pose proof (tree_at_bounds _ _ _ Htree'). lia.
      * intros x Hx. apply Hne. lia.
Qed.

(** The whole loop. *)
Lemma forEach_add_child_spec h0 par k props rest :
  Forall constructs rest →
  ∀ (h : heap) done,
    building h0 par k props h done →
    match forEach (add_child (length h0)) rest h with
    | Some h' => building h0 par k props h' (done ++ rest)
    | None => ¬ Forall well_formed rest
    end.
Proof.
  induction 1 as [|child rest Hchild _ IH]; intros h done Hb; simpl.
  - by rewrite app_nil_r.
  - pose proof (add_child_spec _ _ _ _ _ _ _ Hchild Hb) as Hstep.
    destruct (add_child (length h0) child h) as [h'|]; simpl.
    + specialize (IH h' _ Hstep).
      destruct (forEach (add_child (length h0)) rest h') as [h''|].
      * by rewrite <- app_assoc in IH.
      * intros Hwf. apply IH. by inversion Hwf.
    + intros Hwf. apply Hstep. by inversion Hwf.
Qed.

Lemma built_leaf (h : heap) par k props :
  canonical k →
  built h par k props (length h) (h ++ [mkTree k None props par]).
Proof.
  intros Hk. split; [done|]. split; [eauto|]. split.
  { by apply tree_at_single. }
  split.
  - eexists. rewrite list_lookup_middle by done. done.
  - eapply (serializes_leaf _ _ (mkTree k None props par)); [|done].
    by rewrite list_lookup_middle.
Qed.

Theorem constructor_spec props : constructs props.
Proof.
  cut (constructs props ∧
       match props with VArray cs => Forall constructs cs | _ => True end).
  { by intros [? _]. }
  induction props as [| |b|n|s|xs IH|fs IH] using value_ind';
    (split; [|try done]);
    try (intros par h k Hnext Hk; rewrite constructor_unfold, Hnext; simpl;
         first [by apply built_leaf | by inversion 1 | idtac]).
  { eapply Forall_impl; [exact IH|]. by intros x [? _]. }
  destruct (obj_get "children" fs) as [ch|] eqn:Hch; [|by apply built_leaf].
  destruct (truthy ch) eqn:Htruthy; [|by apply built_leaf].
  destruct ch as [| |b|n|s|cs|gs];
    try discriminate Htruthy;
    try (intros Hwf; inversion Hwf; congruence).
  (* the children of the record are parts of it *)
  assert (Hcs : Forall constructs cs).
  { clear -IH Hch. induction fs as [|[k' v] fs IHfs]; [done|].
    apply Forall_cons in IH as [Hv IH]. simpl in Hch.
    destruct (String.eqb k' "children"); [|by apply IHfs].
    injection Hch as ->. simpl in Hv. by destruct Hv. }
  set (t0 := mkTree k None (VObject fs) par).
  set (t1 := with_children (Some []) t0).
  assert (Hstart : alter (with_children (Some [])) (length h) (h ++ [t0])
                   = h ++ [t1]).
  { rewrite alter_app_r_alt by lia. by rewrite Nat.sub_diag. }
  rewrite Hstart.
  assert (Hb : building h par k (VObject fs) (h ++ [t1]) []).
  { split; [eauto|]. split; [by apply tree_at_single|].
    exists t1, []. rewrite list_lookup_middle by done. by repeat split. }
  pose proof (forEach_add_child_spec _ _ _ _ _ Hcs _ _ Hb) as Hloop.
  destruct (forEach (add_child (length h)) cs (h ++ [t1])) as [h'|]; simpl.
  - destruct Hloop as (Hns & Htree & t & kids & Ht & ? & ? & Hd & Hkids & Hser).
    split; [done|]. split; [done|]. split; [done|]. split; [by exists t|].
    pose proof (serializes_node _ _ _ _ _ Ht Hkids Hser) as Hs.
    rewrite Hd in Hs. simpl in Hs. by rewrite (obj_set_same _ _ _ Hch) in Hs.
  - intros Hwf. inversion Hwf; simplify_eq. done.
Qed.

(** ** Reachable stores *)

Lemma constructor_next_key props par (h : heap) l h' :
  constructor props par h = Some (l, h') → is_Some (next_key h par).
Proof.
  rewrite constructor_unfold. destruct (next_key h par); [eauto | done].
Qed.

Lemma getNextChildKey_node (h : heap) this k :
  getNextChildKey h this = Some k → is_Some (h !! this).
Proof. unfold getNextChildKey. destruct (h !! this); [eauto | done]. Qed.

(** What [new Tree(props, this)] builds under a node of a tree. *)
Lemma constructor_under (h : heap) lo this t props :
  tree_at h lo (length h) → lo ≤ this < length h → h !! this = Some t →
  match constructor props (Some this) h with
  | Some (l, h') =>
      built h (Some this)
            (child_key (key t) (length (default [] (children t)))) props l h'
  | None => ¬ well_formed props
  end.
Proof.
  intros Htree Hthis Ht.
  pose proof (tree_at_node _ _ _ _ _ Htree Hthis Ht) as Hok.
  apply constructor_spec.
  - simpl. by eapply getNextChildKey_ok.
  - apply canonical_child, (ok_key _ _ _ _ _ Hok).
Qed.

(** [appendChild] on a node of a tree: the new subtree is built at the end
    of the store and entered last into the node's children. *)
Lemma appendChild_spec (h : heap) lo this t d :
  tree_at h lo (length h) → lo ≤ this < length h → h !! this = Some t →
  let cs := default [] (children t) in
  match appendChild h this d with
  | Some (n, h') =>
      ∃ ns tc,
        n = length h ∧
        h' = <[this := with_children (Some (cs ++ [(key tc, n)])) t]> (h ++ ns) ∧
        (h ++ ns) !! n = Some tc ∧
        key tc = child_key (key t) (length cs) ∧
        parent tc = Some this ∧ data tc = d ∧
        tree_at (h ++ ns) n (length (h ++ ns)) ∧
        tree_at h' lo (length h')
  | None => ¬ well_formed d
  end.
Proof.
  intros Htree Hthis Ht cs.
  pose proof (constructor_under h lo this t d Htree Hthis Ht) as Hc.
  unfold appendChild.
  destruct (constructor d (Some this) h) as [[n h1]|]; [|exact Hc]. simpl.
  destruct Hc as (-> & [ns ->] & Htree' & (tc & Htc & Hkc & Hpc & Hdc) & _).
  rewrite Htc. simpl. rewrite (lookup_app_l_Some _ ns _ _ Ht). simpl.
  pose proof (tree_at_graft h lo this t ns tc Htree Hthis Ht Htree' Htc Hpc Hkc)
    as Hgraft.
  pose proof (tree_at_node _ _ _ _ _ Htree Hthis Ht) as Hok.
  destruct (children t) as [cs0|] eqn:Hcs; subst cs; simpl in *.
  - rewrite obj_set_fresh
      by (rewrite Hkc; eapply children_keys_fresh; [exact Hok | done]).
    exists ns, tc. rewrite length_insert. by split_and!.
  - exists ns, tc. rewrite length_insert. by split_and!.
Qed.

Lemma tree_inv_new X r (h : heap) :
  constructor X None [] = Some (r, h) → tree_inv h ∧ r = 0.
Proof.
  intros H. pose proof (constructor_spec X None [] "0" eq_refl canonical_root) as Hs.
  rewrite H in Hs. destruct Hs as (-> & _ & Htree & (t & Ht & ? & ? & _) & _).
  split; [|done]. split; [done|]. by exists t.
Qed.

Lemma appendChild_node (h : heap) this d n h' :
  appendChild h this d = Some (n, h') → is_Some (h !! this).
Proof.
  unfold appendChild. intros H.
  destruct (constructor d (Some this) h) as [[c h1]|] eqn:Hc; [|done].
  apply constructor_next_key in Hc as [k Hk]. by eapply getNextChildKey_node.
Qed.

Lemma tree_inv_append (h : heap) this d n h' :
  tree_inv h → appendChild h this d = Some (n, h') → tree_inv h'.
Proof.
  intros [Htree (r & Hr & Hrk & Hrp)] Happ.
  destruct (appendChild_node _ _ _ _ _ Happ) as [t Ht].
  assert (Hthis : 0 ≤ this < length h).
  { apply lookup_lt_Some in Ht. lia. }
  pose proof (appendChild_spec h 0 this t d Htree Hthis Ht) as Hs.
  cbv zeta in Hs. rewrite Happ in Hs.
  destruct Hs as (ns & tc & -> & -> & _ & _ & _ & _ & _ & Htree').
  split; [done|]. destruct (decide (this = 0)) as [->|Hne].
  - eexists. split.
    + apply list_lookup_insert_eq. rewrite length_app. lia.
    + rewrite Hr in Ht. injection Ht as <-. done.
  - exists r. rewrite list_lookup_insert_ne by done.
    split; [by apply lookup_app_l_Some | done].
Qed.

Theorem reachable_inv (h : heap) : reachable h → tree_inv h.
Proof.
  induction 1 as [X r h H|h this d n h' _ IH H].
  - by destruct (tree_inv_new _ _ _ H).
  - by eapply tree_inv_append.
Qed.

(** Once [serialize] returns on a node of a tree, it returns the same with
    any recursion budget that covers the cells after the node. *)
Lemma serialize_enough (h : heap) lo hi :
  tree_at h lo hi →
  ∀ fuel l v, lo ≤ l < hi → serializes h l v → hi - l ≤ fuel →
              serialize fuel h l = Some v.
Proof.
  intros Htree. induction fuel as [|fuel IH]; intros l v Hl [f0 Hs] Hfuel; [lia|].
  destruct f0 as [|f0]; [done|]. simpl in *.
  destruct (h !! l) as [t|] eqn:Ht; [|done]. simpl in *.
  destruct (children t) as [cs|] eqn:Hcs; [|done].
  destruct (mapM (serialize f0 h) (values cs)) as [ser|] eqn:Hser; [|done].
  simpl in Hs. injection Hs as <-. apply mapM_Some in Hser.
  assert (Hser' : mapM (serialize fuel h) (values cs) = Some ser).
  { apply mapM_Some. eapply Forall2_impl_elem; [exact Hser|].
    intros c x Hc Hx. simpl in Hx. unfold values in Hc.
    apply list_elem_of_fmap in Hc as ([k c'] & -> & Hin).
    apply list_elem_of_lookup in Hin as [i Hi].
    destruct (ok_children _ _ _ _ _ (tree_at_node _ _ _ _ _ Htree Hl Ht)
                          cs i k c' Hcs Hi) as (? & _).
    simpl. apply IH; [lia | by exists f0 | lia]. }
  by rewrite Hser'.
Qed.

Lemma scenario_wf : well_formed scenario.
Proof. by apply well_formedb_spec. Defined.

Lemma constructor_serialize X :
  well_formed X →
  ∃ r h, constructor X None [] = Some (r, h) ∧
         serialize (length h) h r = Some X.
Proof.
  intros Hwf.
  pose proof (constructor_spec X None [] "0" eq_refl canonical_root) as Hs.
  destruct (constructor X None []) as [[r h]|]; [|done].
  destruct Hs as (-> & _ & Htree & _ & Hser). exists 0, h. split; [done|].
  pose proof (tree_at_bounds _ _ _ Htree).
  eapply serialize_enough; [done | simpl in *; lia | done | simpl; lia].
Qed.

(** C1: for every well-formed nested record [X], building a tree from [X]
    and serializing it returns [X] itself: the same fields with the same
    values, the same nesting and the same order of children (equal records
    are structurally equal whatever order the fields are compared in).  In
    particular this holds for every record that has no [children] field. *)
Theorem serialize_constructor_roundtrip :
  (∀ X, well_formed X →
        ∃ r h, constructor X None [] = Some (r, h) ∧
               serialize (length h) h r = Some X) ∧
  (∀ fs, obj_get "children" fs = None →
         ∃ r h, constructor (VObject fs) None [] = Some (r, h) ∧
                serialize (length h) h r = Some (VObject fs)).
Proof.
  split; [exact constructor_serialize|].
  intros fs H. by apply constructor_serialize, wf_leaf.
Qed.

Lemma serialize_constructor_roundtrip_witness :
  (well_formed scenario ∧
   ∃ r h, constructor scenario None [] = Some (r, h) ∧
          serialize (length h) h r = Some scenario) ∧
  (obj_get "children" [("name", VString "a")] = None ∧
   ∃ r h, constructor (VObject [("name", VString "a")]) None [] = Some (r, h) ∧
          serialize (length h) h r = Some (VObject [("name", VString "a")])).
Proof.
  split.
  - exact (conj scenario_wf
                (proj1 serialize_constructor_roundtrip scenario scenario_wf)).
  - exact (conj eq_refl
                (proj2 serialize_constructor_roundtrip
                       [("name", VString "a")] eq_refl)).
Defined.

(** C10: the constructor and [serialize] of [src/unnamed/part_000] are the
    same functions as those of [src/Tree.ts]; building a tree from any
    record [X] and serializing it gives the same result with either. *)
Theorem part000_same_construction_and_serialization :
  (∀ X par h, Part000.constructor X par h = constructor X par h) ∧
  (∀ fuel h this, Part000.serialize fuel h this = serialize fuel h this) ∧
  (∀ X fuel,
     (Part000.constructor X None [] ≫= λ '(r, h), Part000.serialize fuel h r)
     = (constructor X None [] ≫= λ '(r, h), serialize fuel h r)).
Proof. repeat split. Qed.

(** ** Allocation *)

Lemma add_child_alloc this child (h h' : heap) :
  allocates child → this < length h →
  add_child this child h = Some h' →
  length h < length h' ∧
  (∀ x, x < length h → x ≠ this → h' !! x = h !! x) ∧
  (∀ t, h !! this = Some t →
        ∃ t', h' !! this = Some t' ∧ data t' = data t ∧ parent t' = parent t).
Proof.
  intros IH Hthis. unfold add_child.
  destruct (constructor child (Some this) h) as [[l h1]|] eqn:Hc; [|done]. simpl.
  destruct (IH _ _ _ _ Hc) as (-> & Hlen & Hold & _).
  destruct (h1 !! length h) as [c|]; [|done]. simpl. unfold children_put.
  destruct (h1 !! this) as [t1|] eqn:Ht1; [|done]. simpl.
  destruct (children t1) as [cs|]; [|done]. simpl. intros [= <-].
  rewrite length_insert. split; [done|]. split.
  - intros x Hx Hne. rewrite list_lookup_insert_ne by done. by apply Hold.
  - intros t Ht. rewrite Hold, Ht in Ht1 by done. injection Ht1 as <-.
    eexists. split; [apply list_lookup_insert_eq; lia | done].
Qed.

Lemma forEach_add_child_alloc this rest :
  Forall allocates rest →
  ∀ (h h' : heap), this < length h →
    forEach (add_child this) rest h = Some h' →
    length h ≤ length h' ∧
    (∀ x, x < length h → x ≠ this → h' !! x = h !! x) ∧
    (∀ t, h !! this = Some t →
          ∃ t', h' !! this = Some t' ∧ data t' = data t ∧ parent t' = parent t).
Proof.
  induction 1 as [|child rest Hchild _ IH]; intros h h' Hthis; simpl.
  - intros [= <-]. split; [done|]. split; [done|]. intros t Ht. by exists t.
  - destruct (add_child this child h) as [h1|] eqn:Hstep; [|done]. simpl.
    intros Hrest.
    destruct (add_child_alloc _ _ _ _ Hchild Hthis Hstep) as (Hlen & Hold & Hcell).
    assert (Hthis1 : this < length h1) by lia.
    destruct (IH h1 h' Hthis1 Hrest) as (Hlen' & Hold' & Hcell').
    split; [lia|]. split.
    + intros x Hx Hne. rewrite Hold' by (done || lia). by apply Hold.
    + intros t Ht. destruct (Hcell t Ht) as (t1 & Ht1 & Hd1 & Hp1).
      destruct (Hcell' t1 Ht1) as (t2 & ? & ? & ?). exists t2.
      split; [done|]. split; congruence.
Qed.

Lemma constructor_alloc props : allocates props.
Proof.
  cut (allocates props ∧
       match props with VArray cs => Forall allocates cs | _ => True end).
  { by intros [? _]. }
  assert (Hleaf : ∀ props par (h : heap) k l h',
            Some (length h, h ++ [mkTree k None props par]) = Some (l, h') →
            l = length h ∧ length h < length h' ∧
            (∀ x, x < length h → h' !! x = h !! x) ∧
            ∃ t, h' !! l = Some t ∧ data t = props ∧ parent t = par).
  { intros ?????? [= <- <-]. rewrite length_app. simpl.
    split; [done|]. split; [lia|]. split.
    - intros x Hx. by apply lookup_app_l.
    - eexists. by rewrite list_lookup_middle. }
  induction props as [| |b|n|s|xs IH|fs IH] using value_ind';
    (split; [|try done]);
    try (intros par h l h'; rewrite constructor_unfold;
         destruct (next_key h par) as [k|]; [|done]; simpl;
         first [done | by apply Hleaf | idtac]).
  { eapply Forall_impl; [exact IH|]. by intros x [? _]. }
  destruct (obj_get "children" fs) as [ch|] eqn:Hch; [|by apply Hleaf].
  destruct (truthy ch) eqn:Htruthy; [|by apply Hleaf].
  destruct ch as [| |b|n|s|cs|gs]; try done.
  assert (Hcs : Forall allocates cs).
  { clear -IH Hch. induction fs as [|[k' v] fs IHfs]; [done|].
    apply Forall_cons in IH as [Hv IH]. simpl in Hch.
    destruct (String.eqb k' "children"); [|by apply IHfs].
    injection Hch as ->. simpl in Hv. by destruct Hv. }
  set (t0 := mkTree k None (VObject fs) par).
  rewrite alter_app_r_alt by lia. rewrite Nat.sub_diag. simpl.
  set (t1 := with_children (Some []) t0).
  destruct (forEach (add_child (length h)) cs (h ++ [t1])) as [h2|] eqn:Hloop;
    [|done].
  simpl. intros [= <- <-].
  assert (Hthis : length h < length (h ++ [t1]))
    by (rewrite length_app; simpl; lia).
  destruct (forEach_add_child_alloc _ _ Hcs _ _ Hthis Hloop)
    as (Hlen & Hold & Hcell).
  rewrite length_app in Hlen. simpl in Hlen.
  split; [done|]. split; [lia|]. split.
  - intros x Hx. rewrite Hold by (rewrite ?length_app; simpl; lia).
    by apply lookup_app_l.
  - destruct (Hcell t1) as (t' & ? & ? & ?); [by rewrite list_lookup_middle|].
    by exists t'.
Qed.

Lemma scenario_reachable : reachable scenario_heap.
Proof. by apply (reach_new scenario 0). Defined.

Lemma appended_reachable : reachable appended_heap.
Proof.
  by apply (reach_append scenario_heap 1 record_with_children 4 appended_heap
              scenario_reachable).
Defined.

Lemma obj_get_snoc_fresh {A} k (v : A) o :
  k ∉ keys o → obj_get k (o ++ [(k, v)]) = Some v.
Proof.
  induction o as [|[k' v'] o IH]; intros Hk; simpl.
  - by rewrite String.eqb_refl.
  - destruct (String.eqb_spec k' k) as [->|Hne].
    + exfalso. apply Hk. unfold keys. simpl. left.
    + apply IH. intros Hin. apply Hk. unfold keys. simpl. by right.
Qed.

(** C6: [appendChild(d)] on a node of a reachable tree returns a new node
    [n]; afterwards the children of the node map the key of [n] to [n], the
    parent of [n] is the node, the children are the former children (none
    when there was no container) followed by [n], so [childrenList] is one
    entry longer, and the rest of the node and all other old nodes are as
    they were. *)
Theorem appendChild_registers_child (h : heap) this t d :
  reachable h → h !! this = Some t → well_formed d →
  ∃ n h' tn t',
    appendChild h this d = Some (n, h') ∧
    h' !! n = Some tn ∧ h' !! this = Some t' ∧
    children t' ≫= obj_get (key tn) = Some n ∧
    parent tn = Some this ∧
    children t' = Some (default [] (children t) ++ [(key tn, n)]) ∧
    (∃ cl, childrenList h this = Some cl ∧
           childrenList h' this = Some (cl ++ [n])) ∧
    key t' = key t ∧ data t' = data t ∧ parent t' = parent t ∧
    (∀ x, x < length h → x ≠ this → h' !! x = h !! x).
Proof.
  intros [Htree _]%reachable_inv Ht Hwf.
  assert (Hthis : 0 ≤ this < length h).
  { apply lookup_lt_Some in Ht. lia. }
  pose proof (appendChild_spec h 0 this t d Htree Hthis Ht) as Hs.
  cbv zeta in Hs. destruct (appendChild h this d) as [[n h']|]; [|done].
  destruct Hs as (ns & tn & -> & -> & Htn & Hkn & Hpn & _ & _ & _).
  set (cs := default [] (children t)) in *.
  set (t' := with_children (Some (cs ++ [(key tn, length h)])) t).
  assert (Ht' : <[this := t']> (h ++ ns) !! this = Some t').
  { apply list_lookup_insert_eq. rewrite length_app. lia. }
  assert (Hfresh : key tn ∉ keys cs).
  { rewrite Hkn. unfold cs. destruct (children t) as [cs0|] eqn:Hcs; simpl.
    - eapply children_keys_fresh; [|done].
      exact (tree_at_node _ _ _ _ _ Htree Hthis Ht).
    - unfold keys. simpl. apply not_elem_of_nil. }
  exists (length h), (<[this := t']> (h ++ ns)), tn, t'.
  split; [done|]. split; [by rewrite list_lookup_insert_ne by lia|].
  split; [done|]. split; [by apply obj_get_snoc_fresh|].
  split; [done|]. split; [done|]. split.
  - exists (values cs). unfold childrenList. rewrite Ht, Ht'. simpl. split.
    + unfold cs. by destruct (children t).
    + unfold values. by rewrite fmap_app.
  - do 3 (split; [done|]). intros x Hx Hne.
    rewrite list_lookup_insert_ne by done. by apply lookup_app_l.
Qed.

Lemma appendChild_registers_child_witness :
  reachable scenario_heap ∧ well_formed record_with_children ∧
  ∃ n h' tn t',
    appendChild scenario_heap 1 record_with_children = Some (n, h') ∧
    h' !! n = Some tn ∧ h' !! 1 = Some t' ∧
    children t' ≫= obj_get (key tn) = Some n ∧ parent tn = Some 1.
Proof.
  split; [exact scenario_reachable|].
  assert (Hwf : well_formed record_with_children)
    by by apply well_formedb_spec.
  split; [exact Hwf|].
  destruct (appendChild_registers_child scenario_heap 1
              (mkTree "0.0" None (VObject [("name", VString "a")]) (Some 0))
              record_with_children scenario_reachable eq_refl Hwf)
    as (n & h' & tn & t' & ? & ? & ? & ? & ? & _).
  by exists n, h', tn, t'.
Defined.

(** ** Keys are positions *)

Lemma split_dot_nonempty s : split_dot s ≠ [].
Proof.
  destruct s as [|c r]; simpl; [done|].
  destruct (Ascii.eqb c "."); [done|]. by destruct (split_dot r).
Qed.

Lemma split_dot_app a b :
  split_dot (a +:+ "." +:+ b) = split_dot a ++ split_dot b.
Proof.
  induction a as [|c a IH]; [done|].
  change (String c a +:+ "." +:+ b) with (String c (a +:+ "." +:+ b)). simpl.
  rewrite IH. destruct (Ascii.eqb c "."); [done|].
  pose proof (split_dot_nonempty a). by destruct (split_dot a).
Qed.

Lemma join_split s : join_dot (split_dot s) = s.
Proof.
  induction s as [|c r IH]; [done|]. simpl.
  pose proof (split_dot_nonempty r) as Hne.
  destruct (Ascii.eqb_spec c ".") as [->|_].
  - destruct (split_dot r) as [|w ws]; [done|]. unfold join_dot in *. simpl in *.
    by rewrite IH.
  - destruct (split_dot r) as [|w ws]; [done|]. unfold join_dot in *. simpl in *.
    rewrite <- IH. by destruct ws.
Qed.

Lemma child_key_segments k i :
  split_dot (child_key k i) = split_dot k ++ [toString (Int (Z.of_nat i))].
Proof.
  unfold child_key. rewrite split_dot_app.
  by rewrite (split_no_dot (toString _)) by apply toString_no_dot.
Qed.

Lemma child_key_inj2 k1 k2 i j :
  child_key k1 i = child_key k2 j → k1 = k2 ∧ i = j.
Proof.
  intros H. pose proof (f_equal split_dot H) as Hs.
  rewrite !child_key_segments in Hs. apply app_inj_tail in Hs as [Hk Hi].
  split.
  - by rewrite <- (join_split k1), Hk, join_split.
  - apply toString_inj in Hi. injection Hi. lia.
Qed.

Lemma has_dot_app a b : has_dot (a +:+ b) = has_dot a || has_dot b.
Proof.
  induction a as [|c a IH]; [done|].
  change (String c a +:+ b) with (String c (a +:+ b)). simpl.
  by rewrite IH, orb_assoc.
Qed.

Lemma child_key_has_dot k i : has_dot (child_key k i) = true.
Proof. unfold child_key. rewrite !has_dot_app. simpl. by rewrite orb_true_r. Qed.

(** Every node but the first of a tree is a child: it sits at some index of
    its parent's children, and its key is its parent's key and that index. *)
Lemma node_parent (h : heap) lo hi l t :
  tree_at h lo hi → lo < l < hi → h !! l = Some t →
  ∃ p tp cs i, parent t = Some p ∧ lo ≤ p < l ∧ h !! p = Some tp ∧
               children tp = Some cs ∧ cs !! i = Some (key t, l) ∧
               key t = child_key (key tp) i.
Proof.
  intros Htree Hl Ht.
  assert (Hl' : lo ≤ l < hi) by lia.
  destruct (ok_parent _ _ _ _ _ (tree_at_node _ _ _ _ _ Htree Hl' Ht))
    as (p & tp & cs & i & Hp & Hpl & Htp & Hcs & Hi); [lia|].
  assert (Hp' : lo ≤ p < hi) by lia.
  destruct (ok_children _ _ _ _ _ (tree_at_node _ _ _ _ _ Htree Hp' Htp)
                        cs i _ _ Hcs Hi) as (_ & Hk & _).
  by exists p, tp, cs, i.
Qed.

Section Keys.
Context (h : heap) (Hinv : tree_inv h).

(** The parent link of a node leads to an earlier node, which lists the
    node among its children. *)
Lemma registered x tx p :
  h !! x = Some tx → parent tx = Some p →
  p < x ∧ ∃ tp cs i, h !! p = Some tp ∧ children tp = Some cs ∧
                     cs !! i = Some (key tx, x) ∧
                     key tx = child_key (key tp) i.
Proof.
  destruct Hinv as [Htree (r & Hr & _ & Hrp)]. intros Hx Hp.
  pose proof (lookup_lt_Some _ _ _ Hx).
  assert (x ≠ 0) by (intros ->; congruence).
  destruct (node_parent h 0 (length h) x tx Htree ltac:(lia) Hx)
    as (p' & tp & cs & i & ? & ? & ? & ? & ? & ?).
  simplify_eq. split; [lia|]. by exists tp, cs, i.
Qed.

(** Only the root has no parent. *)
Lemma non_root l t : h !! l = Some t → l ≠ 0 → is_Some (parent t).
Proof.
  destruct Hinv as [Htree _]. intros Ht Hne.
  pose proof (lookup_lt_Some _ _ _ Ht).
  destruct (node_parent h 0 (length h) l t Htree ltac:(lia) Ht)
    as (p & _ & _ & _ & -> & _). by exists p.
Qed.

Lemma root_key l t : h !! l = Some t → key t = "0" → l = 0.
Proof.
  intros Ht Hk. destruct (decide (l = 0)) as [|Hne]; [done|].
  destruct (non_root l t Ht Hne) as [p Hp].
  destruct (registered l t p Ht Hp) as (_ & tp & _ & i & _ & _ & _ & Hkey).
  pose proof (child_key_has_dot (key tp) i) as Hdot.
  by rewrite <- Hkey, Hk in Hdot.
Qed.

Lemma keys_unique l1 :
  ∀ l2 t1 t2, h !! l1 = Some t1 → h !! l2 = Some t2 →
              key t1 = key t2 → l1 = l2.
Proof.
  destruct Hinv as [_ (r & Hr & Hrk & _)].
  induction l1 as [l1 IH] using lt_wf_ind.
  intros l2 t1 t2 H1 H2 Hk.
  destruct (decide (l1 = 0)) as [->|Hne1].
  { rewrite Hr in H1. injection H1 as <-. symmetry. eapply root_key; [done|].
    congruence. }
  destruct (decide (l2 = 0)) as [->|Hne2].
  { rewrite Hr in H2. injection H2 as <-. eapply root_key; [done|]. congruence. }
  destruct (non_root l1 t1 H1 Hne1) as [p1 Hp1].
  destruct (non_root l2 t2 H2 Hne2) as [p2 Hp2].
  destruct (registered l1 t1 p1 H1 Hp1)
    as (Hlt & tp1 & cs1 & i1 & Htp1 & Hcs1 & Hi1 & Hk1).
  destruct (registered l2 t2 p2 H2 Hp2)
    as (_ & tp2 & cs2 & i2 & Htp2 & Hcs2 & Hi2 & Hk2).
  rewrite Hk1, Hk2 in Hk. apply child_key_inj2 in Hk as [Hkp <-].
  assert (p1 = p2) as <- by (eapply IH; done).
  simplify_eq. done.
Qed.

End Keys.

(** C5: in every reachable tree the root has key ["0"] and no parent; every
    other node sits at some index [i] of the children of its parent, in
    insertion order, and its key is the key of the parent, a dot and [i]:
    exactly one more segment; and no two nodes have the same key. *)
Theorem keys_are_positional (h : heap) :
  reachable h →
  (∃ r, h !! 0 = Some r ∧ key r = "0" ∧ parent r = None) ∧
  (∀ l t, h !! l = Some t → l ≠ 0 →
     ∃ p tp cs i,
       parent t = Some p ∧ h !! p = Some tp ∧
       children tp = Some cs ∧ cs !! i = Some (key t, l) ∧
       key t = key tp +:+ "." +:+ toString (Int (Z.of_nat i)) ∧
       split_dot (key t)
       = split_dot (key tp) ++ [toString (Int (Z.of_nat i))]) ∧
  (∀ l1 l2 t1 t2, h !! l1 = Some t1 → h !! l2 = Some t2 →
                  key t1 = key t2 → l1 = l2).
Proof.
  intros Hinv%reachable_inv. split; [apply Hinv|]. split.
  - intros l t Ht Hne. destruct (non_root h Hinv l t Ht Hne) as [p Hp].
    destruct (registered h Hinv l t p Ht Hp)
      as (_ & tp & cs & i & ? & ? & ? & Hk).
    exists p, tp, cs, i. do 5 (split; [done|]).
    by rewrite Hk, child_key_segments.
  - by apply keys_unique.
Qed.

Lemma keys_are_positional_witness :
  reachable appended_heap ∧
  (∃ r, appended_heap !! 0 = Some r ∧ key r = "0" ∧ parent r = None) ∧
  (∀ l1 l2 t1 t2, appended_heap !! l1 = Some t1 → appended_heap !! l2 = Some t2 →
                  key t1 = key t2 → l1 = l2).
Proof.
  split; [exact appended_reachable|].
  destruct (keys_are_positional appended_heap appended_reachable)
    as (H1 & _ & H3).
  by split.
Defined.

(** ** Descendants *)

(** The loop of [descendants]: each child, followed by its descendants. *)
Lemma forEach_descendants (f : loc → option (list loc)) kids :
  ∀ acc r,
    forEach (λ child acc, ds ← f child; Some ((acc ++ [child]) ++ ds)) kids acc
    = Some r ↔
    ∃ dss, Forall2 (λ c dc, f c = Some dc) kids dss ∧
           r = acc ++ concat (zip_with cons kids dss).
Proof.
  induction kids as [|c kids IH]; intros acc r; simpl.
  - split.
    + intros [= <-]. exists []. split; [constructor | by rewrite app_nil_r].
    + intros (dss & Hdss & ->). inversion Hdss. simpl. by rewrite app_nil_r.
  - destruct (f c) as [dc|] eqn:Hc; simpl.
    + rewrite IH. split.
      * intros (dss & Hdss & ->). exists (dc :: dss). split; [by constructor|].
        simpl. by rewrite <- !app_assoc.
      * intros (dss & Hdss & ->). inversion Hdss as [|? dc' ? dss' Hdc]; subst.
        exists dss'. split; [done|]. rewrite Hc in Hdc. injection Hdc as <-.
        simpl. by rewrite <- !app_assoc.
    + split; [done|]. intros (dss & Hdss & _).
      inversion Hdss; subst; congruence.
Qed.

Lemma elem_of_concat_cons (kids : list loc) dss d :
  length kids = length dss →
  d ∈ concat (zip_with cons kids dss) ↔
  ∃ i c dc, kids !! i = Some c ∧ dss !! i = Some dc ∧ (d = c ∨ d ∈ dc).
Proof.
  revert dss. induction kids as [|c kids IH]; intros [|dc dss] Hlen;
    simpl in *; try lia.
  - split; [by intros ?%elem_of_nil | by intros (? & ? & ? & ? & _)].
  - rewrite elem_of_cons, elem_of_app, IH by lia. split.
    + intros [->|[Hd|(i & c' & dc' & ? & ? & ?)]].
      * exists 0, c, dc. eauto.
      * exists 0, c, dc. eauto.
      * exists (S i), c', dc'. eauto.
    + intros ([|i] & c' & dc' & Hc & Hdc & Hd); simpl in *.
      * injection Hc as <-. injection Hdc as <-. tauto.
      * right. right. by exists i, c', dc'.
Qed.

(** The descendants of a node are its children and their descendants. *)
Lemma descendants_unfold fuel (h : heap) l ds :
  descendants (S fuel) h l = Some ds ↔
  ∃ t, h !! l = Some t ∧
       match children t with
       | None => ds = []
       | Some cs =>
           ∃ dss, Forall2 (λ c dc, descendants fuel h c = Some dc)
                          (values cs) dss ∧
                  ds = concat (zip_with cons (values cs) dss)
       end.
Proof.
  simpl. destruct (h !! l) as [t|]; simpl;
    [|split; [done | by intros (? & ? & _)]].
  split.
  - intros H. exists t. split; [done|]. destruct (children t) as [cs|].
    + by apply forEach_descendants in H.
    + by injection H as <-.
  - intros (? & [= <-] & H). destruct (children t) as [cs|].
    + by apply forEach_descendants.
    + by subst.
Qed.

Lemma descendants_elem fuel (h : heap) l ds d :
  descendants (S fuel) h l = Some ds →
  d ∈ ds ↔
  ∃ t cs i k c dc, h !! l = Some t ∧ children t = Some cs ∧
                   cs !! i = Some (k, c) ∧ descendants fuel h c = Some dc ∧
                   (d = c ∨ d ∈ dc).
Proof.
  intros (t & Ht & H)%descendants_unfold.
  destruct (children t) as [cs|] eqn:Hcs.
  - destruct H as (dss & Hdss & ->).
    rewrite elem_of_concat_cons by by eapply Forall2_length. split.
    + intros (i & c & dc & Hc & Hdc & Hd). unfold values in Hc.
      rewrite list_lookup_fmap in Hc.
      destruct (cs !! i) as [[k c']|] eqn:Hi; [|done]. injection Hc as <-.
      exists t, cs, i, k, c', dc. split_and!; try done.
      assert (Hv : values cs !! i = Some c')
        by (unfold values; by rewrite list_lookup_fmap, Hi).
      exact (Forall2_lookup_lr _ _ _ _ _ _ Hdss Hv Hdc).
    + intros (t' & cs' & i & k & c & dc & Ht' & Hcs' & Hi & Hdc & Hd).
      simplify_eq. exists i, c, dc. split_and!; try done.
      * unfold values. by rewrite list_lookup_fmap, Hi.
      * eapply Forall2_lookup_l in Hdss as (dc' & Hdc' & Hc');
          [|by unfold values; rewrite list_lookup_fmap, Hi].
        simpl in Hc'. congruence.
  - subst ds. split; [by intros ?%elem_of_nil|].
    intros (t' & cs' & _ & _ & _ & _ & ? & ? & _). congruence.
Qed.

Lemma descendants_total (h : heap) lo hi :
  tree_at h lo hi →
  ∀ fuel l, lo ≤ l < hi → hi - l ≤ fuel → is_Some (descendants fuel h l).
Proof.
  intros Htree. induction fuel as [|fuel IH]; intros l Hl Hfuel; [lia|].
  destruct (lookup_lt_is_Some_2 h l) as [t Ht].
  { pose proof (tree_at_bounds _ _ _ Htree). lia. }
  destruct (children t) as [cs|] eqn:Hcs.
  - assert (Hall : Forall (λ c, is_Some (descendants fuel h c)) (values cs)).
    { apply Forall_forall. intros c Hc. unfold values in Hc.
      apply list_elem_of_fmap in Hc as ([k c'] & -> & Hin).
      apply list_elem_of_lookup in Hin as [i Hi].
      destruct (ok_children _ _ _ _ _ (tree_at_node _ _ _ _ _ Htree Hl Ht)
                            cs i k c' Hcs Hi) as (? & _).
      apply IH; simpl; lia. }
    assert (∃ dss, Forall2 (λ c dc, descendants fuel h c = Some dc)
                           (values cs) dss) as [dss Hdss].
    { clear -Hall. induction Hall as [|c kids [dc Hc] _ [dss IH]].
      - exists []. constructor.
      - exists (dc :: dss). by constructor. }
    eexists. apply descendants_unfold. exists t. split; [done|].
    rewrite Hcs. by exists dss.
  - exists []. apply descendants_unfold. exists t. by rewrite Hcs.
Qed.

Lemma descends_up (h : heap) a c tc d :
  h !! c = Some tc → parent tc = Some a → descends h c d → descends h a d.
Proof.
  intros Hc Hp. induction 1 as [d t Hd Hpd|d t p Hd Hpd _ IH].
  - eapply descends_step; [done..|]. by eapply descends_child.
  - by eapply descends_step.
Qed.

(** A listed descendant brings its own children along. *)
Lemma descendants_closed (h : heap) p tp cs i k d :
  h !! p = Some tp → children tp = Some cs → cs !! i = Some (k, d) →
  ∀ fuel l ds, descendants fuel h l = Some ds → p ∈ ds → d ∈ ds.
Proof.
  intros Hp Hcs Hi. induction fuel as [|fuel IH]; intros l ds Hds Hin; [done|].
  pose proof Hds as Hds'.
  apply (descendants_elem _ _ _ _ p) in Hds as [Hds _].
  destruct (Hds Hin) as (t & cs' & j & k' & c & dc & ? & ? & ? & Hdc & Hpc).
  apply (descendants_elem _ _ _ _ d Hds').
  exists t, cs', j, k', c, dc. split_and!; try done. right.
  destruct Hpc as [->|Hpc]; [|by eapply IH].
  destruct fuel as [|fuel]; [done|].
  apply (descendants_elem _ _ _ _ d Hdc).
  apply descendants_unfold in Hdc as (tp' & Htp' & Hdc). simplify_eq.
  rewrite Hcs in Hdc. destruct Hdc as (dss & Hdss & _).
  assert (Hv : values cs !! i = Some d)
    by (unfold values; by rewrite list_lookup_fmap, Hi).
  destruct (Forall2_lookup_l _ _ _ _ _ Hdss Hv) as (dd & _ & Hdd).
  exists tp, cs, i, k, d, dd. split_and!; try done. by left.
Qed.

Section Descendants.
Context (h : heap) (Hinv : tree_inv h).

(** The list [descendants] returns holds exactly the strict descendants. *)
Lemma descendants_descends fuel l ds :
  descendants fuel h l = Some ds → ∀ d, d ∈ ds ↔ descends h l d.
Proof.
  intros Hds d. split.
  - revert l ds Hds d. induction fuel as [|fuel IH]; intros l ds Hds d Hd; [done|].
    apply (descendants_elem _ _ _ _ d Hds) in Hd
      as (t & cs & i & k & c & dc & Ht & Hcs & Hi & Hdc & Hd).
    pose proof (lookup_lt_Some _ _ _ Ht).
    destruct (ok_children _ _ _ _ _
                (tree_at_node h 0 (length h) l t (proj1 Hinv) ltac:(lia) Ht)
                cs i k c Hcs Hi) as (_ & _ & tc & Htc & _ & Hpc).
    destruct Hd as [->|Hd]; [by eapply descends_child|].
    eapply descends_up; [done..|]. by eapply IH.
  - induction 1 as [d t Hd Hp|d t p Hd Hp _ IH].
    + destruct (registered h Hinv _ _ _ Hd Hp) as (_ & tl & cs & i & Hl & Hcs & Hi & _).
      destruct fuel as [|fuel]; [done|].
      apply (descendants_elem _ _ _ _ d Hds).
      pose proof Hds as (tl' & Htl' & Hdss)%descendants_unfold. simplify_eq.
      rewrite Hcs in Hdss. destruct Hdss as (dss & Hdss & _).
      assert (Hv : values cs !! i = Some d)
        by (unfold values; by rewrite list_lookup_fmap, Hi).
      destruct (Forall2_lookup_l _ _ _ _ _ Hdss Hv) as (dd & _ & Hdd).
      exists tl, cs, i, (key t), d, dd. split_and!; try done. by left.
    + destruct (registered h Hinv _ _ _ Hd Hp) as (_ & tp & cs & i & Htp & Hcs & Hi & _).
      by eapply descendants_closed.
Qed.

(** All descendants come later in the store than the node. *)
Lemma descends_later l d : descends h l d → l < d.
Proof.
  induction 1 as [d t Hd Hp|d t p Hd Hp _ IH].
  - by destruct (registered h Hinv _ _ _ Hd Hp).
  - destruct (registered h Hinv _ _ _ Hd Hp). lia.
Qed.

End Descendants.

Lemma find_key_is (h : heap) k ds :
  (∀ l1 l2 t1 t2, h !! l1 = Some t1 → h !! l2 = Some t2 →
                  key t1 = key t2 → l1 = l2) →
  ∀ d td, d ∈ ds → h !! d = Some td → key td = k →
          find (key_is h k) ds = Some d.
Proof.
  intros Huniq d td Hin Hd Hk.
  destruct (find (key_is h k) ds) as [x|] eqn:Hfind.
  - apply find_some in Hfind as [_ Hx]. unfold key_is in Hx.
    destruct (h !! x) as [tx|] eqn:Htx; [|done].
    apply String.eqb_eq in Hx. f_equal. eapply Huniq; [done..|congruence].
  - eapply find_none in Hfind; [|by apply list_elem_of_In].
    unfold key_is in Hfind. rewrite Hd, Hk, String.eqb_refl in Hfind. done.
Qed.

Lemma find_key_is_none (h : heap) k ds :
  (∀ d td, d ∈ ds → h !! d = Some td → key td ≠ k) →
  find (key_is h k) ds = None.
Proof.
  intros Hno. destruct (find (key_is h k) ds) as [x|] eqn:Hfind; [|done].
  apply find_some in Hfind as [Hin Hx]. unfold key_is in Hx.
  destruct (h !! x) as [tx|] eqn:Htx; [|done]. apply String.eqb_eq in Hx.
  apply list_elem_of_In in Hin. by destruct (Hno x tx Hin Htx).
Qed.

(** X18: [get] of [src/Tree.ts]: the node itself for its own key, each strict
    descendant for that descendant's key, and nothing for a key that no
    node of the subtree carries. *)
Theorem get_spec (h : heap) fuel l t :
  reachable h → h !! l = Some t → length h ≤ fuel →
  get fuel h l (key t) = Some (Some l) ∧
  (∀ d td, descends h l d → h !! d = Some td →
           get fuel h l (key td) = Some (Some d)) ∧
  (∀ k, k ≠ key t →
        (∀ d td, descends h l d → h !! d = Some td → key td ≠ k) →
        get fuel h l k = Some None).
Proof.
  intros Hinv%reachable_inv Ht Hfuel.
  pose proof (keys_unique h Hinv) as Huniq.
  pose proof (lookup_lt_Some _ _ _ Ht).
  destruct (descendants_total h 0 (length h) (proj1 Hinv) fuel l) as [ds Hds];
    [lia | lia |].
  pose proof (descendants_descends h Hinv fuel l ds Hds) as Hin.
  unfold get. rewrite Ht, Hds. simpl. split_and!.
  - by rewrite String.eqb_refl.
  - intros d td Hd Htd. destruct (String.eqb_spec (key t) (key td)) as [Hk|Hk].
    + do 2 f_equal. by eapply Huniq.
    + do 2 f_equal. eapply find_key_is; [done | by apply Hin | done..].
  - intros k Hk Hno. destruct (String.eqb_spec (key t) k) as [|_]; [done|].
    do 2 f_equal. apply find_key_is_none. intros d td Hd. apply Hno.
    by apply Hin.
Qed.

(** [get] of [src/unnamed/part_000] never finds the receiver itself. *)
Theorem part000_get_misses_self (h : heap) fuel l t :
  reachable h → h !! l = Some t → length h ≤ fuel →
  Part000.get fuel h l (key t) = Some None.
Proof.
  intros Hinv%reachable_inv Ht Hfuel.
  pose proof (keys_unique h Hinv) as Huniq.
  pose proof (lookup_lt_Some _ _ _ Ht).
  destruct (descendants_total h 0 (length h) (proj1 Hinv) fuel l) as [ds Hds];
    [lia | lia |].
  pose proof (descendants_descends h Hinv fuel l ds Hds) as Hin.
  unfold Part000.get.
  change (Part000.descendants fuel h l) with (descendants fuel h l).
  rewrite Hds. simpl. f_equal. apply find_key_is_none.
  intros d td Hd Htd Hk. apply Hin in Hd. apply (descends_later h Hinv l d) in Hd.
  assert (d = l) by (eapply Huniq; done). lia.
Qed.

(** C3 fails on [src/unnamed/part_000]: on the root of the scenario tree
    its [get("0")] finds nothing, where [get] of [src/Tree.ts] returns the
    root. *)
Theorem part000_get_root_absent :
  Part000.get 4 scenario_heap 0 "0" = Some None ∧
  get 4 scenario_heap 0 "0" = Some (Some 0).
Proof. by vm_compute. Qed.

(** ** Lookups *)

Lemma filter_first {A} (f : A → bool) l :
  match List.filter f l with r :: _ => Some r | [] => None end = find f l.
Proof. induction l as [|x l IH]; [done|]. simpl. by destruct (f x). Qed.

(** ** Paths *)

Lemma path_to_last (h : heap) l c : path_to h l c → last c = Some l.
Proof. intros [???|?????]; [done | by rewrite last_snoc]. Qed.

Lemma path_to_valid (h : heap) l c :
  path_to h l c → Forall (λ a, is_Some (h !! a)) c.
Proof.
  induction 1 as [l t Ht _|l t p c Ht _ _ IH].
  - by repeat constructor.
  - apply Forall_app. split; [done|]. by repeat constructor.
Qed.

(** The loop of [ancestors] walks the chain to the root backwards. *)
Lemma ancestors_loop_spec (h : heap) l c :
  path_to h l c →
  ∀ fuel acc, length c ≤ fuel →
    ancestors_loop fuel h l acc = Some (acc ++ rev (removelast c)).
Proof.
  induction 1 as [l t Ht Hp|l t p c Ht Hp Hc IH]; intros fuel acc Hfuel.
  - destruct fuel as [|fuel]; [simpl in Hfuel; lia|]. simpl.
    rewrite Ht. simpl. rewrite Hp. by rewrite app_nil_r.
  - rewrite length_app in Hfuel. simpl in Hfuel.
    destruct fuel as [|fuel]; [lia|]. simpl. rewrite Ht. simpl. rewrite Hp.
    rewrite IH by lia. rewrite removelast_last.
    apply path_to_last in Hc. apply last_Some in Hc as [c' ->].
    rewrite removelast_last, rev_unit. by rewrite <- app_assoc.
Qed.

(** In a tree every node has a chain, and the chain starts at the root. *)
Lemma path_to_exists (h : heap) :
  tree_inv h →
  ∀ l, l < length h → ∃ c, path_to h l c ∧ head c = Some 0 ∧ length c ≤ S l.
Proof.
  intros Hinv l. induction l as [l IH] using lt_wf_ind. intros Hl.
  destruct (lookup_lt_is_Some_2 h l Hl) as [t Ht].
  destruct (decide (l = 0)) as [->|Hne].
  - destruct Hinv as [_ (r & Hr & _ & Hrp)]. simplify_eq.
    exists [0]. split; [by eapply path_root | by split].
  - destruct (non_root h Hinv l t Ht Hne) as [p Hp].
    destruct (registered h Hinv l t p Ht Hp) as (Hpl & _).
    destruct (IH p Hpl ltac:(lia)) as (c & Hc & Hhead & Hlen).
    exists (c ++ [l]). split; [by eapply path_step|]. split.
    + by destruct c.
    + rewrite length_app. simpl. lia.
Qed.

(** ** Parent chains: [isRoot], [depth], [rootNode], [ancestors] *)

Lemma path_to_unsnoc (h : heap) l c :
  path_to h l c → ∃ c', c = c' ++ [l].
Proof. intros Hc%path_to_last. by apply last_Some in Hc. Qed.

Lemma path_to_inv (h : heap) l c t :
  path_to h l c → h !! l = Some t →
  match parent t with
  | None => c = [l]
  | Some p => ∃ cp, c = cp ++ [l] ∧ path_to h p cp
  end.
Proof.
  intros [l' t' Ht' Hp|l' t' p cp Ht' Hp Hcp] Ht; simplify_eq; rewrite Hp; eauto.
Qed.

Lemma depth_loop_spec (h : heap) l c :
  path_to h l c →
  ∀ fuel n, length c ≤ fuel →
    depth_loop fuel h l n = Some (n + length (removelast c)).
Proof.
  induction 1 as [l t Ht Hp|l t p c Ht Hp Hc IH]; intros fuel n Hfuel.
  - destruct fuel as [|fuel]; [simpl in Hfuel; lia|]. simpl.
    rewrite Ht. simpl. rewrite Hp. f_equal. lia.
  - rewrite length_app in Hfuel. simpl in Hfuel.
    destruct fuel as [|fuel]; [lia|]. simpl. rewrite Ht. simpl. rewrite Hp.
    rewrite IH by lia. rewrite removelast_last.
    destruct (path_to_unsnoc _ _ _ Hc) as [c' ->].
    rewrite removelast_last, length_app. simpl. f_equal. lia.
Qed.

Lemma rootNode_spec (h : heap) l c :
  path_to h l c → ∀ fuel, length c ≤ fuel → rootNode fuel h l = head c.
Proof.
  induction 1 as [l t Ht Hp|l t p c Ht Hp Hc IH]; intros fuel Hfuel.
  - destruct fuel as [|fuel]; [simpl in Hfuel; lia|]. simpl.
    rewrite Ht. simpl. by rewrite Hp.
  - rewrite length_app in Hfuel. simpl in Hfuel.
    destruct fuel as [|fuel]; [lia|]. simpl. rewrite Ht. simpl. rewrite Hp.
    rewrite IH by lia. destruct (path_to_unsnoc _ _ _ Hc) as [c' ->].
    by destruct c'.
Qed.

Lemma descends_parent (h : heap) a l t :
  h !! l = Some t →
  descends h a l ↔ ∃ p, parent t = Some p ∧ (a = p ∨ descends h a p).
Proof.
  intros Ht. split.
  - inversion 1 as [l' t' Ht' Hp|l' t' p Ht' Hp Hd]; simplify_eq; eauto.
  - intros (p & Hp & [->|Hd]).
    + by eapply descends_child.
    + by eapply descends_step.
Qed.

(** The chain of a node without the node: its strict ancestors. *)
Lemma path_to_ancestors (h : heap) l c :
  path_to h l c → ∀ a, a ∈ removelast c ↔ descends h a l.
Proof.
  induction 1 as [l t Ht Hp|l t p c Ht Hp Hc IH]; intros a.
  - simpl. rewrite (descends_parent _ _ _ _ Ht), Hp. split.
    + by intros ?%elem_of_nil.
    + by intros (? & ? & _).
  - rewrite removelast_last, (descends_parent _ _ _ _ Ht), Hp.
    destruct (path_to_unsnoc _ _ _ Hc) as [c' ->].
    rewrite removelast_last in IH. rewrite elem_of_app, IH, list_elem_of_singleton.
    split.
    + intros [Hd| ->]; exists p; eauto.
    + intros (p' & [= <-] & [->|Hd]); eauto.
Qed.

(** The segments of a key are as many as the nodes of the chain. *)
Lemma path_to_segments (h : heap) l c t :
  tree_inv h → path_to h l c → h !! l = Some t →
  length (split_dot (key t)) = length c.
Proof.
  intros Hinv Hc. revert t.
  induction Hc as [l t' Ht' Hp|l t' p c Ht' Hp Hc IH]; intros t Ht;
    rewrite Ht' in Ht; injection Ht as <-.
  - destruct (decide (l = 0)) as [->|Hne].
    + destruct Hinv as [_ (r & Hr & Hrk & _)]. simplify_eq. by rewrite Hrk.
    + destruct (non_root h Hinv l t' Ht' Hne). congruence.
  - destruct (registered h Hinv l t' p Ht' Hp)
      as (_ & tp & cs & i & Htp & _ & _ & Hk).
    rewrite Hk, child_key_segments, !length_app, (IH tp Htp). done.
Qed.

(** Every node of a tree has a chain of nodes from the root down to it. *)
Lemma chain_exists (h : heap) (Hreach : reachable h)
  fuel (Hfuel : length h ≤ fuel) l t (Ht : h !! l = Some t) :
  ∃ c, path_to h l (c ++ [l]) ∧ length (c ++ [l]) ≤ fuel ∧
       head (c ++ [l]) = Some 0.
Proof.
  pose proof (reachable_inv h Hreach) as Hinv.
  pose proof (lookup_lt_Some _ _ _ Ht) as Hl.
  destruct (path_to_exists h Hinv l Hl) as (c & Hc & Hhead & Hlen).
  destruct (path_to_unsnoc _ _ _ Hc) as [c' ->].
  exists c'. split; [done|]. split; [lia | done].
Qed.

(** X1: in a tree built by the constructor and [appendChild], [isRoot] is
    true on the root object and false on every other node. *)
Theorem isRoot_only_root (h : heap) l t :
  reachable h → h !! l = Some t →
  isRoot h l = Some (bool_decide (l = 0)).
Proof.
  intros Hinv%reachable_inv Ht.
  unfold isRoot. rewrite Ht. simpl. f_equal.
  destruct (decide (l = 0)) as [->|Hne].
  - destruct Hinv as [_ (r & Hr & _ & Hrp)]. simplify_eq. by rewrite Hrp.
  - destruct (non_root h Hinv l t Ht Hne) as [p ->].
    by rewrite bool_decide_eq_false_2.
Qed.

Lemma isRoot_only_root_witness :
  (reachable scenario_heap ∧ scenario_heap !! 2 = Some scenario_b) ∧
  isRoot scenario_heap 2 = Some (bool_decide (2 = 0)).
Proof.
  split; [split; [exact scenario_reachable | reflexivity]|].
  exact (isRoot_only_root scenario_heap 2 scenario_b scenario_reachable eq_refl).
Defined.

(** X2: [depth] returns on every node of a tree: [0] on the root, and on
    any other node one more than on its parent. *)
Theorem depth_of_parent (h : heap) fuel l t :
  reachable h → h !! l = Some t → length h ≤ fuel →
  ∃ n, depth fuel h l = Some n ∧
       match parent t with
       | None => n = 0
       | Some p => ∃ m, depth fuel h p = Some m ∧ n = S m
       end.
Proof.
  intros Hreach Ht Hfuel. pose proof (reachable_inv h Hreach) as Hinv.
  destruct (chain_exists h Hreach fuel Hfuel l t Ht) as (c & Hc & Hlen & _).
  unfold depth. rewrite (depth_loop_spec _ _ _ Hc) by done.
  rewrite removelast_last. eexists. split; [done|].
  pose proof (path_to_inv _ _ _ _ Hc Ht) as Hinv'.
  destruct (parent t) as [p|].
  - destruct Hinv' as (cp & [-> _]%app_inj_tail & Hcp).
    destruct (path_to_unsnoc _ _ _ Hcp) as [c' ->].
    exists (length c'). rewrite (depth_loop_spec _ _ _ Hcp)
      by (rewrite !length_app in Hlen; rewrite ?length_app; simpl in *; lia).
    rewrite removelast_last, length_app. simpl. split; [done | lia].
  - apply (f_equal length) in Hinv'. rewrite length_app in Hinv'.
    simpl in *. lia.
Qed.

Lemma depth_of_parent_witness :
  reachable scenario_heap ∧
  ∃ n, depth 4 scenario_heap 2 = Some n ∧
       match parent scenario_b with
       | None => n = 0
       | Some p => ∃ m, depth 4 scenario_heap p = Some m ∧ n = S m
       end.
Proof.
  split; [exact scenario_reachable|].
  apply (depth_of_parent scenario_heap 4 2 scenario_b scenario_reachable eq_refl).
  vm_compute. lia.
Defined.

(** X3: the depth of a node is the number of its ancestors, and its key
    has one dot-separated segment more than that. *)
Theorem depth_counts_ancestors_and_segments (h : heap) fuel l t :
  reachable h → h !! l = Some t → length h ≤ fuel →
  ∃ n anc, depth fuel h l = Some n ∧ ancestors fuel h l = Some anc ∧
           length anc = n ∧ length (split_dot (key t)) = S n.
Proof.
  intros Hreach Ht Hfuel. pose proof (reachable_inv h Hreach) as Hinv.
  destruct (chain_exists h Hreach fuel Hfuel l t Ht) as (c & Hc & Hlen & _).
  exists (length c), (rev c). unfold depth, ancestors.
  rewrite (depth_loop_spec _ _ _ Hc), (ancestors_loop_spec _ _ _ Hc) by done.
  rewrite removelast_last. split_and!; try done.
  - by rewrite length_rev.
  - rewrite (path_to_segments h l _ t Hinv Hc Ht), length_app. simpl. lia.
Qed.

Lemma depth_counts_ancestors_and_segments_witness :
  reachable scenario_heap ∧
  ∃ n anc, depth 4 scenario_heap 2 = Some n ∧
           ancestors 4 scenario_heap 2 = Some anc ∧
           length anc = n ∧ length (split_dot (key scenario_b)) = S n.
Proof.
  split; [exact scenario_reachable|].
  apply (depth_counts_ancestors_and_segments scenario_heap 4 2 scenario_b
           scenario_reachable eq_refl).
  vm_compute. lia.
Defined.

(** X4: [rootNode] returns, on every node, the root object of the tree:
    the last of the node's ancestors, or the node itself when it has none;
    and [isRoot] is true on it. *)
Theorem rootNode_is_root (h : heap) fuel l t :
  reachable h → h !! l = Some t → length h ≤ fuel →
  ∃ anc, ancestors fuel h l = Some anc ∧
         rootNode fuel h l = Some 0 ∧
         rootNode fuel h l = Some (default l (last anc)) ∧
         isRoot h 0 = Some true.
Proof.
  intros Hreach Ht Hfuel. pose proof (reachable_inv h Hreach) as Hinv.
  destruct (chain_exists h Hreach fuel Hfuel l t Ht) as (c & Hc & Hlen & Hhead).
  exists (rev c). unfold ancestors.
  rewrite (ancestors_loop_spec _ _ _ Hc), (rootNode_spec _ _ _ Hc) by done.
  rewrite removelast_last. split_and!; try done.
  - rewrite Hhead. f_equal. destruct c as [|r c]; simpl in *.
    + by simplify_eq.
    + rewrite last_snoc. simpl. by simplify_eq.
  - destruct Hinv as [_ (r & Hr & _ & Hrp)]. unfold isRoot.
    rewrite Hr. simpl. by rewrite Hrp.
Qed.

Lemma rootNode_is_root_witness :
  reachable scenario_heap ∧
  ∃ anc, ancestors 4 scenario_heap 2 = Some anc ∧
         rootNode 4 scenario_heap 2 = Some 0 ∧
         rootNode 4 scenario_heap 2 = Some (default 2 (last anc)) ∧
         isRoot scenario_heap 0 = Some true.
Proof.
  split; [exact scenario_reachable|].
  apply (rootNode_is_root scenario_heap 4 2 scenario_b scenario_reachable
           eq_refl).
  vm_compute. lia.
Defined.

(** X5: [ancestors] returns exactly the nodes the receiver descends from,
    nearest first: nothing on the root, and on any other node its parent
    followed by the parent's ancestors. *)
Theorem ancestors_nearest_first (h : heap) fuel l t :
  reachable h → h !! l = Some t → length h ≤ fuel →
  ∃ anc, ancestors fuel h l = Some anc ∧
         (∀ a, a ∈ anc ↔ descends h a l) ∧
         match parent t with
         | None => anc = []
         | Some p => ∃ ancp, ancestors fuel h p = Some ancp ∧ anc = p :: ancp
         end.
Proof.
  intros Hreach Ht Hfuel. pose proof (reachable_inv h Hreach) as Hinv.
  destruct (chain_exists h Hreach fuel Hfuel l t Ht) as (c & Hc & Hlen & _).
  exists (rev c). unfold ancestors.
  rewrite (ancestors_loop_spec _ _ _ Hc) by done.
  rewrite removelast_last. split_and!; try done.
  - intros a. rewrite <- (path_to_ancestors _ _ _ Hc a), removelast_last.
    rewrite !list_elem_of_In. symmetry. apply in_rev.
  - pose proof (path_to_inv _ _ _ _ Hc Ht) as Hinv'.
    destruct (parent t) as [p|].
    + destruct Hinv' as (cp & [-> _]%app_inj_tail & Hcp).
      destruct (path_to_unsnoc _ _ _ Hcp) as [c' ->].
      exists (rev c'). rewrite (ancestors_loop_spec _ _ _ Hcp)
        by (rewrite !length_app in Hlen; rewrite ?length_app; simpl in *; lia).
      by rewrite removelast_last, rev_unit.
    + apply (f_equal length) in Hinv'. rewrite length_app in Hinv'.
      destruct c; [done | simpl in Hinv'; lia].
Qed.

Lemma ancestors_nearest_first_witness :
  reachable scenario_heap ∧
  ∃ anc, ancestors 4 scenario_heap 2 = Some anc ∧
         (∀ a, a ∈ anc ↔ descends scenario_heap a 2) ∧
         match parent scenario_b with
         | None => anc = []
         | Some p =>
             ∃ ancp, ancestors 4 scenario_heap p = Some ancp ∧ anc = p :: ancp
         end.
Proof.
  split; [exact scenario_reachable|].
  apply (ancestors_nearest_first scenario_heap 4 2 scenario_b
           scenario_reachable eq_refl).
  vm_compute. lia.
Defined.

(** ** Subtrees: [descendants], [traverse], [siblings] *)

Lemma NoDup_concat {A} (ls : list (list A)) :
  (∀ i l, ls !! i = Some l → NoDup l) →
  (∀ i j li lj x, ls !! i = Some li → ls !! j = Some lj →
                  x ∈ li → x ∈ lj → i = j) →
  NoDup (concat ls).
Proof.
  induction ls as [|l ls IH]; intros Hnd Hdisj; simpl; [constructor|].
  apply NoDup_app. split_and!.
  - by apply (Hnd 0).
  - intros x Hx (l' & Hl' & Hx')%list_elem_of_In%in_concat.
    apply list_elem_of_In, list_elem_of_lookup in Hl' as [j Hj].
    apply list_elem_of_In in Hx'.
    by specialize (Hdisj 0 (S j) l l' x eq_refl Hj Hx Hx').
  - apply IH.
    + intros i l'. apply (Hnd (S i)).
    + intros i j li lj x Hi Hj Hxi Hxj.
      by specialize (Hdisj (S i) (S j) li lj x Hi Hj Hxi Hxj) as [= ->].
Qed.

Lemma forEach_app {St A} (f : A → St → option St) l1 l2 s :
  forEach f (l1 ++ l2) s = s' ← forEach f l1 s; forEach f l2 s'.
Proof.
  revert s. induction l1 as [|x l1 IH]; intros s; simpl; [done|].
  destruct (f x s) as [s1|]; simpl; [apply IH | done].
Qed.

Section Subtrees.
Context (h : heap) (Hinv : tree_inv h).

(** The nodes above a node form a chain. *)
Lemma descends_linear x :
  ∀ a b, descends h a x → descends h b x →
         a = b ∨ descends h a b ∨ descends h b a.
Proof.
  induction x as [x IH] using lt_wf_ind. intros a b Ha Hb.
  assert (∃ t, h !! x = Some t) as [t Ht] by (inversion Ha; eauto).
  apply (descends_parent _ _ _ _ Ht) in Ha as (p & Hp & Ha).
  apply (descends_parent _ _ _ _ Ht) in Hb as (p' & Hp' & Hb).
  simplify_eq. destruct (registered h Hinv _ _ _ Ht Hp) as [Hlt _].
  destruct Ha as [->|Ha], Hb as [->|Hb]; eauto.
Qed.

(** Two children of one node have no node in common below them. *)
Lemma children_apart l a ta b tb x :
  h !! a = Some ta → parent ta = Some l →
  h !! b = Some tb → parent tb = Some l →
  x = a ∨ descends h a x → x = b ∨ descends h b x → a = b.
Proof.
  intros Ha Hpa Hb Hpb Hxa Hxb.
  destruct (registered h Hinv _ _ _ Ha Hpa) as [Hla _].
  destruct (registered h Hinv _ _ _ Hb Hpb) as [Hlb _].
  assert (Hno : ∀ c tc d, h !! c = Some tc → parent tc = Some l → l < d →
                          descends h d c → False).
  { intros c tc d Hc Hpc Hld (p & Hp & [->|Hd])%(descends_parent _ _ _ _ Hc);
      simplify_eq; [lia|].
    apply (descends_later h Hinv) in Hd. lia. }
  destruct Hxa as [->|Hxa], Hxb as [->|Hxb]; [done | | |].
  - destruct (Hno a ta b Ha Hpa Hlb Hxb).
  - destruct (Hno b tb a Hb Hpb Hla Hxa).
  - destruct (descends_linear x a b Hxa Hxb) as [|[Hd|Hd]]; [done | |].
    + destruct (Hno b tb a Hb Hpb Hla Hd).
    + destruct (Hno a ta b Ha Hpa Hlb Hd).
Qed.

Lemma descendants_NoDup fuel :
  ∀ l ds, l < length h → descendants fuel h l = Some ds → NoDup ds.
Proof.
  induction fuel as [|fuel IH]; intros l ds Hl Hds; [done|].
  pose proof Hds as (t & Ht & Hch)%descendants_unfold.
  destruct (children t) as [cs|] eqn:Hcs; [|subst; constructor].
  destruct Hch as (dss & Hdss & ->).
  assert (Hl' : 0 ≤ l < length h) by lia.
  pose proof (tree_at_node h 0 (length h) l t (proj1 Hinv) Hl' Ht) as Hok.
  assert (Hkid : ∀ i c dc, values cs !! i = Some c → dss !! i = Some dc →
            descendants fuel h c = Some dc ∧ c < length h ∧
            ∃ tc, h !! c = Some tc ∧ parent tc = Some l).
  { intros i c dc Hc Hdc.
    pose proof (Forall2_lookup_lr _ _ _ _ _ _ Hdss Hc Hdc) as Hd.
    unfold values in Hc. rewrite list_lookup_fmap in Hc.
    destruct (cs !! i) as [[k c']|] eqn:Hi; [|done]. simplify_eq/=.
    destruct (ok_children _ _ _ _ _ Hok cs i k c Hcs Hi)
      as (? & _ & tc & ? & _ & ?).
    split; [done|]. split; [lia|]. by exists tc. }
  apply NoDup_concat.
  - intros i b (c & dc & -> & Hc & Hdc)%lookup_zip_with_Some.
    destruct (Hkid i c dc Hc Hdc) as (Hd & Hlt & _).
    apply NoDup_cons. split; [|by eapply IH].
    intros Hin%(descendants_descends h Hinv _ _ _ Hd).
    apply (descends_later h Hinv) in Hin. lia.
  - intros i j bi bj x (ci & di & -> & Hci & Hdi)%lookup_zip_with_Some
      (cj & dj & -> & Hcj & Hdj)%lookup_zip_with_Some Hxi Hxj.
    destruct (Hkid i ci di Hci Hdi) as (Hi & _ & ti & Hti & Hpi).
    destruct (Hkid j cj dj Hcj Hdj) as (Hj & _ & tj & Htj & Hpj).
    assert (ci = cj) as <-.
    { eapply (children_apart l ci ti cj tj x); try done.
      - apply elem_of_cons in Hxi as [->|Hxi]; [by left|right].
        by apply (descendants_descends h Hinv _ _ _ Hi).
      - apply elem_of_cons in Hxj as [->|Hxj]; [by left|right].
        by apply (descendants_descends h Hinv _ _ _ Hj). }
    unfold values in Hci, Hcj. rewrite list_lookup_fmap in Hci, Hcj.
    destruct (cs !! i) as [[ki c1]|] eqn:Hi'; [|done].
    destruct (cs !! j) as [[kj c2]|] eqn:Hj'; [|done]. simplify_eq/=.
    destruct (ok_children _ _ _ _ _ Hok cs i ki ci Hcs Hi')
      as (_ & -> & t1 & ? & Hk1 & _).
    destruct (ok_children _ _ _ _ _ Hok cs j kj ci Hcs Hj')
      as (_ & -> & t2 & ? & Hk2 & _).
    simplify_eq. rewrite Hk1 in Hk2. by apply child_key_inj in Hk2.
Qed.

(** Every node but the root is below the root. *)
Lemma descends_root d : 0 < d < length h → descends h 0 d.
Proof.
  intros Hd. destruct (path_to_exists h Hinv d) as (c & Hc & Hhead & _); [lia|].
  apply (path_to_ancestors _ _ _ Hc).
  destruct (path_to_unsnoc _ _ _ Hc) as [c' ->]. rewrite removelast_last.
  destruct c' as [|r c']; simpl in *; simplify_eq; [lia | left].
Qed.

Lemma descends_valid a d : descends h a d → a < d < length h.
Proof.
  intros Hd. split; [by apply (descends_later h Hinv)|].
  inversion Hd; by eapply lookup_lt_Some.
Qed.

(** The keys of the children of a node are pairwise distinct. *)
Lemma children_keys_NoDup l t cs :
  h !! l = Some t → children t = Some cs → NoDup (keys cs).
Proof.
  intros Ht Hcs. pose proof (lookup_lt_Some _ _ _ Ht) as Hl.
  assert (Hl' : 0 ≤ l < length h) by lia.
  pose proof (tree_at_node h 0 (length h) l t (proj1 Hinv) Hl' Ht) as Hok.
  apply NoDup_alt. intros i j k Hi Hj. unfold keys in Hi, Hj.
  rewrite list_lookup_fmap in Hi, Hj.
  destruct (cs !! i) as [[ki ci]|] eqn:Hi'; [|done].
  destruct (cs !! j) as [[kj cj]|] eqn:Hj'; [|done]. simplify_eq/=.
  destruct (ok_children _ _ _ _ _ Hok cs i _ _ Hcs Hi') as (_ & Hk1 & _).
  destruct (ok_children _ _ _ _ _ Hok cs j _ _ Hcs Hj') as (_ & Hk2 & _).
  rewrite Hk1 in Hk2. by apply child_key_inj in Hk2.
Qed.

End Subtrees.

(** X6: [descendants] returns every strict descendant of the receiver
    exactly once and nothing else; on the root these are all the other
    nodes of the tree. *)
Theorem descendants_exactly_once (h : heap) fuel l :
  reachable h → l < length h → length h ≤ fuel →
  ∃ ds, descendants fuel h l = Some ds ∧ NoDup ds ∧
        (∀ d, d ∈ ds ↔ descends h l d) ∧
        (l = 0 → (∀ d, d ∈ ds ↔ 0 < d < length h) ∧
                 length ds = length h - 1).
Proof.
  intros Hinv%reachable_inv Hl Hfuel.
  destruct (descendants_total h 0 (length h) (proj1 Hinv) fuel l) as [ds Hds];
    [lia | lia |].
  pose proof (descendants_NoDup h Hinv fuel l ds Hl Hds) as Hnd.
  pose proof (descendants_descends h Hinv fuel l ds Hds) as Hin.
  exists ds. split_and!; try done. intros ->.
  assert (Hall : ∀ d, d ∈ ds ↔ 0 < d < length h).
  { intros d. rewrite Hin. split.
    - apply (descends_valid h Hinv).
    - apply (descends_root h Hinv). }
  split; [done|].
  assert (Hperm : ds ≡ₚ seq 1 (length h - 1)).
  { apply NoDup_Permutation; [done | apply NoDup_seq|].
    intros d. rewrite Hall, elem_of_seq. lia. }
  by rewrite Hperm, length_seq.
Qed.

Lemma descendants_exactly_once_witness :
  reachable scenario_heap ∧
  ∃ ds, descendants 4 scenario_heap 0 = Some ds ∧ NoDup ds ∧
        (∀ d, d ∈ ds ↔ descends scenario_heap 0 d) ∧
        (0 = 0 → (∀ d, d ∈ ds ↔ 0 < d < length scenario_heap) ∧
                 length ds = length scenario_heap - 1).
Proof.
  split; [exact scenario_reachable|].
  apply (descendants_exactly_once scenario_heap 4 0 scenario_reachable);
    vm_compute; lia.
Defined.

(** X7: [ancestors] and [descendants] are converse: a node is among the
    ancestors of [d] exactly when [d] is among its descendants. *)
Theorem ancestors_descendants_dual (h : heap) fuel a d :
  reachable h → a < length h → d < length h → length h ≤ fuel →
  ∃ anc ds, ancestors fuel h d = Some anc ∧ descendants fuel h a = Some ds ∧
            (a ∈ anc ↔ d ∈ ds).
Proof.
  intros Hreach Ha Hd Hfuel. pose proof (reachable_inv h Hreach) as Hinv.
  destruct (lookup_lt_is_Some_2 h d Hd) as [td Htd].
  destruct (chain_exists h Hreach fuel Hfuel d td Htd) as (c & Hc & Hlen & _).
  destruct (descendants_total h 0 (length h) (proj1 Hinv) fuel a) as [ds Hds];
    [lia | lia |].
  exists (rev c), ds. unfold ancestors.
  rewrite (ancestors_loop_spec _ _ _ Hc) by done. rewrite removelast_last.
  split; [done|]. split; [done|].
  rewrite (descendants_descends h Hinv fuel a ds Hds).
  rewrite <- (path_to_ancestors _ _ _ Hc a), removelast_last.
  rewrite !list_elem_of_In. symmetry. apply in_rev.
Qed.

Lemma ancestors_descendants_dual_witness :
  reachable scenario_heap ∧
  ∃ anc ds, ancestors 4 scenario_heap 3 = Some anc ∧
            descendants 4 scenario_heap 2 = Some ds ∧
            (2 ∈ anc ↔ 3 ∈ ds).
Proof.
  split; [exact scenario_reachable|].
  apply (ancestors_descendants_dual scenario_heap 4 2 3 scenario_reachable);
    vm_compute; lia.
Defined.

(** [traverse] calls back on the node and then on its descendants, in the
    order [descendants] lists them. *)
Lemma traverse_descendants {St} (h : heap) (callback : loc → St → option St) fuel :
  ∀ l ds s, descendants fuel h l = Some ds →
            traverse fuel h l callback s = forEach callback (l :: ds) s.
Proof.
  induction fuel as [|fuel IH]; intros l ds s Hds; [done|].
  apply descendants_unfold in Hds as (t & Ht & Hch). simpl. rewrite Ht. simpl.
  destruct (callback l s) as [s1|]; [simpl | done].
  destruct (children t) as [cs|]; [|by subst].
  destruct Hch as (dss & Hdss & ->). revert s1.
  induction Hdss as [|c dc kids dss Hc _ IHk]; intros s1; [done|]. simpl.
  rewrite (IH c dc s1 Hc). simpl.
  destruct (callback c s1) as [s2|]; [simpl | done].
  rewrite forEach_app. destruct (forEach callback dc s2) as [s3|]; [simpl | done].
  apply IHk.
Qed.

Lemma forEach_collect (ns acc : list loc) :
  forEach (λ node visited, Some (visited ++ [node])) ns acc = Some (acc ++ ns).
Proof.
  revert acc. induction ns as [|n ns IH]; intros acc; simpl.
  - by rewrite app_nil_r.
  - by rewrite IH, <- app_assoc.
Qed.

(** X8: [traverse] calls the callback on the receiver first and then on
    its descendants, once each, in the order in which [descendants] lists
    them; a callback that records its argument ends with that list. *)
Theorem traverse_preorder {St} (h : heap) fuel l :
  reachable h → l < length h → length h ≤ fuel →
  ∃ ds, descendants fuel h l = Some ds ∧
        (∀ (callback : loc → St → option St) s,
           traverse fuel h l callback s = forEach callback (l :: ds) s) ∧
        traverse fuel h l (λ node visited, Some (visited ++ [node])) []
        = Some (l :: ds).
Proof.
  intros Hinv%reachable_inv Hl Hfuel.
  destruct (descendants_total h 0 (length h) (proj1 Hinv) fuel l) as [ds Hds];
    [lia | lia |].
  exists ds. split; [done|]. split.
  - intros callback s. by apply traverse_descendants.
  - rewrite (traverse_descendants h _ fuel l ds [] Hds).
    apply forEach_collect.
Qed.

Lemma traverse_preorder_witness :
  reachable scenario_heap ∧
  ∃ ds, descendants 4 scenario_heap 0 = Some ds ∧
        (∀ (callback : loc → list loc → option (list loc)) s,
           traverse 4 scenario_heap 0 callback s
           = forEach callback (0 :: ds) s) ∧
        traverse 4 scenario_heap 0 (λ node visited, Some (visited ++ [node])) []
        = Some (0 :: ds).
Proof.
  split; [exact scenario_reachable|].
  apply (traverse_preorder scenario_heap 4 0 scenario_reachable);
    vm_compute; lia.
Defined.

(** ** Siblings *)

Lemma obj_delete_entries {A} k (o : list (string * A)) :
  NoDup (keys o) →
  ∀ e, e ∈ obj_delete k o ↔ e ∈ o ∧ e.1 ≠ k.
Proof.
  induction o as [|[k' v] o IH]; intros Hnd e; simpl.
  - split; [by intros ?%elem_of_nil | by intros [?%elem_of_nil _]].
  - unfold keys in Hnd. simpl in Hnd. apply NoDup_cons in Hnd as [Hk' Hnd].
    destruct (String.eqb_spec k' k) as [->|Hne].
    + rewrite elem_of_cons. split.
      * intros He. split; [by right|]. intros <-. apply Hk'.
        apply list_elem_of_fmap. by exists e.
      * intros [[->|He] Hk]; done.
    + rewrite !elem_of_cons, IH by done. split.
      * intros [->|[He Hk]]; [by split; [left|] | by split; [right|]].
      * intros [[->|He] Hk]; [by left | by right].
Qed.

Lemma obj_delete_length {A} k (o : list (string * A)) :
  k ∈ keys o → S (length (obj_delete k o)) = length o.
Proof.
  induction o as [|[k' v] o IH]; simpl; [by intros ?%elem_of_nil|].
  unfold keys. simpl. intros Hk.
  destruct (String.eqb_spec k' k) as [->|Hne]; [done|]. simpl.
  apply elem_of_cons in Hk as [->|Hk]; [done|]. by rewrite IH.
Qed.

Lemma obj_get_fresh {A} k (o : list (string * A)) :
  k ∉ keys o → obj_get k o = None.
Proof.
  induction o as [|[k' v] o IH]; intros Hk; simpl; [done|].
  unfold keys in Hk. simpl in Hk. apply not_elem_of_cons in Hk as [Hne Hk].
  destruct (String.eqb_spec k' k) as [->|_]; [done|]. by apply IH.
Qed.

Lemma obj_get_delete {A} k (o : list (string * A)) :
  NoDup (keys o) → obj_get k (obj_delete k o) = None.
Proof.
  induction o as [|[k' v] o IH]; intros Hnd; simpl; [done|].
  unfold keys in Hnd. simpl in Hnd. apply NoDup_cons in Hnd as [Hk' Hnd].
  destruct (String.eqb_spec k' k) as [->|Hne].
  - by apply obj_get_fresh.
  - simpl. destruct (String.eqb_spec k' k) as [|_]; [done|]. by apply IH.
Qed.

(** X9: [siblings] returns the children object of the parent without the
    receiver's own entry: one entry fewer, every other child under its
    key, and nothing under the receiver's key; on the root it is empty. *)
Theorem siblings_are_the_other_children (h : heap) l t :
  reachable h → h !! l = Some t →
  ∃ sib, siblings h l = Some sib ∧
         obj_get (key t) sib = None ∧
         match parent t with
         | None => sib = []
         | Some p =>
             ∃ tp cs, h !! p = Some tp ∧ children tp = Some cs ∧
                      S (length sib) = length cs ∧
                      (∀ k c, (k, c) ∈ sib ↔ (k, c) ∈ cs ∧ c ≠ l)
         end.
Proof.
  intros Hinv%reachable_inv Ht. unfold siblings. rewrite Ht. simpl.
  destruct (parent t) as [p|] eqn:Hp; [|by exists []].
  destruct (registered h Hinv l t p Ht Hp) as (_ & tp & cs & i & Htp & Hcs & Hi & _).
  rewrite Htp. simpl. rewrite Hcs. simpl.
  pose proof (children_keys_NoDup h Hinv p tp cs Htp Hcs) as Hnd.
  eexists. split; [done|]. split; [by apply obj_get_delete|].
  exists tp, cs. split; [done|]. split; [done|]. split.
  - apply obj_delete_length. apply list_elem_of_fmap. exists (key t, l).
    split; [done|]. by eapply list_elem_of_lookup_2.
  - intros k c. rewrite obj_delete_entries by done. simpl.
    cut ((k, c) ∈ cs → (k ≠ key t ↔ c ≠ l)); [tauto|]. intros Hin.
    apply list_elem_of_lookup in Hin as [j Hj].
    pose proof (lookup_lt_Some _ _ _ Htp) as Hpl.
    assert (Hp' : 0 ≤ p < length h) by lia.
    pose proof (tree_at_node h 0 (length h) p tp (proj1 Hinv) Hp' Htp) as Hok.
    destruct (ok_children _ _ _ _ _ Hok cs j k c Hcs Hj) as (_ & _ & tc & Htc & Hkc & _).
    split.
    + intros Hk ->. by simplify_eq.
    + intros Hc ->. apply Hc. eapply (keys_unique h Hinv); done.
Qed.

Lemma siblings_are_the_other_children_witness :
  reachable scenario_heap ∧
  ∃ sib, siblings scenario_heap 2 = Some sib ∧
         obj_get (key scenario_b) sib = None ∧
         match parent scenario_b with
         | None => sib = []
         | Some p =>
             ∃ tp cs, scenario_heap !! p = Some tp ∧ children tp = Some cs ∧
                      S (length sib) = length cs ∧
                      (∀ k c, (k, c) ∈ sib ↔ (k, c) ∈ cs ∧ c ≠ 2)
         end.
Proof.
  split; [exact scenario_reachable|].
  exact (siblings_are_the_other_children scenario_heap 2 scenario_b
           scenario_reachable eq_refl).
Defined.

(** ** The constructor: what it allocates and when it throws *)

Lemma getNextChildKey_total (h : heap) this t :
  h !! this = Some t → is_Some (getNextChildKey h this).
Proof.
  intros Ht. unfold getNextChildKey. rewrite Ht. simpl.
  destruct (children t) as [cs|]; [|eauto].
  simpl. destruct (last (keys cs)); eauto.
Qed.

(** One round of the constructor's loop, on a node that has a children
    object: the child is built and then entered. *)
Lemma add_child_eq this child (h : heap) t cs :
  h !! this = Some t → children t = Some cs →
  add_child this child h
  = constructor child (Some this) h ≫= λ '(n, h1),
      tc ← h1 !! n;
      Some (<[this := with_children (Some (obj_set (key tc) n cs)) t]> h1).
Proof.
  intros Ht Hcs. unfold add_child.
  destruct (constructor child (Some this) h) as [[n h1]|] eqn:Hc; [|done].
  simpl. destruct (constructor_alloc child _ _ _ _ Hc) as (-> & _ & Hold & tc & Htc & _).
  rewrite Htc. simpl. unfold children_put.
  rewrite Hold by by eapply lookup_lt_Some. rewrite Ht. simpl. by rewrite Hcs.
Qed.

Lemma add_child_cell this child (h h' : heap) t cs :
  h !! this = Some t → children t = Some cs →
  add_child this child h = Some h' →
  ∃ cs', h' !! this = Some (with_children (Some cs') t).
Proof.
  intros Ht Hcs. rewrite (add_child_eq _ _ _ _ _ Ht Hcs).
  destruct (constructor child (Some this) h) as [[n h1]|] eqn:Hc; [|done].
  simpl. destruct (constructor_alloc child _ _ _ _ Hc) as (_ & Hlen & _).
  destruct (h1 !! n) as [tc|]; [|done]. simpl. intros [= <-].
  eexists. apply list_lookup_insert_eq. apply lookup_lt_Some in Ht. lia.
Qed.

Lemma forEach_add_child_cell this rest :
  ∀ (h h' : heap) t cs,
    h !! this = Some t → children t = Some cs →
    forEach (add_child this) rest h = Some h' →
    ∃ cs', h' !! this = Some (with_children (Some cs') t).
Proof.
  induction rest as [|child rest IH]; intros h h' t cs Ht Hcs; simpl.
  - intros [= <-]. exists cs. rewrite Ht. f_equal. destruct t. simpl in *.
    by subst.
  - destruct (add_child this child h) as [h1|] eqn:Hstep; [|done]. simpl.
    destruct (add_child_cell _ _ _ _ _ _ Ht Hcs Hstep) as [cs1 H1].
    intros Hrest. by destruct (IH _ _ _ cs1 H1 eq_refl Hrest) as [cs' ?]; eauto.
Qed.

(** The object a successful [new Tree(props, par)] creates. *)
Lemma constructor_cell props par (h : heap) l h' :
  constructor props par h = Some (l, h') →
  ∃ k cs, next_key h par = Some k ∧
          h' !! l = Some (mkTree k cs props par) ∧
          (is_Some cs ↔ truthy (prop props "children") = true).
Proof.
  rewrite constructor_unfold. destruct (next_key h par) as [k|]; [|done]. simpl.
  assert (Hleaf : ∀ l h',
            truthy (prop props "children") = false →
            Some (length h, h ++ [mkTree k None props par]) = Some (l, h') →
            ∃ k0 cs, Some k = Some k0 ∧
                     h' !! l = Some (mkTree k0 cs props par) ∧
                     (is_Some cs ↔ truthy (prop props "children") = true)).
  { intros ?? Hfalsy [= <- <-]. exists k, None.
    rewrite list_lookup_middle by done. split_and!; try done.
    rewrite Hfalsy. split; [by intros [? ?] | done]. }
  destruct props as [| |b|n|s|xs|fs]; try done; try by apply Hleaf.
  unfold prop in *.
  destruct (obj_get "children" fs) as [ch|]; [|by apply Hleaf]. simpl in *.
  destruct (truthy ch) eqn:Htruthy; [|by apply Hleaf].
  destruct ch as [| |b|n|s|cs|gs]; try done.
  rewrite alter_app_r_alt by lia. rewrite Nat.sub_diag. simpl.
  set (t1 := with_children (Some []) (mkTree k None (VObject fs) par)).
  destruct (forEach (add_child (length h)) cs (h ++ [t1])) as [h2|] eqn:Hloop;
    [|done].
  simpl. intros [= <- <-].
  destruct (forEach_add_child_cell _ _ _ _ t1 [] (list_lookup_middle _ _ _ _ eq_refl)
              eq_refl Hloop) as [cs' Hcell].
  exists k, (Some cs'). split_and!; try done; split; eauto.
Qed.

Lemma throws_unfold fs :
  throws (VObject fs)
  = match obj_get "children" fs with
    | None => false
    | Some ch =>
        if truthy ch then
          match ch with
          | VArray cs => existsb throws cs
          | _ => true
          end
        else false
    end.
Proof.
  simpl. induction fs as [|[k ch] fs IH]; [done|]. simpl.
  destruct (String.eqb k "children"); [|exact IH]. by destruct ch.
Qed.

Lemma forEach_add_child_throws this rest :
  Forall (λ child, ∀ par (h : heap), is_Some (next_key h par) →
                     (constructor child par h = None ↔ throws child = true))
         rest →
  ∀ (h : heap) t cs,
    h !! this = Some t → children t = Some cs →
    (forEach (add_child this) rest h = None ↔ existsb throws rest = true).
Proof.
  induction 1 as [|child rest Hchild _ IH]; intros h t cs Ht Hcs; simpl; [done|].
  specialize (Hchild (Some this) h (getNextChildKey_total _ _ _ Ht)).
  destruct (add_child this child h) as [h1|] eqn:Hstep; simpl.
  - destruct (add_child_cell _ _ _ _ _ _ Ht Hcs Hstep) as [cs1 H1].
    rewrite (IH h1 _ cs1 H1 eq_refl).
    destruct (throws child); [|done]. destruct Hchild as [_ Hnone].
    unfold add_child in Hstep. by rewrite Hnone in Hstep.
  - split; [intros _ | done]. apply orb_true_iff. left. apply Hchild.
    rewrite (add_child_eq _ _ _ _ _ Ht Hcs) in Hstep.
    destruct (constructor child (Some this) h) as [[n h1]|] eqn:Hc; [|done].
    exfalso. simpl in Hstep.
    destruct (constructor_alloc child _ _ _ _ Hc) as (_ & _ & _ & tc & Htc & _).
    by rewrite Htc in Hstep.
Qed.

(** The constructor throws on exactly the records of [throws], wherever the
    node is created. *)
Lemma constructor_none_iff X par (h : heap) :
  is_Some (next_key h par) →
  (constructor X par h = None ↔ throws X = true).
Proof.
  revert par h.
  cut ((∀ par (h : heap), is_Some (next_key h par) →
          (constructor X par h = None ↔ throws X = true)) ∧
       match X with
       | VArray cs =>
           Forall (λ child, ∀ par (h : heap), is_Some (next_key h par) →
                     (constructor child par h = None ↔ throws child = true)) cs
       | _ => True
       end).
  { by intros [? _]. }
  induction X as [| |b|n|s|xs IH|fs IH] using value_ind';
    (split; [|try done]);
    try (intros par h [k Hk]; rewrite constructor_unfold, Hk; by simpl).
  { eapply Forall_impl; [exact IH|]. by intros x [? _]. }
  intros par h [k Hk]. rewrite constructor_unfold, Hk, throws_unfold. simpl.
  destruct (obj_get "children" fs) as [ch|] eqn:Hch; [|done].
  destruct (truthy ch) eqn:Htruthy; [|done].
  destruct ch as [| |b|n|s|cs|gs]; try done.
  assert (Hcs : Forall (λ child, ∀ par (h : heap), is_Some (next_key h par) →
                  (constructor child par h = None ↔ throws child = true)) cs).
  { clear -IH Hch. induction fs as [|[k' v] fs IHfs]; [done|].
    apply Forall_cons in IH as [Hv IH]. simpl in Hch.
    destruct (String.eqb k' "children"); [|by apply IHfs].
    injection Hch as ->. simpl in Hv. by destruct Hv. }
  rewrite alter_app_r_alt by lia. rewrite Nat.sub_diag. simpl.
  rewrite <- (forEach_add_child_throws (length h) cs Hcs
                (h ++ [with_children (Some [])
                         (mkTree k None (VObject fs) par)]) _ []
                (list_lookup_middle _ _ _ _ eq_refl) eq_refl).
  by destruct (forEach _ _ _).
Qed.

(** X10: the constructor throws on exactly the records of [throws]:
    [null], [undefined], and objects whose [children] is truthy and either
    no array or an array holding such a record.  No well-formed record is
    among them; and [appendChild(d)] on a node throws exactly when
    [new Tree(d)] does. *)
Theorem constructor_throws_iff X :
  (well_formed X → throws X = false) ∧
  (constructor X None [] = None ↔ throws X = true) ∧
  (∀ (h : heap) this d,
     is_Some (h !! this) →
     (appendChild h this d = None ↔ throws d = true)).
Proof.
  split_and!.
  - intros Hwf. destruct (throws X) eqn:Hthrows; [|done].
    pose proof (constructor_spec X None [] "0" eq_refl canonical_root) as Hs.
    apply (constructor_none_iff X None []) in Hthrows; [|by eexists].
    by rewrite Hthrows in Hs.
  - apply constructor_none_iff. by eexists.
  - intros h this d [t Ht].
    rewrite <- (constructor_none_iff d (Some this) h)
      by (simpl; by eapply getNextChildKey_total).
    unfold appendChild.
    destruct (constructor d (Some this) h) as [[n h1]|] eqn:Hc; [|done]. simpl.
    destruct (constructor_alloc d _ _ _ _ Hc) as (_ & _ & Hold & tc & -> & _).
    simpl. rewrite Hold, Ht by by eapply lookup_lt_Some. simpl.
    by destruct (children t).
Qed.

Lemma constructor_throws_iff_witness :
  throws record_with_children = false ∧
  (appendChild scenario_heap 1 (VObject [("children", VArray [VNull])]) = None
   ↔ throws (VObject [("children", VArray [VNull])]) = true).
Proof.
  split.
  - exact (proj1 (constructor_throws_iff record_with_children)
                 ltac:(by apply well_formedb_spec)).
  - apply (proj2 (proj2 (constructor_throws_iff VNull)) scenario_heap 1).
    vm_compute. by eexists.
Defined.

(** X11: on a node that the constructor has just returned, [hasChildren]
    is the truthiness of the record's [children] field (so it is true for
    [children: []], a node without any child); after [appendChild] it is
    true on the receiver and unchanged on every other node. *)
Theorem hasChildren_is_the_container :
  (∀ X par (h : heap) l h',
     constructor X par h = Some (l, h') →
     hasChildren h' l = Some (truthy (prop X "children"))) ∧
  (∀ (h : heap) this d n h',
     appendChild h this d = Some (n, h') →
     hasChildren h' this = Some true ∧
     (∀ x, x < length h → x ≠ this → hasChildren h' x = hasChildren h x)).
Proof.
  split.
  - intros X par h l h' (k & cs & _ & Hcell & Hcs)%constructor_cell.
    unfold hasChildren. rewrite Hcell. simpl. f_equal.
    destruct (truthy (prop X "children")).
    + apply bool_decide_eq_true_2. by apply Hcs.
    + apply bool_decide_eq_false_2. intros ?%Hcs. done.
  - intros h this d n h' H.
    destruct (appendChild_node _ _ _ _ _ H) as [t Ht].
    pose proof (lookup_lt_Some _ _ _ Ht) as Hthis. unfold appendChild in H.
    destruct (constructor d (Some this) h) as [[c h1]|] eqn:Hc; [|done].
    simpl in H. destruct (constructor_alloc d _ _ _ _ Hc) as (-> & Hlen & Hold & _).
    destruct (h1 !! length h) as [tc|]; [|done]. simpl in H.
    destruct (h1 !! this) as [t1|]; [|done]. simpl in H.
    unfold hasChildren. split.
    + destruct (children t1); injection H as <- <-;
        rewrite list_lookup_insert_eq by lia; simpl; f_equal;
        by apply bool_decide_eq_true_2.
    + intros x Hx Hne.
      destruct (children t1); injection H as <- <-;
        by rewrite list_lookup_insert_ne, Hold by done.
Qed.

Lemma hasChildren_is_the_container_witness :
  (constructor (VObject [("children", VArray [])]) None [] =
   Some (0, [mkTree "0" (Some []) (VObject [("children", VArray [])]) None]) ∧
   hasChildren [mkTree "0" (Some []) (VObject [("children", VArray [])]) None] 0
   = Some true) ∧
  (appendChild scenario_heap 1 record_with_children = Some (4, appended_heap) ∧
   hasChildren appended_heap 1 = Some true).
Proof.
  split.
  - split; [reflexivity|].
    exact (proj1 hasChildren_is_the_container
             (VObject [("children", VArray [])]) None [] 0
             [mkTree "0" (Some []) (VObject [("children", VArray [])]) None]
             eq_refl).
  - split; [by vm_compute|].
    refine (proj1 (proj2 hasChildren_is_the_container scenario_heap 1
                     record_with_children 4 appended_heap _)).
    by vm_compute.
Defined.

(** X12: [new Tree(X, p)] on its own does not enter the new node into
    [p]: it takes the key [p.getNextChildKey()], leaves every existing node
    and [p.childrenList] as they were, and [p.getNextChildKey()] still
    returns the same key afterwards. *)
Theorem constructor_does_not_register X p (h : heap) l h' :
  constructor X (Some p) h = Some (l, h') →
  l = length h ∧
  (∀ x, x < length h → h' !! x = h !! x) ∧
  childrenList h' p = childrenList h p ∧
  key <$> h' !! l = getNextChildKey h p ∧
  getNextChildKey h' p = getNextChildKey h p.
Proof.
  intros H. destruct (constructor_alloc X _ _ _ _ H) as (-> & _ & Hold & _).
  destruct (constructor_cell _ _ _ _ _ H) as (k & cs & Hk & Hcell & _).
  simpl in Hk. destruct (getNextChildKey_node _ _ _ Hk) as [tp Htp].
  pose proof (lookup_lt_Some _ _ _ Htp) as Hp.
  split; [done|]. split; [done|].
  unfold childrenList, getNextChildKey in *. rewrite (Hold p Hp), Hcell.
  by rewrite Hk.
Qed.

Lemma constructor_does_not_register_witness :
  constructor record_with_children (Some 1) scenario_heap
  = Some (4, default [] (snd <$> constructor record_with_children (Some 1)
                                   scenario_heap)) ∧
  childrenList (default [] (snd <$> constructor record_with_children (Some 1)
                                      scenario_heap)) 1
  = childrenList scenario_heap 1.
Proof.
  split; [by vm_compute|].
  refine (proj1 (proj2 (proj2 (constructor_does_not_register
            record_with_children 1 scenario_heap 4 _ _)))).
  by vm_compute.
Defined.

(** ** How the operations compose *)

(** On a tree [serialize] returns on every node, given a recursion budget
    that covers the cells after the node. *)
Lemma serialize_total (h : heap) lo hi :
  tree_at h lo hi →
  ∀ fuel l, lo ≤ l < hi → hi - l ≤ fuel → is_Some (serialize fuel h l).
Proof.
  intros Htree. induction fuel as [|fuel IH]; intros l Hl Hfuel; [lia|].
  destruct (lookup_lt_is_Some_2 h l) as [t Ht].
  { pose proof (tree_at_bounds _ _ _ Htree). lia. }
  simpl. rewrite Ht. simpl. destruct (children t) as [cs|] eqn:Hcs; [|eauto].
  assert (Hall : is_Some (mapM (serialize fuel h) (values cs))).
  { apply mapM_is_Some, Forall_forall. intros c Hc. unfold values in Hc.
    apply list_elem_of_fmap in Hc as ([k c'] & -> & Hin).
    apply list_elem_of_lookup in Hin as [i Hi].
    destruct (ok_children _ _ _ _ _ (tree_at_node _ _ _ _ _ Htree Hl Ht)
                          cs i k c' Hcs Hi) as (? & _).
    simpl. apply IH; lia. }
  destruct Hall as [ser ->]. simpl. eauto.
Qed.

(** The serializations of a node's children, for every sufficient budget. *)
Lemma serialize_children (h : heap) lo hi l t :
  tree_at h lo hi → lo ≤ l < hi → h !! l = Some t →
  ∃ vs, ∀ fuel, hi - l - 1 ≤ fuel →
          Forall2 (λ c v, serialize fuel h c = Some v)
                  (values (default [] (children t))) vs.
Proof.
  intros Htree Hl Ht.
  assert (Hch : ∀ c, c ∈ values (default [] (children t)) → l < c < hi).
  { intros c Hc. destruct (children t) as [cs|] eqn:Hcs; simpl in Hc.
    - unfold values in Hc. apply list_elem_of_fmap in Hc as ([k c'] & -> & Hin).
      apply list_elem_of_lookup in Hin as [i Hi].
      by destruct (ok_children _ _ _ _ _ (tree_at_node _ _ _ _ _ Htree Hl Ht)
                               cs i k c' Hcs Hi) as (? & _).
    - by apply elem_of_nil in Hc. }
  assert (Hall : is_Some (mapM (serialize hi h) (values (default [] (children t))))).
  { apply mapM_is_Some, Forall_forall. intros c Hc%Hch. simpl.
    apply (serialize_total h lo hi Htree); lia. }
  destruct Hall as [vs Hvs]. exists vs. intros fuel Hfuel.
  apply mapM_Some in Hvs. eapply Forall2_impl_elem; [exact Hvs|].
  intros c v Hc%Hch Hv. simpl in Hv.
  apply (serialize_enough h lo hi Htree); [lia | by exists hi | lia].
Qed.

(** X13: after [n = this.appendChild(d)] on a node of a tree,
    [n.serialize()] is [d], and [this.serialize()] is the spread of
    [this.data] with [children] set to the serializations the children had
    before, followed by [d]. *)
Theorem appendChild_then_serialize (h : heap) this t d n h' fuel :
  reachable h → h !! this = Some t →
  appendChild h this d = Some (n, h') → length h' ≤ fuel →
  ∃ vs,
    mapM (serialize fuel h) (values (default [] (children t))) = Some vs ∧
    serialize fuel h this
    = Some (match children t with
            | None => data t
            | Some _ =>
                VObject (obj_set "children" (VArray vs) (spread (data t)))
            end) ∧
    serialize fuel h' n = Some d ∧
    serialize fuel h' this
    = Some (VObject (obj_set "children" (VArray (vs ++ [d]))
                             (spread (data t)))).
Proof.
  intros [Htree _]%reachable_inv Ht Happ Hfuel.
  pose proof (lookup_lt_Some _ _ _ Ht) as Hthis.
  assert (Hthis' : 0 ≤ this < length h) by lia.
  pose proof (tree_at_node _ _ _ _ _ Htree Hthis' Ht) as Hok.
  pose proof (constructor_under h 0 this t d Htree Hthis' Ht) as Hc.
  destruct (serialize_children h 0 (length h) this t Htree Hthis' Ht)
    as [vs Hvs].
  unfold appendChild in Happ.
  destruct (constructor d (Some this) h) as [[n1 h1]|]; [|done]. simpl in Happ.
  destruct Hc as (-> & [ns ->] & Htree1 & (tc & Htc & Hkc & Hpc & Hdc) & Hser).
  rewrite Htc in Happ. simpl in Happ.
  rewrite (lookup_app_l_Some _ ns _ _ Ht) in Happ. simpl in Happ.
  assert (Hh' : n = length h ∧
                h' = <[this := with_children
                                 (Some (default [] (children t)
                                        ++ [(key tc, length h)])) t]> (h ++ ns)).
  { destruct (children t) as [cs0|] eqn:Hcs; injection Happ as <- <-;
      [|done]. split; [done|]. simpl.
    by rewrite obj_set_fresh
      by (rewrite Hkc; eapply children_keys_fresh; [exact Hok | done]). }
  destruct Hh' as [-> ->]. clear Happ. rewrite length_insert in Hfuel.
  pose proof (tree_at_bounds _ _ _ Htree1) as Hb.
  destruct fuel as [|f]; [lia|].
  assert (Hnew : ∀ g, length (h ++ ns) - length h ≤ g →
            serialize g (<[this := with_children
                                     (Some (default [] (children t)
                                            ++ [(key tc, length h)])) t]>
                           (h ++ ns)) (length h) = Some d).
  { intros g Hg.
    rewrite (serialize_agree g (h ++ ns) _ (length h) (length (h ++ ns)));
      [| done | lia |].
    - apply (serialize_enough _ _ _ Htree1); [lia | done | lia].
    - intros c Hc. apply list_lookup_insert_ne. lia. }
  exists vs. split_and!.
  - apply mapM_Some, Hvs. lia.
  - simpl. rewrite Ht. simpl. destruct (children t) as [cs0|]; [|done].
    simpl in Hvs. assert (Hm : mapM (serialize f h) (values cs0) = Some vs).
    { apply mapM_Some, Hvs. lia. }
    by rewrite Hm.
  - apply Hnew. lia.
  - simpl. rewrite list_lookup_insert_eq by (rewrite length_app; lia). simpl.
    unfold values at 1. rewrite fmap_app. simpl.
    assert (Hm : mapM (serialize f (<[this := with_children
                                     (Some (default [] (children t)
                                            ++ [(key tc, length h)])) t]>
                           (h ++ ns)))
                   ((snd <$> default [] (children t)) ++ [length h])
                 = Some (vs ++ [d])).
    { apply mapM_Some, Forall2_app.
      - eapply Forall2_impl_elem; [apply (Hvs f); lia|].
        intros c v Hc Hv. simpl in Hv. rewrite <- Hv.
        assert (this < c < length h) as Hcb.
        { destruct (children t) as [cs0|] eqn:Hcs; simpl in Hc.
          - unfold values in Hc.
            apply list_elem_of_fmap in Hc as ([k c'] & -> & Hin).
            apply list_elem_of_lookup in Hin as [i Hi].
            by destruct (ok_children _ _ _ _ _ Hok cs0 i k c' Hcs Hi) as (? & _).
          - by apply elem_of_nil in Hc. }
        apply (serialize_agree f h _ 0 (length h)); [done | lia |].
        intros x Hx. rewrite list_lookup_insert_ne by lia.
        apply lookup_app_l. lia.
      - constructor; [|constructor]. apply Hnew. rewrite length_app in *. lia. }
    by rewrite Hm.
Qed.

Lemma appendChild_then_serialize_witness :
  (reachable scenario_heap ∧
   appendChild scenario_heap 2 (VObject [("name", VString "d")])
   = Some (4, default [] (snd <$> appendChild scenario_heap 2
                                    (VObject [("name", VString "d")])))) ∧
  ∃ vs,
    mapM (serialize 5 scenario_heap) (values (default [] (children scenario_b)))
    = Some vs ∧
    serialize 5 scenario_heap 2
    = Some (match children scenario_b with
            | None => data scenario_b
            | Some _ =>
                VObject (obj_set "children" (VArray vs)
                                 (spread (data scenario_b)))
            end) ∧
    serialize 5 (default [] (snd <$> appendChild scenario_heap 2
                                       (VObject [("name", VString "d")]))) 4
    = Some (VObject [("name", VString "d")]) ∧
    serialize 5 (default [] (snd <$> appendChild scenario_heap 2
                                       (VObject [("name", VString "d")]))) 2
    = Some (VObject (obj_set "children"
                             (VArray (vs ++ [VObject [("name", VString "d")]]))
                             (spread (data scenario_b)))).
Proof.
  split; [split; [exact scenario_reachable | by vm_compute]|].
  apply (appendChild_then_serialize scenario_heap 2 scenario_b
           (VObject [("name", VString "d")]) 4 _ 5 scenario_reachable eq_refl).
  - by vm_compute.
  - vm_compute. lia.
Defined.

(** [get] on a node: its own key first, then the descendants in order. *)
Lemma get_unfold (h : heap) fuel l t k :
  tree_inv h → h !! l = Some t → length h ≤ fuel →
  ∃ ds, (∀ d, d ∈ ds ↔ descends h l d) ∧
        get fuel h l k
        = Some (if String.eqb (key t) k then Some l else find (key_is h k) ds).
Proof.
  intros Hinv Ht Hfuel. pose proof (lookup_lt_Some _ _ _ Ht).
  destruct (descendants_total h 0 (length h) (proj1 Hinv) fuel l) as [ds Hds];
    [lia | lia |].
  exists ds. split; [exact (descendants_descends h Hinv fuel l ds Hds)|].
  unfold get. rewrite Ht, Hds. simpl. by destruct (String.eqb (key t) k).
Qed.

(** From the root, [get] finds every node of the tree by its key. *)
Lemma get_root (h : heap) fuel l t :
  tree_inv h → h !! l = Some t → length h ≤ fuel →
  get fuel h 0 (key t) = Some (Some l).
Proof.
  intros Hinv Ht Hfuel. pose proof (lookup_lt_Some _ _ _ Ht) as Hl.
  pose proof Hinv as [_ (r & Hr & Hrk & _)].
  destruct (get_unfold h fuel 0 r (key t) Hinv Hr Hfuel) as (ds & Hds & ->).
  f_equal. destruct (String.eqb_spec (key r) (key t)) as [Hk|Hk].
  - f_equal. by eapply (keys_unique h Hinv).
  - eapply find_key_is; [apply (keys_unique h Hinv) | | done..].
    apply Hds, descends_root; [done|].
    destruct (decide (l = 0)) as [->|]; [|lia]. by simplify_eq.
Qed.

Lemma get_root_none (h : heap) fuel k :
  tree_inv h → length h ≤ fuel →
  (∀ l t, h !! l = Some t → key t ≠ k) →
  get fuel h 0 k = Some None.
Proof.
  intros Hinv Hfuel Hno. pose proof Hinv as [_ (r & Hr & _)].
  destruct (get_unfold h fuel 0 r k Hinv Hr Hfuel) as (ds & Hds & ->).
  f_equal. destruct (String.eqb_spec (key r) k) as [Hk|_].
  - by destruct (Hno 0 r Hr).
  - apply find_key_is_none. intros d td _ Hd. by apply (Hno d td).
Qed.

(** X14: the key that [getNextChildKey] announces is carried by no node
    of the tree; after [appendChild] the root's [get] finds the new child
    under that key, and still finds every earlier node under its old
    key. *)
Theorem appendChild_then_get (h : heap) this d n h' fuel :
  reachable h → appendChild h this d = Some (n, h') → length h' ≤ fuel →
  ∃ k, getNextChildKey h this = Some k ∧
       key <$> h' !! n = Some k ∧
       get fuel h 0 k = Some None ∧
       get fuel h' 0 k = Some (Some n) ∧
       (∀ l t, h !! l = Some t →
               get fuel h 0 (key t) = Some (Some l) ∧
               get fuel h' 0 (key t) = Some (Some l)).
Proof.
  intros Hreach Happ Hfuel.
  pose proof (reachable_inv h Hreach) as Hinv.
  pose proof (reachable_inv h' (reach_append _ _ _ _ _ Hreach Happ)) as Hinv'.
  destruct (appendChild_node _ _ _ _ _ Happ) as [t Ht].
  pose proof (lookup_lt_Some _ _ _ Ht) as Hthis.
  assert (Hthis' : 0 ≤ this < length h) by lia.
  pose proof (appendChild_spec h 0 this t d (proj1 Hinv) Hthis' Ht) as Hs.
  cbv zeta in Hs. rewrite Happ in Hs.
  destruct Hs as (ns & tc & -> & -> & Htc & Hkc & _).
  set (h' := <[this := _]> (h ++ ns)) in *.
  assert (Hlen : length h ≤ length h').
  { unfold h'. rewrite length_insert, length_app. lia. }
  assert (Hn : h' !! length h = Some tc).
  { unfold h'. by rewrite list_lookup_insert_ne by lia. }
  assert (Hold : ∀ l t0, h !! l = Some t0 →
                         ∃ t1, h' !! l = Some t1 ∧ key t1 = key t0).
  { intros l t0 Hl. pose proof (lookup_lt_Some _ _ _ Hl). unfold h'.
    destruct (decide (l = this)) as [->|Hne].
    - rewrite list_lookup_insert_eq by (rewrite length_app; lia).
      eexists. split; [done|]. simpl. congruence.
    - rewrite list_lookup_insert_ne by done. exists t0.
      split; [by apply lookup_app_l_Some | done]. }
  exists (key tc). split_and!.
  - rewrite Hkc. apply (getNextChildKey_ok h 0 (length h)); [done|].
    by apply (tree_at_node _ _ _ _ _ (proj1 Hinv)).
  - by rewrite Hn.
  - apply get_root_none; [done | lia |]. intros l t0 Hl Hk.
    destruct (Hold l t0 Hl) as (t1 & Hl' & Hk1).
    assert (l = length h).
    { eapply (keys_unique h' Hinv'); [done | done | congruence]. }
    apply lookup_lt_Some in Hl. lia.
  - by apply get_root.
  - intros l t0 Hl. split; [apply get_root; [done | done | lia]|].
    destruct (Hold l t0 Hl) as (t1 & Hl' & <-). by apply get_root.
Qed.

Lemma appendChild_then_get_witness :
  (reachable scenario_heap ∧
   appendChild scenario_heap 1 record_with_children = Some (4, appended_heap)) ∧
  ∃ k, getNextChildKey scenario_heap 1 = Some k ∧
       key <$> appended_heap !! 4 = Some k ∧
       get 6 scenario_heap 0 k = Some None ∧
       get 6 appended_heap 0 k = Some (Some 4) ∧
       (∀ l t, scenario_heap !! l = Some t →
               get 6 scenario_heap 0 (key t) = Some (Some l) ∧
               get 6 appended_heap 0 (key t) = Some (Some l)).
Proof.
  split; [split; [exact scenario_reachable | by vm_compute]|].
  apply (appendChild_then_get scenario_heap 1 record_with_children 4
           appended_heap 6 scenario_reachable).
  - by vm_compute.
  - vm_compute. lia.
Defined.

(** The children of a node are the nodes whose parent it is. *)
Lemma children_are (h : heap) l t x :
  tree_inv h → h !! l = Some t →
  x ∈ values (default [] (children t))
  ↔ ∃ tx, h !! x = Some tx ∧ parent tx = Some l.
Proof.
  intros Hinv Ht. pose proof (lookup_lt_Some _ _ _ Ht) as Hl. split.
  - intros Hx. destruct (children t) as [cs|] eqn:Hcs; simpl in Hx;
      [|by apply elem_of_nil in Hx].
    unfold values in Hx. apply list_elem_of_fmap in Hx as ([k c] & -> & Hin).
    apply list_elem_of_lookup in Hin as [i Hi].
    assert (Hl' : 0 ≤ l < length h) by lia.
    destruct (ok_children _ _ _ _ _ (tree_at_node _ _ _ _ _ (proj1 Hinv) Hl' Ht)
                          cs i k c Hcs Hi) as (_ & _ & tc & ? & _ & ?).
    by exists tc.
  - intros (tx & Hx & Hp).
    destruct (registered h Hinv x tx l Hx Hp)
      as (_ & tp & cs & i & Htp & Hcs & Hi & _).
    rewrite Ht in Htp. injection Htp as <-. rewrite Hcs. simpl.
    unfold values. apply list_elem_of_fmap. exists (key tx, x).
    split; [done|]. by eapply list_elem_of_lookup_2.
Qed.

(** X15: [findAllChildren] returns the matching nodes whose parent is the
    receiver, [findAllDescendants] the matching strict descendants, each
    once; every result of the first is a result of the second.
    [findOneChild] and [findOneDescendant] return the first results, so
    when the former finds a node, the latter finds one too. *)
Theorem findAll_children_among_descendants (h : heap) fuel l t P :
  reachable h → h !! l = Some t → length h ≤ fuel →
  ∃ rc rd,
    findAllChildren h l P = Some rc ∧
    findAllDescendants fuel h l P = Some rd ∧
    (∀ x, x ∈ rc ↔ (∃ tx, h !! x = Some tx ∧ parent tx = Some l) ∧
                    isMatch h x P = true) ∧
    (∀ x, x ∈ rd ↔ descends h l x ∧ isMatch h x P = true) ∧
    rc ⊆ rd ∧ NoDup rd ∧
    findOneChild h l P = Some (head rc) ∧
    findOneDescendant fuel h l P = Some (head rd) ∧
    (is_Some (head rc) → is_Some (head rd)).
Proof.
  intros Hinv%reachable_inv Ht Hfuel. pose proof (lookup_lt_Some _ _ _ Ht) as Hl.
  destruct (descendants_total h 0 (length h) (proj1 Hinv) fuel l) as [ds Hds];
    [lia | lia |].
  pose proof (descendants_descends h Hinv fuel l ds Hds) as Hin.
  pose proof (descendants_NoDup h Hinv fuel l ds Hl Hds) as Hnd.
  unfold findOneChild, findOneDescendant, findAllChildren, findAllDescendants,
    childrenList.
  rewrite Ht, Hds. simpl.
  exists (List.filter (λ node, isMatch h node P)
                      (values (default [] (children t)))),
         (List.filter (λ node, isMatch h node P) ds).
  assert (Hrc : ∀ x, x ∈ List.filter (λ node, isMatch h node P)
                           (values (default [] (children t)))
                     ↔ (∃ tx, h !! x = Some tx ∧ parent tx = Some l) ∧
                       isMatch h x P = true).
  { intros x. rewrite list_elem_of_In, filter_In, <- list_elem_of_In.
    by rewrite (children_are h l t x Hinv Ht). }
  assert (Hrd : ∀ x, x ∈ List.filter (λ node, isMatch h node P) ds
                     ↔ descends h l x ∧ isMatch h x P = true).
  { intros x. rewrite list_elem_of_In, filter_In, <- list_elem_of_In.
    by rewrite Hin. }
  assert (Hsub : List.filter (λ node, isMatch h node P)
                   (values (default [] (children t)))
                 ⊆ List.filter (λ node, isMatch h node P) ds).
  { intros x [(tx & Hx & Hp) Hm]%Hrc. apply Hrd. split; [|done].
    by eapply descends_child. }
  split_and!; try done.
  - by destruct (children t).
  - apply NoDup_ListNoDup, List.NoDup_filter, NoDup_ListNoDup, Hnd.
  - destruct (children t); simpl; [|done].
    by destruct (List.filter _ _).
  - intros [x Hx]. apply head_Some_elem_of, Hsub, list_elem_of_lookup in Hx.
    destruct Hx as [i Hi].
    destruct (List.filter (λ node, isMatch h node P) ds); [done | by eauto].
Qed.

Lemma findAll_children_among_descendants_witness :
  reachable scenario_heap ∧
  ∃ rc rd,
    findAllChildren scenario_heap 0
      (VObject [("data", VObject [("name", VString "b")])]) = Some rc ∧
    findAllDescendants 4 scenario_heap 0
      (VObject [("data", VObject [("name", VString "b")])]) = Some rd ∧
    (∀ x, x ∈ rc ↔ (∃ tx, scenario_heap !! x = Some tx ∧ parent tx = Some 0) ∧
                    isMatch scenario_heap x
                      (VObject [("data", VObject [("name", VString "b")])])
                    = true) ∧
    (∀ x, x ∈ rd ↔ descends scenario_heap 0 x ∧
                    isMatch scenario_heap x
                      (VObject [("data", VObject [("name", VString "b")])])
                    = true) ∧
    rc ⊆ rd ∧ NoDup rd ∧
    findOneChild scenario_heap 0
      (VObject [("data", VObject [("name", VString "b")])]) = Some (head rc) ∧
    findOneDescendant 4 scenario_heap 0
      (VObject [("data", VObject [("name", VString "b")])]) = Some (head rd) ∧
    (is_Some (head rc) → is_Some (head rd)).
Proof.
  split; [exact scenario_reachable|].
  apply (findAll_children_among_descendants scenario_heap 4 0 scenario_root
           (VObject [("data", VObject [("name", VString "b")])])
           scenario_reachable eq_refl).
  vm_compute. lia.
Defined.

(** ** Serializations can be constructed again *)

Lemma obj_get_set {A} k (v : A) o : obj_get k (obj_set k v o) = Some v.
Proof.
  induction o as [|[k' v'] o IH]; simpl.
  - by rewrite String.eqb_refl.
  - destruct (String.eqb k' k) eqn:Hk; simpl; by rewrite Hk.
Qed.

Lemma forEach_add_child_data this rest :
  Forall accepted_data rest →
  ∀ (h h' : heap) t cs,
    h !! this = Some t → children t = Some cs →
    forEach (add_child this) rest h = Some h' →
    ∀ x tx, h' !! x = Some tx →
            (∃ tx0, h !! x = Some tx0 ∧ data tx0 = data tx) ∨
            (length h ≤ x ∧ throws (data tx) = false).
Proof.
  induction 1 as [|child rest Hchild _ IH]; intros h h' t cs Ht Hcs; simpl.
  { intros [= <-] x tx Hx. left. by exists tx. }
  destruct (add_child this child h) as [h1|] eqn:Hstep; [|done]. simpl.
  intros Hrest x tx Hx.
  destruct (add_child_cell _ _ _ _ _ _ Ht Hcs Hstep) as [cs1 H1].
  rewrite (add_child_eq _ _ _ _ _ Ht Hcs) in Hstep.
  destruct (constructor child (Some this) h) as [[n hc]|] eqn:Hc; [|done].
  simpl in Hstep.
  destruct (constructor_alloc child _ _ _ _ Hc) as (-> & Hlen & Hold & _).
  destruct (hc !! length h) as [tc|]; [|done]. simpl in Hstep.
  injection Hstep as <-.
  pose proof (lookup_lt_Some _ _ _ Ht) as Hthis.
  destruct (IH _ _ _ cs1 H1 eq_refl Hrest x tx Hx)
    as [(tx1 & Hx1 & Hd)|[Hnew Hok]].
  - destruct (decide (x = this)) as [->|Hne].
    + rewrite list_lookup_insert_eq in Hx1 by lia. injection Hx1 as <-.
      left. by exists t.
    + rewrite list_lookup_insert_ne in Hx1 by done.
      destruct (decide (x < length h)) as [Hlt|Hge].
      * left. exists tx1. by rewrite <- Hold.
      * right. split; [lia|]. rewrite <- Hd.
        apply (Hchild _ _ _ _ Hc x tx1 Hx1). lia.
  - right. split; [|done]. rewrite length_insert in Hnew. lia.
Qed.

Lemma constructor_accepted props : accepted_data props.
Proof.
  cut (accepted_data props ∧
       match props with VArray cs => Forall accepted_data cs | _ => True end).
  { by intros [? _]. }
  assert (Hleaf : ∀ props par (h : heap) k l h',
            throws props = false →
            Some (length h, h ++ [mkTree k None props par]) = Some (l, h') →
            ∀ x tx, h' !! x = Some tx → length h ≤ x →
                    throws (data tx) = false).
  { intros X par h k l h' Hthrows [= <- <-] x tx Hx Hge.
    pose proof (lookup_lt_Some _ _ _ Hx) as Hlt.
    rewrite length_app in Hlt. simpl in Hlt.
    assert (x = length h) as -> by lia.
    rewrite list_lookup_middle in Hx by done. by injection Hx as <-. }
  induction props as [| |b|n|s|xs IH|fs IH] using value_ind';
    (split; [|try done]);
    try (intros par h l h'; rewrite constructor_unfold;
         destruct (next_key h par) as [k|]; [|done]; simpl;
         first [done | by apply Hleaf]).
  { eapply Forall_impl; [exact IH|]. by intros x [? _]. }
  intros par h l h' Hcons.
  assert (Hthrows : throws (VObject fs) = false).
  { destruct (throws (VObject fs)) eqn:Hthrows; [|done].
    apply (constructor_none_iff (VObject fs) par h) in Hthrows;
      [congruence | by eapply constructor_next_key]. }
  rewrite constructor_unfold in Hcons.
  destruct (next_key h par) as [k|]; [|done]. simpl in Hcons.
  destruct (obj_get "children" fs) as [ch|] eqn:Hch;
    [|by eapply Hleaf].
  destruct (truthy ch) eqn:Htruthy; [|by eapply Hleaf].
  destruct ch as [| |b|n|s|cs|gs]; try done.
  assert (Hcs : Forall accepted_data cs).
  { clear -IH Hch. induction fs as [|[k' v] fs IHfs]; [done|].
    apply Forall_cons in IH as [Hv IH]. simpl in Hch.
    destruct (String.eqb k' "children"); [|by apply IHfs].
    injection Hch as ->. simpl in Hv. by destruct Hv. }
  rewrite alter_app_r_alt in Hcons by lia. rewrite Nat.sub_diag in Hcons.
  simpl in Hcons.
  set (t1 := with_children (Some []) (mkTree k None (VObject fs) par)) in *.
  destruct (forEach (add_child (length h)) cs (h ++ [t1])) as [h2|] eqn:Hloop;
    [|done].
  injection Hcons as <- <-. intros x tx Hx Hge.
  destruct (forEach_add_child_data _ _ Hcs _ _ t1 []
              (list_lookup_middle _ _ _ _ eq_refl) eq_refl Hloop x tx Hx)
    as [(tx0 & Hx0 & <-)|[_ Hok]]; [|done].
  pose proof (lookup_lt_Some _ _ _ Hx0) as Hlt.
  rewrite length_app in Hlt. simpl in Hlt.
  assert (x = length h) as -> by lia.
  rewrite list_lookup_middle in Hx0 by done. by injection Hx0 as <-.
Qed.

(** In a reachable store every node holds a record the constructor
    accepts. *)
Lemma reachable_data (h : heap) :
  reachable h → ∀ x tx, h !! x = Some tx → throws (data tx) = false.
Proof.
  induction 1 as [X r h H|h this d n h' _ IH H]; intros x tx Hx.
  - apply (constructor_accepted X None [] r h H x tx Hx). simpl. lia.
  - destruct (appendChild_node _ _ _ _ _ H) as [t Ht].
    pose proof (lookup_lt_Some _ _ _ Ht) as Hthis. unfold appendChild in H.
    destruct (constructor d (Some this) h) as [[c h1]|] eqn:Hc; [|done].
    simpl in H. destruct (constructor_alloc d _ _ _ _ Hc) as (-> & Hlen & Hold & _).
    destruct (h1 !! length h) as [tc|]; [|done]. simpl in H.
    rewrite Hold, Ht in H by done. simpl in H.
    assert (Hh' : ∃ cs', h' = <[this := with_children (Some cs') t]> h1).
    { destruct (children t); injection H as <- <-; eauto. }
    destruct Hh' as [cs' ->]. clear H.
    destruct (decide (x = this)) as [->|Hne].
    + rewrite list_lookup_insert_eq in Hx by lia. injection Hx as <-.
      simpl. by apply (IH this t).
    + rewrite list_lookup_insert_ne in Hx by done.
      destruct (decide (x < length h)) as [Hlt|Hge].
      * rewrite Hold in Hx by done. by apply (IH x tx).
      * apply (constructor_accepted d _ _ _ _ Hc x tx Hx). lia.
Qed.

(** What [serialize] returns is a record the constructor accepts. *)
Lemma serialize_accepted (h : heap) :
  (∀ x tx, h !! x = Some tx → throws (data tx) = false) →
  ∀ fuel l v, serialize fuel h l = Some v → throws v = false.
Proof.
  intros Hdata. induction fuel as [|fuel IH]; intros l v; [done|]. simpl.
  destruct (h !! l) as [t|] eqn:Ht; [|done]. simpl.
  destruct (children t) as [cs|].
  - destruct (mapM (serialize fuel h) (values cs)) as [ser|] eqn:Hser; [|done].
    simpl. intros [= <-]. rewrite throws_unfold, obj_get_set. simpl.
    apply mapM_Some in Hser. clear -Hser IH.
    induction Hser as [|c v' cs' vs Hc _ IHs]; [done|]. simpl.
    by rewrite (IH c v' Hc).
  - intros [= <-]. by apply (Hdata l t).
Qed.

(** X16: for every record on which the constructor does not throw, well
    formed or not (a falsy [children], a primitive), building a tree from
    it and serializing the root returns the record. *)
Theorem constructor_roundtrip_unless_throws X :
  throws X = false →
  ∃ h, constructor X None [] = Some (0, h) ∧ reachable h ∧
       ∀ fuel, length h ≤ fuel → serialize fuel h 0 = Some X.
Proof.
  intros Hthrows.
  pose proof (constructor_spec X None [] "0" eq_refl canonical_root) as Hs.
  destruct (constructor X None []) as [[r h]|] eqn:Hc.
  - destruct Hs as (-> & _ & Htree & _ & Hser). exists h.
    split; [done|]. split; [by eapply reach_new|]. intros fuel Hfuel.
    pose proof (tree_at_bounds _ _ _ Htree).
    eapply serialize_enough; [done | simpl in *; lia | done | simpl in *; lia].
  - apply (constructor_none_iff X None []) in Hc; [congruence | by eexists].
Qed.

Lemma constructor_roundtrip_unless_throws_witness :
  throws (VObject [("name", VString "r"); ("children", VNumber 0)]) = false ∧
  ∃ h, constructor (VObject [("name", VString "r"); ("children", VNumber 0)])
         None [] = Some (0, h) ∧ reachable h ∧
       ∀ fuel, length h ≤ fuel →
               serialize fuel h 0
               = Some (VObject [("name", VString "r"); ("children", VNumber 0)]).
Proof.
  split; [reflexivity|].
  exact (constructor_roundtrip_unless_throws
           (VObject [("name", VString "r"); ("children", VNumber 0)]) eq_refl).
Defined.

(** X17: what [serialize] returns on a node of a tree can be given to the
    constructor again: [new Tree(v)] does not throw, and serializing the
    new tree returns [v]. *)
Theorem serialize_reconstructs (h : heap) fuel l :
  reachable h → l < length h → length h ≤ fuel →
  ∃ v h2, serialize fuel h l = Some v ∧
          constructor v None [] = Some (0, h2) ∧
          serialize (length h2) h2 0 = Some v.
Proof.
  intros Hreach Hl Hfuel. pose proof (reachable_inv h Hreach) as [Htree _].
  destruct (serialize_total h 0 (length h) Htree fuel l) as [v Hv]; [lia..|].
  pose proof (serialize_accepted h (reachable_data h Hreach) fuel l v Hv)
    as Hthrows.
  pose proof (constructor_spec v None [] "0" eq_refl canonical_root) as Hs.
  destruct (constructor v None []) as [[r h2]|] eqn:Hc.
  - destruct Hs as (-> & _ & Htree2 & _ & Hser). exists v, h2.
    split; [done|]. split; [done|].
    pose proof (tree_at_bounds _ _ _ Htree2).
    eapply serialize_enough; [done | simpl in *; lia | done | simpl in *; lia].
  - apply (constructor_none_iff v None []) in Hc; [congruence | by eexists].
Qed.

Lemma serialize_reconstructs_witness :
  reachable appended_heap ∧
  ∃ v h2, serialize 6 appended_heap 1 = Some v ∧
          constructor v None [] = Some (0, h2) ∧
          serialize (length h2) h2 0 = Some v.
Proof.
  split; [exact appended_reachable|].
  apply (serialize_reconstructs appended_heap 6 1 appended_reachable);
    vm_compute; lia.
Defined.

(** ** [get] in the two files *)

Lemma get_spec_witness :
  reachable scenario_heap ∧
  get 4 scenario_heap 2 (key scenario_b) = Some (Some 2) ∧
  (∀ d td, descends scenario_heap 2 d → scenario_heap !! d = Some td →
           get 4 scenario_heap 2 (key td) = Some (Some d)) ∧
  (∀ k, k ≠ key scenario_b →
        (∀ d td, descends scenario_heap 2 d → scenario_heap !! d = Some td →
                 key td ≠ k) →
        get 4 scenario_heap 2 k = Some None).
Proof.
  split; [exact scenario_reachable|].
  apply (get_spec scenario_heap 4 2 scenario_b scenario_reachable eq_refl).
  vm_compute. lia.
Defined.

(** X19: the [get] of [src/unnamed/part_000] differs from the [get] of
    [src/Tree.ts] on the receiver's own key only, for which it returns
    nothing; for every other key the two return the same. *)
Theorem part000_get_differs_on_own_key_only (h : heap) fuel l t k :
  reachable h → h !! l = Some t → length h ≤ fuel →
  Part000.get fuel h l k
  = if String.eqb (key t) k then Some None else get fuel h l k.
Proof.
  intros Hreach Ht Hfuel. destruct (String.eqb (key t) k) eqn:Hk.
  - apply String.eqb_eq in Hk as <-. by apply part000_get_misses_self.
  - unfold Part000.get, get.
    change (Part000.descendants fuel h l) with (descendants fuel h l).
    rewrite Ht. simpl. rewrite Hk. by destruct (descendants fuel h l).
Qed.

Lemma part000_get_differs_on_own_key_only_witness :
  reachable scenario_heap ∧
  Part000.get 4 scenario_heap 2 "0.1.0"
  = if String.eqb (key scenario_b) "0.1.0" then Some None
    else get 4 scenario_heap 2 "0.1.0".
Proof.
  split; [exact scenario_reachable|].
  apply (part000_get_differs_on_own_key_only scenario_heap 4 2 scenario_b
           "0.1.0" scenario_reachable eq_refl).
  vm_compute. lia.
Defined.

(** ** Paths of field values *)

Lemma field_of_lookup (h : heap) indexer a t :
  h !! a = Some t → field_of h indexer a = prop (data t) indexer.
Proof. intros H. unfold field_of. by rewrite H. Qed.

(** The read does not throw on a record the constructor accepts. *)
Lemma read_accepted v k : throws v = false → read v k = Some (prop v k).
Proof. by destruct v. Qed.

Lemma mapM_fields (h : heap) indexer anc :
  (∀ x tx, h !! x = Some tx → throws (data tx) = false) →
  Forall (λ a, is_Some (h !! a)) anc →
  mapM (λ a, ta ← h !! a; read (data ta) indexer) anc
  = Some (field_of h indexer <$> anc).
Proof.
  intros Hdata. induction 1 as [|a anc [ta Ha] _ IH]; [done|]. simpl.
  rewrite Ha. simpl. rewrite (read_accepted _ _ (Hdata a ta Ha)). simpl.
  rewrite IH. simpl. by rewrite (field_of_lookup _ _ _ _ Ha).
Qed.

(** [getPath] along the chain [c] of the node. *)
Lemma getPath_chain (h : heap) fuel l c indexer :
  (∀ x tx, h !! x = Some tx → throws (data tx) = false) →
  path_to h l c → length c ≤ fuel →
  getPath fuel h l indexer true = Some (field_of h indexer <$> c) ∧
  getPath fuel h l indexer false
  = Some (field_of h indexer <$> match c with [_] => c | _ => tail c end).
Proof.
  intros Hdata Hc Hfuel. pose proof (path_to_valid _ _ _ Hc) as Hvalid.
  pose proof (path_to_last _ _ _ Hc) as Hlast.
  apply last_Some in Hlast as [c' ->].
  apply Forall_app in Hvalid as [Hvalid [[t Ht] _]%Forall_cons].
  unfold getPath, ancestors. rewrite Ht. simpl.
  rewrite (ancestors_loop_spec _ _ _ Hc) by done. simpl.
  rewrite removelast_last. rewrite (read_accepted _ _ (Hdata l t Ht)). split.
  - rewrite rev_involutive, mapM_fields by done. simpl.
    rewrite fmap_app. simpl. by rewrite (field_of_lookup _ _ _ _ Ht).
  - destruct c' as [|r c']; [simpl; by rewrite (field_of_lookup _ _ _ _ Ht)|].
    simpl. rewrite removelast_last, rev_involutive.
    apply Forall_cons in Hvalid as [_ Hvalid].
    rewrite mapM_fields by done. simpl.
    assert (match c' ++ [l] with [] => r :: c' ++ [l] | _ => c' ++ [l] end
            = c' ++ [l]) as -> by by destruct c'.
    rewrite fmap_app. simpl. by rewrite (field_of_lookup _ _ _ _ Ht).
Qed.

(** C8: with [c] the chain of nodes from the root down to the node,
    [getPath(f, true)] is the field [f] of every node of [c], in order, and
    [getPath(f, false)] is the same without the root, except on the root
    itself, where it is the one-element path of the root's own value.  On
    the node ["0.1.0"] of the scenario tree the two paths are [b, c] and
    [r, b, c]. *)
Theorem getPath_spec :
  (∀ (h : heap) fuel l indexer,
     reachable h → l < length h → length h ≤ fuel →
     ∃ c, path_to h l c ∧ head c = Some 0 ∧
          getPath fuel h l indexer true = Some (field_of h indexer <$> c) ∧
          getPath fuel h l indexer false
          = Some (field_of h indexer <$>
                    match c with [_] => c | _ => tail c end)) ∧
  (∀ (h : heap) fuel indexer,
     reachable h → length h ≤ fuel →
     getPath fuel h 0 indexer false = Some [field_of h indexer 0]) ∧
  get 4 scenario_heap 0 "0.1.0" = Some (Some 3) ∧
  getPath 4 scenario_heap 3 "name" false = Some [VString "b"; VString "c"] ∧
  getPath 4 scenario_heap 3 "name" true
  = Some [VString "r"; VString "b"; VString "c"].
Proof.
  refine (conj _ (conj _ _)); [| |by vm_compute].
  - intros h fuel l indexer Hreach Hl Hfuel.
    pose proof (reachable_inv h Hreach) as Hinv.
    destruct (path_to_exists h Hinv l Hl) as (c & Hc & Hhead & Hlen).
    exists c. split; [done|]. split; [done|].
    apply getPath_chain; [by apply reachable_data | done | lia].
  - intros h fuel indexer Hreach Hfuel.
    pose proof (reachable_inv h Hreach) as [Htree (r & Hr & _ & Hrp)].
    assert (Hc : path_to h 0 [0]) by by eapply path_root.
    pose proof (lookup_lt_Some _ _ _ Hr).
    destruct (getPath_chain h fuel 0 [0] indexer (reachable_data h Hreach) Hc)
      as [_ H']; [simpl; lia|].
    exact H'.
Qed.

Lemma getPath_spec_witness :
  reachable appended_heap ∧
  ∃ c, path_to appended_heap 5 c ∧ head c = Some 0 ∧
       getPath 6 appended_heap 5 "name" true
       = Some (field_of appended_heap "name" <$> c) ∧
       getPath 6 appended_heap 5 "name" false
       = Some (field_of appended_heap "name" <$>
                 match c with [_] => c | _ => tail c end).
Proof.
  split; [exact appended_reachable|].
  refine (proj1 getPath_spec appended_heap 6 5 "name" appended_reachable _ _);
    vm_compute; lia.
Defined.

(** ** The data of the nodes *)

Lemma records_unfold fs :
  records (VObject fs)
  = VObject fs ::
    match obj_get "children" fs with
    | Some ch =>
        if truthy ch then
          match ch with
          | VArray cs => flat_map records cs
          | _ => []
          end
        else []
    | None => []
    end.
Proof.
  simpl. f_equal. induction fs as [|[k ch] fs IH]; [done|]. simpl.
  destruct (String.eqb k "children"); [|exact IH]. by destruct ch.
Qed.

Lemma forEach_add_child_records this rest :
  Forall records_data rest →
  ∀ (h h' : heap) t cs,
    h !! this = Some t → children t = Some cs →
    forEach (add_child this) rest h = Some h' →
    data <$> h' = (data <$> h) ++ flat_map records rest.
Proof.
  induction 1 as [|child rest Hchild _ IH]; intros h h' t cs Ht Hcs; simpl.
  { intros [= <-]. by rewrite app_nil_r. }
  destruct (add_child this child h) as [h1|] eqn:Hstep; [|done]. simpl.
  intros Hrest.
  destruct (add_child_cell _ _ _ _ _ _ Ht Hcs Hstep) as [cs1 H1].
  rewrite (IH _ _ _ cs1 H1 eq_refl Hrest), app_assoc. f_equal.
  rewrite (add_child_eq _ _ _ _ _ Ht Hcs) in Hstep.
  destruct (constructor child (Some this) h) as [[n hc]|] eqn:Hc; [|done].
  simpl in Hstep.
  destruct (constructor_alloc child _ _ _ _ Hc) as (-> & Hlen & Hold & _).
  destruct (hc !! length h) as [tc|]; [|done]. simpl in Hstep.
  injection Hstep as <-. rewrite <- (Hchild _ _ _ _ Hc).
  rewrite list_fmap_insert. simpl. apply list_insert_id.
  rewrite list_lookup_fmap, Hold by by eapply lookup_lt_Some. by rewrite Ht.
Qed.

Lemma constructor_records props : records_data props.
Proof.
  cut (records_data props ∧
       match props with VArray cs => Forall records_data cs | _ => True end).
  { by intros [? _]. }
  assert (Hleaf : ∀ props par (h : heap) k l h',
            Some (length h, h ++ [mkTree k None props par]) = Some (l, h') →
            data <$> h' = (data <$> h) ++ [props]).
  { intros X par h k l h' [= <- <-]. by rewrite fmap_app. }
  induction props as [| |b|n|s|xs IH|fs IH] using value_ind';
    (split; [|try done]);
    try (intros par h l h'; rewrite constructor_unfold;
         destruct (next_key h par) as [k|]; [|done]; simpl;
         first [done | by apply Hleaf]).
  { eapply Forall_impl; [exact IH|]. by intros x [? _]. }
  intros par h l h'. rewrite constructor_unfold, records_unfold.
  destruct (next_key h par) as [k|]; [|done]. simpl.
  destruct (obj_get "children" fs) as [ch|] eqn:Hch; [|by apply Hleaf].
  destruct (truthy ch) eqn:Htruthy; [|by apply Hleaf].
  destruct ch as [| |b|n|s|cs|gs]; try done.
  assert (Hcs : Forall records_data cs).
  { clear -IH Hch. induction fs as [|[k' v] fs IHfs]; [done|].
    apply Forall_cons in IH as [Hv IH]. simpl in Hch.
    destruct (String.eqb k' "children"); [|by apply IHfs].
    injection Hch as ->. simpl in Hv. by destruct Hv. }
  rewrite alter_app_r_alt by lia. rewrite Nat.sub_diag. simpl.
  set (t1 := with_children (Some []) (mkTree k None (VObject fs) par)).
  destruct (forEach (add_child (length h)) cs (h ++ [t1])) as [h2|] eqn:Hloop;
    [|done].
  simpl. intros [= <- <-].
  rewrite (forEach_add_child_records _ _ Hcs _ _ t1 []
             (list_lookup_middle _ _ _ _ eq_refl) eq_refl Hloop).
  by rewrite fmap_app, <- app_assoc.
Qed.

(** Induction on [mirrors], with the hypothesis for the children. *)
Lemma mirrors_ind' (h : heap) (P : loc → value → Prop) :
  (∀ l t X,
     h !! l = Some t → data t = X → children t = None →
     truthy (prop X "children") = false → P l X) →
  (∀ l t X m cs,
     h !! l = Some t → data t = X → children t = Some m →
     prop X "children" = VArray cs →
     Forall2 (mirrors h) (values m) cs → Forall2 P (values m) cs → P l X) →
  ∀ l X, mirrors h l X → P l X.
Proof.
  intros Hleaf Hnode. fix IH 3.
  intros l X [l' t X' H1 H2 H3 H4|l' t X' m cs H1 H2 H3 H4 H5].
  - exact (Hleaf l' t X' H1 H2 H3 H4).
  - refine (Hnode l' t X' m cs H1 H2 H3 H4 H5 _).
    revert H5. generalize (values m) cs. fix IHl 3.
    intros ls vs [|x y ls' vs' Hxy Hrest].
    + constructor.
    + constructor; [exact (IH x y Hxy) | exact (IHl ls' vs' Hrest)].
Qed.

(** Whether a subtree mirrors a record depends on its cells only. *)
Lemma mirrors_agree (h h' : heap) lo hi :
  tree_at h lo hi →
  ∀ l X, mirrors h l X →
         lo ≤ l < hi → (∀ c, l ≤ c < hi → h' !! c = h !! c) →
         mirrors h' l X.
Proof.
  intros Htree l X H.
  induction H as [l t X Hl Hd Hc Hf|l t X m cs Hl Hd Hc Hf _ IH]
    using mirrors_ind'; intros Hb Hag.
  - eapply mirrors_leaf; [|done..]. rewrite Hag by lia. done.
  - eapply mirrors_node; [|done..|]; [rewrite Hag by lia; done|].
    eapply Forall2_impl_elem; [exact IH|]. intros c v Hin Hcv. simpl in Hcv.
    unfold values in Hin. apply list_elem_of_fmap in Hin as ([k c'] & -> & Hin).
    apply list_elem_of_lookup in Hin as [i Hi].
    destruct (ok_children _ _ _ _ _ (tree_at_node _ _ _ _ _ Htree Hb Hl)
                          m i k c' Hc Hi) as (? & _).
    simpl in *. apply Hcv; [lia|]. intros x Hx. apply Hag. lia.
Qed.

(** One round of the constructor's loop: the new child mirrors its
    record, and the children entered before still mirror theirs. *)
Lemma add_child_mirrors h0 par k props child (h : heap) done :
  constructs child → mirrored child →
  building h0 par k props h done →
  (∃ t cs, h !! length h0 = Some t ∧ children t = Some cs ∧
           Forall2 (mirrors h) (values cs) done) →
  ∀ h', add_child (length h0) child h = Some h' →
        ∃ t cs, h' !! length h0 = Some t ∧ children t = Some cs ∧
                Forall2 (mirrors h') (values cs) (done ++ [child]).
Proof.
  intros Hc Hm ([ns Hns] & Htree & t' & cs' & Hroot' & Hk & Hp & Hd & Hcs' & _)
    (t & cs & Hroot & Hcs & Hmir) h' Hstep.
  rewrite Hroot in Hroot'. injection Hroot' as <-.
  rewrite Hcs in Hcs'. injection Hcs' as <-.
  pose proof (tree_at_bounds _ _ _ Htree) as Hb.
  assert (Hthis : length h0 ≤ length h0 < length h) by lia.
  pose proof (tree_at_node _ _ _ _ _ Htree Hthis Hroot) as Hok.
  pose proof (getNextChildKey_ok _ _ _ _ _ Hroot Hok) as Hnext.
  rewrite Hcs in Hnext. simpl in Hnext.
  pose proof (canonical_child (key t) (length cs) (ok_key _ _ _ _ _ Hok))
    as Hcan.
  specialize (Hc (Some (length h0)) h _ Hnext Hcan).
  rewrite (add_child_eq _ _ _ _ _ Hroot Hcs) in Hstep.
  destruct (constructor child (Some (length h0)) h) as [[l hc]|] eqn:Hcon;
    [|done].
  pose proof (Hm (Some (length h0)) h _ l hc Hnext Hcan Hcon) as Hmc.
  destruct Hc as (-> & [ns' ->] & Htree' & (tc & Htc & Hkc & _) & _).
  simpl in Hstep. rewrite Htc in Hstep. simpl in Hstep. injection Hstep as <-.
  rewrite obj_set_fresh
    by (rewrite Hkc; eapply children_keys_fresh; [exact Hok | done]).
  pose proof (tree_at_bounds _ _ _ Htree') as Hb'.
  exists (with_children (Some (cs ++ [(key tc, length h)])) t),
    (cs ++ [(key tc, length h)]).
  split; [|split; [done|]].
  { apply list_lookup_insert_eq. rewrite length_app. lia. }
  unfold values. rewrite fmap_app. apply Forall2_app.
  - eapply Forall2_impl_elem; [exact Hmir|]. intros c v Hin Hcv.
    unfold values in Hin. apply list_elem_of_fmap in Hin as ([kc c'] & -> & Hin).
    apply list_elem_of_lookup in Hin as [i Hi].
    destruct (ok_children _ _ _ _ _ Hok cs i kc c' Hcs Hi) as (Hc' & _).
    simpl in *.
    apply (mirrors_agree h _ (length h0) (length h) Htree _ _ Hcv); [lia|].
    intros x Hx. rewrite list_lookup_insert_ne by lia. apply lookup_app_l. lia.
  - constructor; [|constructor]. simpl.
    apply (mirrors_agree (h ++ ns') _ (length h) (length (h ++ ns')) Htree'
             _ _ Hmc); [lia|].
    intros x Hx. apply list_lookup_insert_ne. lia.
Qed.

Lemma forEach_add_child_mirrors h0 par k props rest :
  Forall constructs rest → Forall mirrored rest →
  ∀ (h : heap) done,
    building h0 par k props h done →
    (∃ t cs, h !! length h0 = Some t ∧ children t = Some cs ∧
             Forall2 (mirrors h) (values cs) done) →
    ∀ h', forEach (add_child (length h0)) rest h = Some h' →
          ∃ t cs, h' !! length h0 = Some t ∧ children t = Some cs ∧
                  Forall2 (mirrors h') (values cs) (done ++ rest).
Proof.
  intros Hcs Hms. revert Hms.
  induction Hcs as [|child rest Hchild _ IH]; intros Hms h done Hb Hmir h'; simpl.
  - intros [= <-]. by rewrite app_nil_r.
  - apply Forall_cons in Hms as [Hm Hms].
    pose proof (add_child_spec _ _ _ _ _ _ _ Hchild Hb) as Hstep.
    pose proof (add_child_mirrors _ _ _ _ _ _ _ Hchild Hm Hb Hmir) as Hstep'.
    destruct (add_child (length h0) child h) as [h1|]; [|done]. simpl.
    intros Hrest.
    destruct (IH Hms h1 _ Hstep (Hstep' h1 eq_refl) h' Hrest)
      as (t & cs & ? & ? & Hall).
    exists t, cs. by rewrite <- app_assoc in Hall.
Qed.

Lemma constructor_mirrors props : mirrored props.
Proof.
  cut (mirrored props ∧
       match props with VArray cs => Forall mirrored cs | _ => True end).
  { by intros [? _]. }
  assert (Hleaf : ∀ props par (h : heap) k l h',
            truthy (prop props "children") = false →
            Some (length h, h ++ [mkTree k None props par]) = Some (l, h') →
            mirrors h' l props).
  { intros X par h k l h' Hfalsy [= <- <-].
    eapply (mirrors_leaf _ _ (mkTree k None X par)); [|done..].
    by rewrite list_lookup_middle. }
  induction props as [| |b|n|s|xs IH|fs IH] using value_ind';
    (split; [|try done]);
    try (intros par h k l h' Hnext Hk; rewrite constructor_unfold, Hnext;
         simpl; first [done | by apply Hleaf]).
  { eapply Forall_impl; [exact IH|]. by intros x [? _]. }
  intros par h k l h' Hnext Hk. rewrite constructor_unfold, Hnext. simpl.
  destruct (obj_get "children" fs) as [ch|] eqn:Hch;
    [|apply Hleaf; simpl; by rewrite Hch].
  destruct (truthy ch) eqn:Htruthy; [|apply Hleaf; simpl; by rewrite Hch].
  destruct ch as [| |b|n|s|cs|gs]; try done.
  assert (Hcs : Forall mirrored cs).
  { clear -IH Hch. induction fs as [|[k' v] fs IHfs]; [done|].
    apply Forall_cons in IH as [Hv IH]. simpl in Hch.
    destruct (String.eqb k' "children"); [|by apply IHfs].
    injection Hch as ->. simpl in Hv. by destruct Hv. }
  assert (Hcs' : Forall constructs cs).
  { apply Forall_forall. intros c _. apply constructor_spec. }
  set (t0 := mkTree k None (VObject fs) par).
  set (t1 := with_children (Some []) t0).
  assert (Hstart : alter (with_children (Some [])) (length h) (h ++ [t0])
                   = h ++ [t1]).
  { rewrite alter_app_r_alt by lia. by rewrite Nat.sub_diag. }
  rewrite Hstart.
  assert (Hb : building h par k (VObject fs) (h ++ [t1]) []).
  { split; [eauto|]. split; [by apply tree_at_single|].
    exists t1, []. rewrite list_lookup_middle by done. by repeat split. }
  destruct (forEach (add_child (length h)) cs (h ++ [t1])) as [h2|] eqn:Hloop;
    [|done].
  simpl. intros [= <- <-].
  destruct (forEach_add_child_mirrors _ _ _ _ _ Hcs' Hcs _ _ Hb
              ltac:(exists t1, []; by rewrite list_lookup_middle) h2 Hloop)
    as (t & m & Ht & Hm & Hall).
  pose proof (forEach_add_child_spec _ _ _ _ _ Hcs' _ _ Hb) as Hspec.
  rewrite Hloop in Hspec.
  destruct Hspec as (_ & _ & t' & _ & Ht' & _ & _ & Hd & _).
  rewrite Ht in Ht'. injection Ht' as <-.
  eapply (mirrors_node _ _ t _ m cs); [done..| |done].
  simpl. by rewrite Hch.
Qed.

Lemma without_children_leaf fs :
  obj_get "children" fs = None → without_children (VObject fs) = VObject fs.
Proof.
  intros H. unfold without_children. f_equal.
  induction fs as [|[k v] fs IH]; [done|]. simpl in *.
  destruct (String.eqb k "children"); [done|]. simpl. by rewrite IH.
Qed.

Lemma without_children_same d :
  without_children d = d ↔ has_children_field d = false.
Proof.
  destruct d as [| |b|n|s|xs|fs]; try done. simpl.
  rewrite bool_decide_eq_false. split.
  - intros [= Hfs] [ch Hch].
    assert (Hlen : ∀ gs : list (string * value),
              is_Some (obj_get "children" gs) →
              length (List.filter (λ kv, negb (String.eqb kv.1 "children")) gs)
              < length gs).
    { clear. induction gs as [|[k v] gs IH]; intros [x Hx]; [done|].
      simpl in *. destruct (String.eqb k "children"); simpl.
      - pose proof (List.filter_length_le
                      (λ kv : string * value, negb (String.eqb kv.1 "children"))
                      gs). lia.
      - apply Nat.succ_lt_mono with (n := length _), IH. eauto. }
    specialize (Hlen fs (ex_intro _ ch Hch)). rewrite Hfs in Hlen. lia.
  - intros Hno. apply without_children_leaf.
    destruct (obj_get "children" fs); [|done]. destruct Hno. eauto.
Qed.

(** C4 as stated fails: the data of a node built from a record with a
    [children] field still has that field, so it differs from the record
    with the field removed.  This is so for the node ["0.1"] that the
    constructor builds inside the scenario tree, and for a node appended
    from such a record. *)
Lemma appendChild_data_keeps_children :
  (constructor scenario None [] = Some (0, scenario_heap) ∧
   data <$> scenario_heap !! 2 = Some record_with_children ∧
   data <$> scenario_heap !! 2 ≠ Some (without_children record_with_children)) ∧
  match appendChild scenario_heap 1 record_with_children with
  | Some (n, h') =>
      field_of h' "children" n = VArray [VObject [("name", VString "c")]] ∧
      prop (without_children record_with_children) "children" = VUndefined ∧
      data <$> h' !! n ≠ Some (without_children record_with_children)
  | None => False
  end.
Proof. vm_compute. by repeat split. Qed.

(** C4, amended: the data of every node is the record it was built from,
    with its [children] field when it has one.  This holds for every node
    of a tree the constructor builds and of a subtree [appendChild] adds:
    the subtree mirrors the record, node by node; the new cells of the
    store hold, in the order of their creation, the nested records of the
    input; and the old nodes keep their data.  A record equals itself
    without its [children] field exactly when it has no such field. *)
Theorem node_data_is_input_record :
  (∀ X r (h : heap),
     constructor X None [] = Some (r, h) →
     mirrors h r X ∧ data <$> h = records X) ∧
  (∀ (h : heap) this d n h',
     reachable h → appendChild h this d = Some (n, h') →
     mirrors h' n d ∧ n = length h ∧
     data <$> h' = (data <$> h) ++ records d) ∧
  (∀ (h : heap) l X,
     mirrors h l X →
     data <$> h !! l = Some X ∧
     (data <$> h !! l = Some (without_children X)
      ↔ has_children_field X = false)) ∧
  (∀ X par (h : heap) l h',
     constructor X par h = Some (l, h') →
     data <$> h' !! l = Some X ∧ data <$> h' = (data <$> h) ++ records X).
Proof.
  split_and!.
  - intros X r h H. split.
    + by apply (constructor_mirrors X None [] "0" r h eq_refl canonical_root).
    + by rewrite (constructor_records X _ _ _ _ H).
  - intros h this d n h' [Htree _]%reachable_inv H.
    destruct (appendChild_node _ _ _ _ _ H) as [t Ht].
    pose proof (lookup_lt_Some _ _ _ Ht) as Hthis.
    assert (Hthis' : 0 ≤ this < length h) by lia.
    pose proof (tree_at_node _ _ _ _ _ Htree Hthis' Ht) as Hok.
    pose proof (getNextChildKey_ok _ _ _ _ _ Ht Hok) as Hnext.
    pose proof (canonical_child (key t) (length (default [] (children t)))
                  (ok_key _ _ _ _ _ Hok)) as Hcan.
    pose proof (constructor_under h 0 this t d Htree Hthis' Ht) as Hc.
    unfold appendChild in H.
    destruct (constructor d (Some this) h) as [[c hc]|] eqn:Hcon; [|done].
    pose proof (constructor_mirrors d (Some this) h _ c hc Hnext Hcan Hcon)
      as Hm.
    pose proof (constructor_records d _ _ _ _ Hcon) as Hrec.
    destruct Hc as (-> & [ns ->] & Htree' & (tc & Htc & _) & _).
    simpl in H. rewrite Htc in H. simpl in H.
    rewrite (lookup_app_l_Some _ ns _ _ Ht) in H. simpl in H.
    assert (Hh' : n = length h ∧
                  ∃ cs', h' = <[this := with_children (Some cs') t]> (h ++ ns)).
    { destruct (children t); injection H as <- <-; eauto. }
    destruct Hh' as (-> & cs' & ->). clear H.
    pose proof (tree_at_bounds _ _ _ Htree') as Hb. split_and!; try done.
    + apply (mirrors_agree (h ++ ns) _ (length h) (length (h ++ ns)) Htree'
               _ _ Hm); [lia|].
      intros x Hx. apply list_lookup_insert_ne. lia.
    + rewrite <- Hrec, list_fmap_insert. simpl. apply list_insert_id.
      by rewrite list_lookup_fmap, (lookup_app_l_Some _ ns _ _ Ht).
  - intros h l X Hm.
    assert (Hd : data <$> h !! l = Some X).
    { destruct Hm as [l t X Hl <- _ _|l t X m cs Hl <- _ _ _]; by rewrite Hl. }
    split; [done|]. rewrite Hd, <- without_children_same.
    split; [by intros [= <-] | by intros ->].
  - intros X par h l h' H. split; [|exact (constructor_records X _ _ _ _ H)].
    destruct (constructor_alloc X _ _ _ _ H) as (_ & _ & _ & t & -> & <- & _).
    done.
Qed.

Lemma node_data_is_input_record_witness :
  (constructor scenario None [] = Some (0, scenario_heap) ∧
   mirrors scenario_heap 0 scenario ∧
   data <$> scenario_heap = records scenario) ∧
  ((reachable scenario_heap ∧
    appendChild scenario_heap 1 record_with_children
    = Some (4, appended_heap)) ∧
   mirrors appended_heap 4 record_with_children ∧ 4 = length scenario_heap ∧
   data <$> appended_heap
   = (data <$> scenario_heap) ++ records record_with_children).
Proof.
  split.
  - split; [by vm_compute|].
    refine (proj1 node_data_is_input_record scenario 0 scenario_heap _).
    by vm_compute.
  - split; [split; [exact scenario_reachable | by vm_compute]|].
    refine (proj1 (proj2 node_data_is_input_record) scenario_heap 1
              record_with_children 4 appended_heap scenario_reachable _).
    by vm_compute.
Defined.

(** ** The next key *)

(** C7: [getNextChildKey] leaves the store as it is, and asking again
    gives the same key.  It returns the own key followed by [".0"] when the
    node has no children object or an empty one; otherwise, when the key
    inserted last is the numbers [pre ++ [n]] joined by dots, each of
    magnitude below 2^53, it returns [pre ++ [n + 1]] joined by dots.  In a
    reachable tree of fewer than 2^53 nodes this is the own key followed by
    the number of children. *)
Theorem getNextChildKey_spec (h : heap) this t :
  h !! this = Some t →
  (∃ k, getNextChildKey_call h this = Some (k, h) ∧
        getNextChildKey h this = Some k ∧
        ∀ k' h', getNextChildKey_call h this = Some (k', h') →
                 h' = h ∧ k' = k) ∧
  (children t = None ∨ children t = Some [] →
   getNextChildKey h this = Some (key t +:+ ".0")) ∧
  (∀ cs lastKey c pre n,
     children t = Some (cs ++ [(lastKey, c)]) →
     lastKey = join_dot (toString <$> (pre ++ [n])) →
     forallb safe (pre ++ [n]) = true →
     getNextChildKey h this = Some (join_dot (toString <$> (pre ++ [incr n]))) ∧
     match n with
     | Int z => incr n = Int (z + 1) ∧ (Z.abs (z + 1) <= 2 ^ 53)%Z
     | NaN => incr n = NaN
     end) ∧
  (reachable h → (Z.of_nat (length h) < 2 ^ 53)%Z →
   getNextChildKey h this
   = Some (child_key (key t) (length (default [] (children t))))).
Proof.
  intros Ht. split_and!.
  - destruct (getNextChildKey_total h this t Ht) as [k Hk]. exists k.
    unfold getNextChildKey_call. rewrite Hk. simpl. split_and!; try done.
    by intros k' h' [= <- <-].
  - unfold getNextChildKey. rewrite Ht. simpl. by intros [->| ->].
  - intros cs lastKey c pre n Hcs -> Hsafe. split.
    + unfold getNextChildKey. rewrite Ht. simpl. rewrite Hcs.
      unfold keys. rewrite fmap_app. simpl.
      rewrite last_snoc. rewrite segments_join by by destruct pre.
      by rewrite alter_last, fmap_app.
    + rewrite forallb_app in Hsafe. apply andb_true_iff in Hsafe as [_ Hn].
      simpl in Hn. rewrite andb_true_r in Hn. destruct n as [|z]; [done|].
      split; [done|]. simpl in Hn. apply Z.ltb_lt in Hn. lia.
  - intros [Htree _]%reachable_inv _.
    assert (Hthis : 0 ≤ this < length h).
    { apply lookup_lt_Some in Ht. lia. }
    exact (getNextChildKey_ok _ _ _ _ _ Ht
             (tree_at_node _ _ _ _ _ Htree Hthis Ht)).
Qed.

Lemma getNextChildKey_spec_witness :
  (∃ k, getNextChildKey_call scenario_heap 0 = Some (k, scenario_heap) ∧
        getNextChildKey scenario_heap 0 = Some k ∧
        ∀ k' h', getNextChildKey_call scenario_heap 0 = Some (k', h') →
                 h' = scenario_heap ∧ k' = k) ∧
  getNextChildKey scenario_heap 0 = Some "0.2" ∧
  getNextChildKey scenario_heap 1 = Some "0.0.0" ∧
  (reachable scenario_heap ∧
   getNextChildKey scenario_heap 2 = Some (child_key "0.1" 1)).
Proof.
  split_and!.
  - exact (proj1 (getNextChildKey_spec scenario_heap 0 scenario_root eq_refl)).
  - refine (proj1 (proj1 (proj2 (proj2 (getNextChildKey_spec scenario_heap 0
                                          scenario_root eq_refl)))
                         [("0.0", 1)] "0.1" 2 [Int 0] (Int 1)
                         eq_refl eq_refl eq_refl)).
  - refine (proj1 (proj2 (getNextChildKey_spec scenario_heap 1 _ eq_refl)) _).
    by left.
  - exact scenario_reachable.
  - refine (proj2 (proj2 (proj2 (getNextChildKey_spec scenario_heap 2
                                   scenario_b eq_refl)))
                  scenario_reachable _).
    by vm_compute.
Defined.

(** ** Lookups: the first match *)

(** What [find] returns: the first element that satisfies [f], or nothing
    when no element does. *)
Lemma find_first {A} (f : A → bool) (l : list A) :
  match find f l with
  | Some x =>
      ∃ i, l !! i = Some x ∧ f x = true ∧
           ∀ j y, j < i → l !! j = Some y → f y = false
  | None => ∀ y, y ∈ l → f y = false
  end.
Proof.
  induction l as [|a l IH]; simpl.
  - by intros y ?%elem_of_nil.
  - destruct (f a) eqn:Ha.
    + exists 0. split_and!; try done. intros j y Hj. lia.
    + destruct (find f l) as [x|].
      * destruct IH as (i & Hi & Hx & Hbefore). exists (S i).
        split_and!; try done. intros [|j] y Hj Hy; simpl in Hy.
        -- by injection Hy as <-.
        -- apply (Hbefore j); [lia | done].
      * intros y [->|Hy]%elem_of_cons; [done | by apply IH].
Qed.

(** Two positions of a concatenation lie in one of the lists, in the same
    order, or in two of them, the earlier position in the earlier list. *)
Lemma concat_positions {A} (ls : list (list A)) i j x y :
  concat ls !! i = Some x → concat ls !! j = Some y → i < j →
  (∃ a l i' j', ls !! a = Some l ∧ l !! i' = Some x ∧ l !! j' = Some y ∧
                i' < j') ∨
  (∃ a b la lb, a < b ∧ ls !! a = Some la ∧ ls !! b = Some lb ∧
                x ∈ la ∧ y ∈ lb).
Proof.
  revert i j. induction ls as [|l ls IH]; intros i j Hi Hj Hij; [done|].
  simpl in Hi, Hj.
  apply lookup_app_Some in Hi as [Hi|[Hil Hi]];
    apply lookup_app_Some in Hj as [Hj|[Hjl Hj]].
  - left. by exists 0, l, i, j.
  - right. apply list_elem_of_lookup_2 in Hi.
    apply list_elem_of_lookup_2, list_elem_of_In, in_concat in Hj
      as (lb & Hlb & Hy).
    apply list_elem_of_In in Hy.
    apply list_elem_of_In, list_elem_of_lookup in Hlb as [b Hb].
    exists 0, (S b), l, lb. split_and!; try done. lia.
  - apply lookup_lt_Some in Hj. lia.
  - destruct (IH (i - length l) (j - length l) Hi Hj ltac:(lia))
      as [(a & l' & i' & j' & ? & ? & ? & ?)|(a & b & la & lb & ? & ? & ? & ? & ?)].
    + left. by exists (S a), l', i', j'.
    + right. exists (S a), (S b), la, lb. split_and!; try done. lia.
Qed.

Section Order.
Context (h : heap) (Hinv : tree_inv h).

(** [descendants] lists the nodes in the order of the walk. *)
Lemma descendants_before fuel :
  ∀ l ds i j x y,
    descendants fuel h l = Some ds →
    ds !! i = Some x → ds !! j = Some y → i < j → before h x y.
Proof.
  induction fuel as [|fuel IH]; intros l ds i j x y Hds Hi Hj Hij; [done|].
  apply descendants_unfold in Hds as (t & Ht & Hds).
  destruct (children t) as [cs|] eqn:Hcs; [|by subst ds].
  destruct Hds as (dss & Hdss & ->).
  assert (Hblock : ∀ a la, zip_with cons (values cs) dss !! a = Some la →
            ∃ k c dc, cs !! a = Some (k, c) ∧ la = c :: dc ∧
                      descendants fuel h c = Some dc).
  { intros a la Ha. apply lookup_zip_with_Some in Ha as (c & dc & -> & Hc & Hdc).
    pose proof (Forall2_lookup_lr _ _ _ _ _ _ Hdss Hc Hdc) as Hcd.
    unfold values in Hc. rewrite list_lookup_fmap in Hc.
    destruct (cs !! a) as [[k c']|]; [|done]. injection Hc as <-.
    by exists k, c', dc. }
  assert (Hin : ∀ c dc z, descendants fuel h c = Some dc →
                          z ∈ c :: dc → z = c ∨ descends h c z).
  { intros c dc z Hdc [->|Hz]%elem_of_cons; [by left | right].
    by apply (descendants_descends h Hinv fuel c dc Hdc). }
  destruct (concat_positions _ _ _ _ _ Hi Hj Hij)
    as [(a & la & i' & j' & Ha & Hi' & Hj' & Hij')
       |(a & b & la & lb & Hab & Ha & Hb & Hx & Hy)].
  - destruct (Hblock a la Ha) as (k & c & dc & Hc & -> & Hdc).
    destruct i' as [|i']; destruct j' as [|j']; simpl in *; try lia.
    + injection Hi' as ->. left.
      apply (descendants_descends h Hinv fuel x dc Hdc).
      by eapply list_elem_of_lookup_2.
    + apply (IH c dc i' j'); [done..|lia].
  - destruct (Hblock a la Ha) as (ka & ca & dca & Hca & -> & Hdca).
    destruct (Hblock b lb Hb) as (kb & cb & dcb & Hcb & -> & Hdcb).
    right. exists l, t, cs, a, b, ka, ca, kb, cb. split_and!; try done.
    + by eapply Hin.
    + by eapply Hin.
Qed.

End Order.

Lemma values_lookup {A} (cs : list (string * A)) i x :
  values cs !! i = Some x ↔ ∃ k, cs !! i = Some (k, x).
Proof.
  unfold values. rewrite list_lookup_fmap.
  destruct (cs !! i) as [[k c]|]; simpl.
  - split; [intros [= <-]; by exists k | by intros (? & [= _ <-])].
  - split; [done | by intros (? & ?)].
Qed.

(** C9: on every node of a reachable tree, and for every argument, [get],
    [findOneChild] and [findOneDescendant] return, and so does the [get]
    of [src/unnamed/part_000].  [get] returns the node of the subtree that
    carries the key (there is one at most), the receiver included, and is
    absent when no node of the subtree carries it.  [findOneChild] returns
    the first entry of the children object that matches, and is absent when
    no child matches.  [findOneDescendant] returns a descendant that
    matches and that comes before every other descendant that matches, in
    the order of the walk; it is absent when no descendant matches.  The
    [get] of [part_000] looks at the strict descendants only. *)
Theorem lookups_return (h : heap) fuel l t k P :
  reachable h → h !! l = Some t → length h ≤ fuel →
  (∃ r, get fuel h l k = Some r ∧
        match r with
        | Some x =>
            (x = l ∨ descends h l x) ∧ key <$> h !! x = Some k ∧
            ∀ y ty, y = l ∨ descends h l y → h !! y = Some ty → key ty = k →
                    y = x
        | None =>
            ∀ y ty, y = l ∨ descends h l y → h !! y = Some ty → key ty ≠ k
        end) ∧
  (∃ r, findOneChild h l P = Some r ∧
        match r with
        | Some x =>
            ∃ cs i kx,
              children t = Some cs ∧ cs !! i = Some (kx, x) ∧
              isMatch h x P = true ∧
              ∀ j ky y, j < i → cs !! j = Some (ky, y) → isMatch h y P = false
        | None =>
            ∀ cs i kx x, children t = Some cs → cs !! i = Some (kx, x) →
                         isMatch h x P = false
        end) ∧
  (∃ r, findOneDescendant fuel h l P = Some r ∧
        match r with
        | Some x =>
            descends h l x ∧ isMatch h x P = true ∧
            ∀ y, descends h l y → isMatch h y P = true → y = x ∨ before h x y
        | None => ∀ y, descends h l y → isMatch h y P = false
        end) ∧
  (∃ r, Part000.get fuel h l k = Some r ∧
        match r with
        | Some x => descends h l x ∧ key <$> h !! x = Some k
        | None => ∀ y ty, descends h l y → h !! y = Some ty → key ty ≠ k
        end).
Proof.
  intros Hinv%reachable_inv Ht Hfuel.
  pose proof (keys_unique h Hinv) as Huniq.
  pose proof (lookup_lt_Some _ _ _ Ht) as Hl.
  destruct (descendants_total h 0 (length h) (proj1 Hinv) fuel l) as [ds Hds];
    [lia | lia |].
  pose proof (descendants_descends h Hinv fuel l ds Hds) as Hin.
  pose proof (find_first (key_is h k) ds) as Hkey.
  assert (Hkey' : match find (key_is h k) ds with
                  | Some x => descends h l x ∧ key <$> h !! x = Some k
                  | None =>
                      ∀ y ty, descends h l y → h !! y = Some ty → key ty ≠ k
                  end).
  { destruct (find (key_is h k) ds) as [x|].
    - destruct Hkey as (i & Hi & Hx & _). split.
      + by eapply Hin, list_elem_of_lookup_2.
      + unfold key_is in Hx. destruct (h !! x) as [tx|]; [|done]. simpl.
        by apply String.eqb_eq in Hx as ->.
    - intros y ty Hy%Hin Hty Hk. specialize (Hkey y Hy). unfold key_is in Hkey.
      rewrite Hty in Hkey. by apply String.eqb_neq in Hkey. }
  split_and!.
  - unfold get. rewrite Ht, Hds. simpl.
    destruct (String.eqb_spec (key t) k) as [Hk|Hk].
    + eexists. split; [done|]. simpl. rewrite Ht. simpl. rewrite Hk.
      split_and!; [by left | done |].
      intros y ty Hy Hty Hky. eapply Huniq; [done..|congruence].
    + eexists. split; [done|].
      destruct (find (key_is h k) ds) as [x|].
      * destruct Hkey' as [Hx Hkx]. split_and!; [by right | done |].
        intros y ty Hy Hty Hky. destruct (h !! x) as [tx|] eqn:Htx; [|done].
        simpl in Hkx. eapply Huniq; [done..|congruence].
      * intros y ty [->|Hy] Hty; [congruence | by eapply Hkey'].
  - unfold findOneChild, findAllChildren, childrenList. rewrite Ht. simpl.
    destruct (children t) as [cs|] eqn:Hcs; simpl.
    + rewrite filter_first. eexists. split; [done|].
      pose proof (find_first (λ n, isMatch h n P) (values cs)) as Hfind.
      destruct (find (λ n, isMatch h n P) (values cs)) as [x|].
      * destruct Hfind as (i & [kx Hi]%values_lookup & Hx & Hfirst).
        exists cs, i, kx. split_and!; try done.
        intros j ky y Hj Hy. apply (Hfirst j); [done|].
        apply values_lookup. by exists ky.
      * intros cs' i kx x [= <-] Hi. apply Hfind.
        eapply list_elem_of_lookup_2, values_lookup. by exists kx.
    + eexists. split; [done|]. by intros.
  - unfold findOneDescendant, findAllDescendants. rewrite Hds. simpl.
    rewrite filter_first. eexists. split; [done|].
    pose proof (find_first (λ n, isMatch h n P) ds) as Hfind.
    destruct (find (λ n, isMatch h n P) ds) as [x|].
    + destruct Hfind as (i & Hi & Hx & Hfirst).
      split_and!; [by eapply Hin, list_elem_of_lookup_2 | done |].
      intros y [j Hj]%Hin%list_elem_of_lookup Hy.
      destruct (Nat.lt_trichotomy i j) as [Hij|[->|Hij]].
      * right. by eapply (descendants_before h Hinv fuel l ds i j).
      * left. congruence.
      * rewrite (Hfirst j y Hij Hj) in Hy. done.
    + intros y Hy%Hin. by apply Hfind.
  - unfold Part000.get.
    change (Part000.descendants fuel h l) with (descendants fuel h l).
    rewrite Hds. simpl. by eexists.
Qed.

Lemma lookups_return_witness :
  (reachable scenario_heap ∧
   get 4 scenario_heap 0 "0.1.0" = Some (Some 3) ∧
   findOneChild scenario_heap 0 (VObject [("isRoot", VBool false)])
   = Some (Some 1) ∧
   findOneDescendant 4 scenario_heap 0 (VObject [("isRoot", VBool false)])
   = Some (Some 1) ∧
   findAllDescendants 4 scenario_heap 0 (VObject [("isRoot", VBool false)])
   = Some [1; 2; 3] ∧
   Part000.get 4 scenario_heap 0 "0.1.0" = Some (Some 3)) ∧
  (∃ r, get 4 scenario_heap 0 "0.1.0" = Some r ∧
        match r with
        | Some x =>
            (x = 0 ∨ descends scenario_heap 0 x) ∧
            key <$> scenario_heap !! x = Some "0.1.0" ∧
            ∀ y ty, y = 0 ∨ descends scenario_heap 0 y →
                    scenario_heap !! y = Some ty → key ty = "0.1.0" → y = x
        | None =>
            ∀ y ty, y = 0 ∨ descends scenario_heap 0 y →
                    scenario_heap !! y = Some ty → key ty ≠ "0.1.0"
        end) ∧
  (∃ r, findOneChild scenario_heap 0 (VObject [("isRoot", VBool false)])
        = Some r ∧
        match r with
        | Some x =>
            ∃ cs i kx,
              children scenario_root = Some cs ∧ cs !! i = Some (kx, x) ∧
              isMatch scenario_heap x (VObject [("isRoot", VBool false)])
              = true ∧
              ∀ j ky y, j < i → cs !! j = Some (ky, y) →
                        isMatch scenario_heap y
                          (VObject [("isRoot", VBool false)]) = false
        | None =>
            ∀ cs i kx x, children scenario_root = Some cs →
                         cs !! i = Some (kx, x) →
                         isMatch scenario_heap x
                           (VObject [("isRoot", VBool false)]) = false
        end) ∧
  (∃ r, findOneDescendant 4 scenario_heap 0 (VObject [("isRoot", VBool false)])
        = Some r ∧
        match r with
        | Some x =>
            descends scenario_heap 0 x ∧
            isMatch scenario_heap x (VObject [("isRoot", VBool false)])
            = true ∧
            ∀ y, descends scenario_heap 0 y →
                 isMatch scenario_heap y (VObject [("isRoot", VBool false)])
                 = true →
                 y = x ∨ before scenario_heap x y
        | None =>
            ∀ y, descends scenario_heap 0 y →
                 isMatch scenario_heap y (VObject [("isRoot", VBool false)])
                 = false
        end) ∧
  (∃ r, Part000.get 4 scenario_heap 0 "0.1.0" = Some r ∧
        match r with
        | Some x =>
            descends scenario_heap 0 x ∧
            key <$> scenario_heap !! x = Some "0.1.0"
        | None =>
            ∀ y ty, descends scenario_heap 0 y →
                    scenario_heap !! y = Some ty → key ty ≠ "0.1.0"
        end).
Proof.
  split; [split; [exact scenario_reachable | by vm_compute]|].
  apply (lookups_return scenario_heap 4 0 scenario_root "0.1.0"
           (VObject [("isRoot", VBool false)]) scenario_reachable eq_refl).
  vm_compute. lia.
Defined.

(** ** Matching *)

Lemma baseIsEqual_object (h : heap) o fs :
  baseIsEqual h o (VObject fs)
  = isObject o &&
    forallb (λ kv : string * value,
               match object_prop h o kv.1 with
               | Some o' => baseIsEqual h o' kv.2
               | None => false
               end) fs.
Proof.
  simpl. f_equal. induction fs as [|[k v] fs IH]; [done|]. simpl.
  by rewrite IH.
Qed.

(** A predicate object matches an object when each of its fields is
    present there with a matching value. *)
Lemma baseIsEqual_fields (h : heap) o fs :
  baseIsEqual h o (VObject fs) = true ↔
  isObject o = true ∧
  ∀ k v, (k, v) ∈ fs →
         ∃ o', object_prop h o k = Some o' ∧ baseIsEqual h o' v = true.
Proof.
  rewrite baseIsEqual_object, andb_true_iff, forallb_forall.
  split; intros [Hobj Hfs]; (split; [done|]).
  - intros k v Hin%list_elem_of_In. specialize (Hfs (k, v) Hin). simpl in Hfs.
    destruct (object_prop h o k) as [o'|]; [by exists o' | done].
  - intros [k v] Hin%list_elem_of_In.
    destruct (Hfs k v Hin) as (o' & Ho' & Heq). simpl. by rewrite Ho'.
Qed.

Lemma forallb_agree {A} (f g : A → bool) (l : list A) :
  (∀ x, x ∈ l → f x = g x) → forallb f l = forallb g l.
Proof.
  induction l as [|a l IH]; intros H; [done|]. simpl.
  rewrite (H a) by left. f_equal. apply IH. intros x Hx. apply H. by right.
Qed.

(** The results of a filter keep the order of the list. *)
Lemma filter_positions {A} (f : A → bool) (l : list A) i j x y :
  List.filter f l !! i = Some x → List.filter f l !! j = Some y → i < j →
  ∃ i' j', i' < j' ∧ l !! i' = Some x ∧ l !! j' = Some y.
Proof.
  revert i j. induction l as [|a l IH]; intros i j Hi Hj Hij; [done|].
  simpl in Hi, Hj. destruct (f a).
  - destruct i as [|i], j as [|j]; simpl in *; try lia.
    + injection Hi as <-.
      apply list_elem_of_lookup_2, list_elem_of_In, filter_In in Hj as [Hj _].
      apply list_elem_of_In, list_elem_of_lookup in Hj as [j' Hj'].
      exists 0, (S j'). split_and!; [lia | done | done].
    + destruct (IH i j Hi Hj ltac:(lia)) as (i' & j' & ? & ? & ?).
      exists (S i'), (S j'). split_and!; [lia | done | done].
  - destruct (IH i j Hi Hj Hij) as (i' & j' & ? & ? & ?).
    exists (S i'), (S j'). split_and!; [lia | done | done].
Qed.

(** C2 as stated fails: the candidates are the [Tree] objects, which have
    no [name] field, so the predicates of the scenario match no node. *)
Lemma find_by_payload_field_finds_nothing :
  findAllChildren scenario_heap 0 (VObject [("name", VString "a")]) = Some [] ∧
  findAllDescendants 4 scenario_heap 0 (VObject [("name", VString "c")])
  = Some [] ∧
  childrenList scenario_heap 0 = Some [1; 2] ∧
  descendants 4 scenario_heap 0 = Some [1; 2; 3] ∧
  field_of scenario_heap "name" 1 = VString "a" ∧
  field_of scenario_heap "name" 3 = VString "c".
Proof. by vm_compute. Qed.

(** C2, amended: the predicate is matched against the [Tree] object.  On
    the scenario tree [findAllChildren({data: {name: "a"}})] is exactly the
    node named "a", [findAllDescendants({data: {name: "c"}})] is exactly
    the node named "c", and [findOneChild] finds no child for "c"; nested
    predicate fields are matched in turn, so
    [findAllChildren({data: {children: [{name: "c"}]}})] is the node named
    "b"; a predicate with a field [name] matches no [Tree] object.  In
    general, on every node of a reachable tree, [findAllChildren] keeps
    the entries of the children object that match, in their order, and
    [findAllDescendants] keeps exactly the strict descendants that match,
    in the order of the walk.  A predicate object matches a [Tree] object
    when each of its fields is a property of the [Tree] object with a
    matching value; what else the candidate has is ignored: two records
    that agree on the fields a predicate names match it alike. *)
Theorem find_matches_tree_objects :
  (findAllChildren scenario_heap 0
     (VObject [("data", VObject [("name", VString "a")])]) = Some [1] ∧
   field_of scenario_heap "name" 1 = VString "a" ∧
   findAllDescendants 4 scenario_heap 0
     (VObject [("data", VObject [("name", VString "c")])]) = Some [3] ∧
   field_of scenario_heap "name" 3 = VString "c" ∧
   findOneChild scenario_heap 0 (VObject [("name", VString "c")]) = Some None ∧
   findOneChild scenario_heap 0
     (VObject [("data", VObject [("name", VString "c")])]) = Some None ∧
   findAllChildren scenario_heap 0
     (VObject [("data",
                VObject [("children",
                          VArray [VObject [("name", VString "c")]])])])
   = Some [2]) ∧
  (∀ (h : heap) n v fs,
     isMatch h n (VObject (("name", v) :: fs)) = false) ∧
  (∀ (h : heap) fuel l t P,
     reachable h → h !! l = Some t → length h ≤ fuel →
     ∃ rd,
       findAllChildren h l P
       = Some (List.filter (λ n, isMatch h n P)
                           (values (default [] (children t)))) ∧
       findAllDescendants fuel h l P = Some rd ∧
       (∀ x, x ∈ rd ↔ descends h l x ∧ isMatch h x P = true) ∧
       (∀ i j x y, rd !! i = Some x → rd !! j = Some y → i < j →
                   before h x y)) ∧
  (∀ (h : heap) n fs,
     isMatch h n (VObject fs) = true ↔
     ∀ k v, (k, v) ∈ fs →
            ∃ o, node_prop h n k = Some o ∧ baseIsEqual h o v = true) ∧
  (∀ (h : heap) n P,
     isMatch h n (VObject [("data", P)])
     = match h !! n with
       | Some t => baseIsEqual h (OValue (data t)) P
       | None => false
       end) ∧
  (∀ (h : heap) gs gs' fs,
     (∀ k v, (k, v) ∈ fs → obj_get k gs' = obj_get k gs) →
     baseIsEqual h (OValue (VObject gs')) (VObject fs)
     = baseIsEqual h (OValue (VObject gs)) (VObject fs)).
Proof.
  refine (conj _ (conj _ (conj _ (conj _ (conj _ _))))).
  - by vm_compute.
  - intros h n v fs. unfold isMatch. rewrite baseIsEqual_object. simpl.
    unfold node_prop. by destruct (h !! n).
  - intros h fuel l t P Hinv%reachable_inv Ht Hfuel.
    pose proof (lookup_lt_Some _ _ _ Ht) as Hl.
    destruct (descendants_total h 0 (length h) (proj1 Hinv) fuel l)
      as [ds Hds]; [lia | lia |].
    pose proof (descendants_descends h Hinv fuel l ds Hds) as Hin.
    exists (List.filter (λ n, isMatch h n P) ds).
    unfold findAllChildren, findAllDescendants, childrenList.
    rewrite Ht, Hds. simpl. split_and!; try done.
    + by destruct (children t).
    + intros x. rewrite list_elem_of_In, filter_In, <- list_elem_of_In.
      by rewrite Hin.
    + intros i j x y Hi Hj Hij.
      destruct (filter_positions _ _ _ _ _ _ Hi Hj Hij)
        as (i' & j' & Hij' & Hi' & Hj').
      by eapply (descendants_before h Hinv fuel l ds i' j').
  - intros h n fs. unfold isMatch. rewrite baseIsEqual_fields. simpl.
    split; [by intros [_ ?] | done].
  - intros h n P. unfold isMatch. rewrite baseIsEqual_object. simpl.
    unfold node_prop. destruct (h !! n) as [t|]; [|done]. simpl.
    by rewrite andb_true_r.
  - intros h gs gs' fs Hag. rewrite !baseIsEqual_object. simpl.
    apply forallb_agree. intros [k v] Hin. simpl.
    by rewrite (Hag k v Hin).
Qed.

Lemma find_matches_tree_objects_witness :
  (reachable scenario_heap ∧
   findAllChildren scenario_heap 0 (VObject [("depth", VNumber 1)])
   = Some [1; 2] ∧
   findAllDescendants 4 scenario_heap 0
     (VObject [("parent", VObject [("key", VString "0.1")])]) = Some [3]) ∧
  ∃ rd,
    findAllChildren scenario_heap 0 (VObject [("depth", VNumber 1)])
    = Some (List.filter
              (λ n, isMatch scenario_heap n (VObject [("depth", VNumber 1)]))
              (values (default [] (children scenario_root)))) ∧
    findAllDescendants 4 scenario_heap 0 (VObject [("depth", VNumber 1)])
    = Some rd ∧
    (∀ x, x ∈ rd ↔ descends scenario_heap 0 x ∧
                    isMatch scenario_heap x (VObject [("depth", VNumber 1)])
                    = true) ∧
    (∀ i j x y, rd !! i = Some x → rd !! j = Some y → i < j →
                before scenario_heap x y).
Proof.
  split; [split; [exact scenario_reachable | by vm_compute]|].
  apply (proj1 (proj2 (proj2 find_matches_tree_objects)) scenario_heap 4 0
           scenario_root (VObject [("depth", VNumber 1)])
           scenario_reachable eq_refl).
  vm_compute. lia.
Defined.
